(** * Kindle-Clippings-Cleaner: the deduplication and ordering engine

    A shallow embedding of [src/clean_clippings.py] and of the parts of
    CPython's [difflib.SequenceMatcher] and [re] that the cleaner calls,
    followed by the properties of the duplicate classifier, of the record
    splitter, of [dedup_by_book], of the text functions, of the parser and
    of the writer.

    Conventions.
    - A Python [str] is the list of its code points ([pystr]); [len] is
      [length].  Python integers are [Z]; list positions are [nat].
    - A [dict] is a stdpp [gmap].
    - Reading and writing files, the command line and the [debug]
      printing are left out.  [dedup_by_book] takes entries as
      [make_entry] builds them from the fields of a record; the regular
      expressions that [parse_entry] runs over the metadata line to find
      these fields are in [Re] and [Parser].
    - [x / y >= r] on floats, for integers [x], [y] and a two-digit decimal
      [r], is modelled by the same comparison on rationals.  IEEE division
      is correctly rounded and rounding is monotone, so the two agree as
      soon as the exact quotient is not within [2^-53] of [r]; for
      [y < 10^14] a quotient that differs from [r] differs from it by at
      least [1 / (100 * y)], which is far more. *)

From Stdlib Require Import ZArith QArith Ascii String List Permutation Lia.
From stdpp Require Import base decidable option list numbers countable gmap.

Local Open Scope nat_scope.

(** ** Python strings *)

Abbreviation pystr := (list N).

(** A literal: the code points of an ASCII string. *)
Definition py (s : string) : pystr := N_of_ascii <$> list_ascii_of_string s.

Module Str.

(** [str.isspace] on one character; also the class [\s] of [re] on [str]
    patterns. *)
Definition isspace (c : N) : bool :=
  ((9 <=? c) && (c <=? 13) || (28 <=? c) && (c <=? 32) || (c =? 133)
   || (c =? 160) || (c =? 5760) || (8192 <=? c) && (c <=? 8202)
   || (c =? 8232) || (c =? 8233) || (c =? 8239) || (c =? 8287)
   || (c =? 12288))%N.

(** [s.lstrip(chars)], [s.rstrip(chars)] with the character set as a
    predicate. *)
Fixpoint lstrip_by (p : N → bool) (s : pystr) : pystr :=
  match s with
  | [] => []
  | c :: s' => if p c then lstrip_by p s' else s
  end.

Definition rstrip_by (p : N → bool) (s : pystr) : pystr :=
  rev (lstrip_by p (rev s)).

(** [s.strip()] *)
Definition strip (s : pystr) : pystr := rstrip_by isspace (lstrip_by isspace s).

(** [s.startswith(p)] *)
Fixpoint startswith (p s : pystr) : bool :=
  match p, s with
  | [], _ => true
  | _ :: _, [] => false
  | c :: p', d :: s' => (c =? d)%N && startswith p' s'
  end.

(** [a in b] on strings: [a] occurs in [b] as a contiguous substring. *)
Fixpoint contains (b a : pystr) : bool :=
  startswith a b ||
  match b with
  | [] => false
  | _ :: b' => contains b' a
  end.

(** [s.split(sep)] for a non-empty [sep]: cut at the leftmost occurrence,
    continue after it.  [skip] counts the characters of a found separator
    still to be passed over, [acc] is the current piece, reversed. *)
Fixpoint split_go (sep : pystr) (skip : nat) (acc : pystr) (s : pystr)
  : list pystr :=
  match s with
  | [] => [rev acc]
  | c :: s' =>
      match skip with
      | S k => split_go sep k acc s'
      | O =>
          if startswith sep s
          then rev acc :: split_go sep (length sep - 1) [] s'
          else split_go sep 0 (c :: acc) s'
      end
  end.

Definition split (s sep : pystr) : list pystr := split_go sep 0 [] s.

(** [sep.join(parts)] *)
Fixpoint join (sep : pystr) (parts : list pystr) : pystr :=
  match parts with
  | [] => []
  | [p] => p
  | p :: ps => p ++ sep ++ join sep ps
  end.

(** [s.replace(old, new)] for a non-empty [old]. *)
Definition replace (s old new : pystr) : pystr := join new (split s old).

End Str.

(** ** Python's stable sort

    [list.sort] is stable and compares with [<] only; on a total preorder
    every stable sort returns the same list.  Insertion from the left,
    each element placed behind the elements that are not greater. *)

Fixpoint insert_sorted {A} (lt : A → A → bool) (x : A) (l : list A) : list A :=
  match l with
  | [] => [x]
  | y :: l' => if lt x y then x :: l else y :: insert_sorted lt x l'
  end.

Definition py_sort {A} (lt : A → A → bool) (l : list A) : list A :=
  foldl (λ acc x, insert_sorted lt x acc) [] l.

(** [<] on tuples of integers: lexicographic, a proper prefix is smaller. *)
Fixpoint tuple_lt (s t : list Z) : bool :=
  match s, t with
  | _, [] => false
  | [], _ :: _ => true
  | x :: s', y :: t' => (x <? y)%Z || (x =? y)%Z && tuple_lt s' t'
  end.

(** ** difflib.SequenceMatcher

    [SequenceMatcher(None, a, b)]: no junk predicate, [autojunk] on.  With
    [isjunk = None] the set [bjunk] stays empty, so [isbjunk] is constantly
    false: the first pair of extension loops of [find_longest_match] tests
    equality only and the second pair never runs. *)

Module difflib.

(** A [Match(a=i, b=j, size=k)]. *)
Definition Match : Type := nat * nat * nat.

Definition setdefault_append (m : gmap N (list nat)) (ie : nat * N)
  : gmap N (list nat) :=
  <[ie.2 := default [] (m !! ie.2) ++ [ie.1]]> m.

(** [__chain_b]: the positions of every element of [b], in increasing
    order; when [len(b) >= 200] the elements occurring more than
    [len(b) // 100 + 1] times are purged. *)
Definition chain_b (b : pystr) : gmap N (list nat) :=
  let b2j := foldl setdefault_append ∅ (imap pair b) in
  let n := length b in
  if 200 <=? n
  then let ntest := n / 100 + 1 in
       filter (λ kv, ¬ (ntest < length kv.2)) b2j
  else b2j.

(** [j2len.get(j-1, 0)]; position [-1] is never a key. *)
Definition j2lenget (j2len : gmap nat nat) (j : nat) : nat :=
  match j with
  | O => 0
  | S j' => default 0 (j2len !! j')
  end.

(** The inner loop of [find_longest_match] over the positions [js] of
    [a[i]] in [b]; [break] at the first [j >= bhi]. *)
Fixpoint scan_js (i blo bhi : nat) (j2len : gmap nat nat) (js : list nat)
    (newj2len : gmap nat nat) (best : Match) : gmap nat nat * Match :=
  match js with
  | [] => (newj2len, best)
  | j :: js' =>
      if j <? blo then scan_js i blo bhi j2len js' newj2len best
      else if bhi <=? j then (newj2len, best)
      else
        let k := j2lenget j2len j + 1 in
        let newj2len := <[j := k]> newj2len in
        let best := if best.2 <? k then (i + 1 - k, j + 1 - k, k) else best in
        scan_js i blo bhi j2len js' newj2len best
  end.

Definition scan_i (a : pystr) (b2j : gmap N (list nat)) (blo bhi : nat)
    (st : gmap nat nat * Match) (i : nat) : gmap nat nat * Match :=
  let js := match a !! i with
            | Some x => default [] (b2j !! x)
            | None => []
            end in
  scan_js i blo bhi st.1 js ∅ st.2.

(** [while besti > alo and bestj > blo and a[besti-1] == b[bestj-1]] *)
Fixpoint extend_left (a b : pystr) (alo blo : nat) (besti bestj bestsize : nat)
  : Match :=
  match besti, bestj with
  | S i', S j' =>
      if (alo <? besti) && (blo <? bestj)
         && bool_decide (is_Some (a !! i') ∧ a !! i' = b !! j')
      then extend_left a b alo blo i' j' (S bestsize)
      else (besti, bestj, bestsize)
  | _, _ => (besti, bestj, bestsize)
  end.

(** [while besti+bestsize < ahi and bestj+bestsize < bhi and
     a[besti+bestsize] == b[bestj+bestsize]]; at most [fuel] rounds, and
    [ahi - (besti + bestsize)] rounds are all the guard allows. *)
Fixpoint extend_right (fuel : nat) (a b : pystr) (ahi bhi : nat)
    (besti bestj bestsize : nat) : Match :=
  match fuel with
  | O => (besti, bestj, bestsize)
  | S fuel' =>
      if (besti + bestsize <? ahi) && (bestj + bestsize <? bhi)
         && bool_decide (is_Some (a !! (besti + bestsize))
                         ∧ a !! (besti + bestsize) = b !! (bestj + bestsize))
      then extend_right fuel' a b ahi bhi besti bestj (S bestsize)
      else (besti, bestj, bestsize)
  end.

Definition find_longest_match (a b : pystr) (b2j : gmap N (list nat))
    (alo ahi blo bhi : nat) : Match :=
  let '(besti, bestj, bestsize) :=
    (foldl (scan_i a b2j blo bhi) (∅, (alo, blo, 0)) (seq alo (ahi - alo))).2 in
  let '(besti, bestj, bestsize) :=
    extend_left a b alo blo besti bestj bestsize in
  extend_right (ahi - (besti + bestsize)) a b ahi bhi besti bestj bestsize.

(** The work list of [get_matching_blocks]: [queue.pop()] takes the last
    element, here the head. *)
Fixpoint blocks_loop (fuel : nat) (a b : pystr) (b2j : gmap N (list nat))
    (queue : list (nat * nat * nat * nat)) (matching_blocks : list Match)
  : list Match :=
  match fuel, queue with
  | _, [] => matching_blocks
  | O, _ => matching_blocks
  | S fuel', (alo, ahi, blo, bhi) :: queue =>
      let x := find_longest_match a b b2j alo ahi blo bhi in
      let '(i, j, k) := x in
      if k =? 0 then blocks_loop fuel' a b b2j queue matching_blocks
      else
        let queue := if (alo <? i) && (blo <? j)
                     then (alo, i, blo, j) :: queue else queue in
        let queue := if (i + k <? ahi) && (j + k <? bhi)
                     then (i + k, ahi, j + k, bhi) :: queue else queue in
        blocks_loop fuel' a b b2j queue (matching_blocks ++ [x])
  end.

Definition match_lt (x y : Match) : bool :=
  let '(i1, j1, k1) := x in
  let '(i2, j2, k2) := y in
  (i1 <? i2) || (i1 =? i2) && ((j1 <? j2) || (j1 =? j2) && (k1 <? k2)).

(** The loop that merges adjacent blocks; [cur] is [(i1, j1, k1)]. *)
Fixpoint collapse (cur : Match) (blocks : list Match) (non_adjacent : list Match)
  : list Match :=
  let '(i1, j1, k1) := cur in
  match blocks with
  | [] => if k1 =? 0 then non_adjacent else non_adjacent ++ [cur]
  | (i2, j2, k2) :: rest =>
      if (i1 + k1 =? i2) && (j1 + k1 =? j2)
      then collapse (i1, j1, k1 + k2) rest non_adjacent
      else collapse (i2, j2, k2) rest
             (if k1 =? 0 then non_adjacent else non_adjacent ++ [cur])
  end.

(** Rounds of the work list that [get_matching_blocks] can need: every
    round with a match uses up an element of [a] and queues at most two
    regions. *)
Definition blocks_fuel (a : pystr) : nat := 2 * length a + 1.

Definition get_matching_blocks (a b : pystr) : list Match :=
  let la := length a in
  let lb := length b in
  let blocks := blocks_loop (blocks_fuel a) a b (chain_b b) [(0, la, 0, lb)] [] in
  collapse (0, 0, 0) (py_sort match_lt blocks) [] ++ [(la, lb, 0)].

(** [sum(triple[-1] for triple in self.get_matching_blocks())] *)
Definition matches (a b : pystr) : nat :=
  foldr (λ triple s, triple.2 + s) 0 (get_matching_blocks a b).

(** [_calculate_ratio(matches, length)] *)
Definition calculate_ratio (matches length : nat) : Q :=
  if length =? 0 then 1%Q
  else (2 * inject_Z (Z.of_nat matches) / inject_Z (Z.of_nat length))%Q.

(** [SequenceMatcher(None, a, b).ratio()] *)
Definition ratio (a b : pystr) : Q :=
  calculate_ratio (matches a b) (length a + length b).

End difflib.

(** ** clean_clippings.py *)

Module Cleaner.

Import Str.

(** *** Normalizer *)

(** [CJK_RE = [一-鿿]] *)
Definition is_cjk (c : N) : bool := ((19968 <=? c) && (c <=? 40959))%N.

(** [mostly_cjk(text, threshold=0.3)] *)
Definition mostly_cjk (text : pystr) : bool :=
  match text with
  | [] => false
  | _ =>
      let cjk := length (filter (λ c, is_cjk c = true) text) in
      Qle_bool 0.3 (inject_Z (Z.of_nat cjk)
                    / inject_Z (Z.of_nat (Nat.max 1 (length text))))
  end.

(** [re.sub(r"\s+", repl, t)]: every maximal run of whitespace becomes
    [repl]; [in_run] tells that the previous character was whitespace. *)
Fixpoint sub_ws_runs (repl : pystr) (in_run : bool) (t : pystr) : pystr :=
  match t with
  | [] => []
  | c :: t' =>
      if isspace c
      then (if in_run then [] else repl) ++ sub_ws_runs repl true t'
      else c :: sub_ws_runs repl false t'
  end.

(** The class [[。！？…\.\!\?]]. *)
Definition is_terminal_punct (c : N) : bool :=
  ((c =? 12290) || (c =? 65281) || (c =? 65311) || (c =? 8230)
   || (c =? 46) || (c =? 33) || (c =? 63))%N.

(** [normalize_for_compare(text)].  The last substitution anchors a run
    of the class at [$]; its argument holds no line feed any more (every
    whitespace run has become a space), so [$] is the end of the string
    and the substitution removes the trailing run of the class. *)
Definition normalize_for_compare (text : pystr) : pystr :=
  match text with
  | [] => []
  | _ =>
      let t := strip (replace (replace text [13; 10]%N [10]%N) [13]%N [10]%N) in
      let t := sub_ws_runs [32%N] false t in
      let t := if mostly_cjk t then sub_ws_runs [] false t else t in
      rstrip_by is_terminal_punct t
  end.

(** *** Splitting *)

(** [split_entries(content)]: the separator is the literal
    ["=========="] of the source, ten times [=] (code point 61). *)
Definition SEPARATOR : pystr := replicate 10 61%N.

Definition split_entries (content : pystr) : list pystr :=
  let parts := split content SEPARATOR in
  omap (λ p, if bool_decide (strip p = []) then None else Some (strip p)) parts.

(** The class of [CLAUSE_SPLIT_RE = [。！？；;.!?\n]+]. *)
Definition is_clause_delim (c : N) : bool :=
  ((c =? 12290) || (c =? 65281) || (c =? 65311) || (c =? 65307)
   || (c =? 59) || (c =? 46) || (c =? 33) || (c =? 63) || (c =? 10))%N.

(** [CLAUSE_SPLIT_RE.split(text)]: the pieces between the maximal runs of
    delimiters. *)
Fixpoint re_split_runs (isdelim : N → bool) (in_run : bool) (acc : pystr)
    (text : pystr) : list pystr :=
  match text with
  | [] => [rev acc]
  | c :: text' =>
      if isdelim c
      then if in_run then re_split_runs isdelim true acc text'
           else rev acc :: re_split_runs isdelim true [] text'
      else re_split_runs isdelim false (c :: acc) text'
  end.

(** [split_clauses(text)] *)
Definition split_clauses (text : pystr) : list pystr :=
  match text with
  | [] => []
  | _ =>
      let clauses :=
        omap (λ c, if bool_decide (strip c = []) then None else Some (strip c))
             (re_split_runs is_clause_delim false [] text) in
      match clauses with
      | [] => [strip text]
      | _ => clauses
      end
  end.

(** *** Entries *)

(** The values [parse_type] returns. *)
Inductive kind := highlight | note | bookmark | unknown.

Global Instance kind_eq_dec : EqDecision kind.
Proof. solve_decision. Defined.

(** The dictionary built by [parse_entry], with the keys that the
    deduplication reads.  [loc] is the pair returned by [parse_loc], which
    is [(None, None)] or two integers: [None] stands for the former.  The
    keys ["timestamp_raw"] and ["hash"] are written by the parser and read
    nowhere. *)
Record Entry := {
  idx : Z;
  title : pystr;
  meta : pystr;
  type : kind;
  loc : option (Z * Z);
  timestamp : option Z;
  body : pystr;
  norm : pystr;
  clauses : list pystr
}.

Global Instance Entry_eq_dec : EqDecision Entry.
Proof. solve_decision. Defined.

(** The last lines of [parse_entry]: the entry for a block whose title,
    metadata fields and trimmed body have been read. *)
Definition make_entry (idx : Z) (title meta : pystr) (kind : kind)
    (loc : option (Z * Z)) (ts_epoch : option Z) (body : pystr) : Entry :=
  let norm := normalize_for_compare body in
  {| idx := idx; title := title; meta := meta; type := kind; loc := loc;
     timestamp := ts_epoch; body := body; norm := norm;
     clauses := split_clauses norm |}.

(** *** Similarity primitives *)

(** [ranges_overlap(a, b, tol=8)] *)
Definition ranges_overlap (a b : option (Z * Z)) (tol : Z) : bool :=
  match a, b with
  | Some (a1, a2), Some (b1, b2) =>
      negb ((a2 + tol <? b1)%Z || (b2 + tol <? a1)%Z)
  | _, _ => false
  end.

Definition len (s : pystr) : Z := Z.of_nat (length s).

Definition is_empty (s : pystr) : bool :=
  match s with [] => true | _ => false end.

(** [very_close(a, b, ratio)] *)
Definition very_close (a b : pystr) (ratio : Q) : bool :=
  if is_empty a || is_empty b then false
  else if (Z.min (len a) (len b) <? 8)%Z then bool_decide (a = b)
  else Qle_bool ratio (difflib.ratio a b).

(** [clause_based_match(a_clauses, b_clauses, min_len, ratio)] *)
Definition clause_based_match (a_clauses b_clauses : list pystr)
    (min_len : Z) (ratio : Q) : bool :=
  existsb (λ ca,
    if (len ca <? min_len)%Z then false
    else existsb (λ cb,
      if (len cb <? min_len)%Z then false
      else contains cb ca || contains ca cb
           || Qle_bool ratio (difflib.ratio ca cb)) b_clauses) a_clauses.

(** [is_subset(a, b, min_len)] *)
Definition is_subset (a b : pystr) (min_len : Z) : bool :=
  if is_empty a || is_empty b then false
  else if (Z.min (len a) (len b) <? min_len)%Z then false
  else contains b a || contains a b.

(** *** Duplicate classifier *)

(** The local [time_close] of [is_duplicate]. *)
Definition time_close (cur kept : Entry) (time_tol : Z) : bool :=
  match timestamp cur, timestamp kept with
  | Some ta, Some tb => (Z.abs (ta - tb) <=? time_tol)%Z
  | _, _ => false
  end.

(** [is_duplicate(cur, kept, time_tol, clause_min_len)]; [debug] only
    prints. *)
Definition is_duplicate (cur kept : Entry) (time_tol clause_min_len : Z) : bool :=
  let a := norm cur in
  let b := norm kept in
  if is_empty a || is_empty b then false
  else if bool_decide (a = b) then true
  else
    let overlap := ranges_overlap (loc cur) (loc kept) 8 in
    let time_close := time_close cur kept time_tol in
    let clause_match :=
      clause_based_match (clauses cur) (clauses kept) clause_min_len
        (if time_close then 0.88 else 0.92) in
    if overlap then
      if clause_match then true
      else if is_subset a b 12 then true
      else if very_close a b (if time_close then 0.90 else 0.92) then true
      else false
    else
      if clause_match then true
      else if is_subset a b (if time_close then 10 else 16) then true
      else if very_close a b (if negb time_close then 0.95 else 0.92) then true
      else false.

(** *** Grouping and ordering *)

(** The three running lists of one book. *)
Record kept_lists := {
  kept_h : list Entry;
  kept_n : list Entry;
  kept_b : list Entry
}.

(** The body of [for cur in reversed(es)]. *)
Definition retain (time_tol clause_min_len : Z) (st : kept_lists) (cur : Entry)
  : kept_lists :=
  if is_empty (body cur) || is_empty (strip (body cur)) then st
  else
    match type cur with
    | highlight =>
        let dup := existsb (λ k, is_duplicate cur k time_tol clause_min_len)
                           (kept_h st) in
        if negb dup
        then {| kept_h := kept_h st ++ [cur]; kept_n := kept_n st;
                kept_b := kept_b st |}
        else st
    | note =>
        if negb (existsb (λ k, bool_decide (norm cur = norm k)) (kept_n st))
        then {| kept_h := kept_h st; kept_n := kept_n st ++ [cur];
                kept_b := kept_b st |}
        else st
    | bookmark =>
        if negb (existsb (λ k, bool_decide (meta cur = meta k)) (kept_b st))
        then {| kept_h := kept_h st; kept_n := kept_n st;
                kept_b := kept_b st ++ [cur] |}
        else st
    | unknown =>
        let dup := existsb (λ k, is_duplicate cur k time_tol clause_min_len)
                           (kept_h st) in
        if negb dup
        then {| kept_h := kept_h st ++ [cur]; kept_n := kept_n st;
                kept_b := kept_b st |}
        else st
    end.

(** [sort_key(x)], a tuple of two or of three integers. *)
Definition sort_key (x : Entry) : list Z :=
  match loc x with
  | None =>
      let ts := default 0%Z (timestamp x) in
      [10 ^ 12; - ts; idx x]%Z
  | Some (s, e2) => [s; idx x]
  end.

Definition key_lt (x y : Entry) : bool := tuple_lt (sort_key x) (sort_key y).

(** The kept lists of one book after the scan. *)
Definition scan_book (time_tol clause_min_len : Z) (es : list Entry) : kept_lists :=
  foldl (retain time_tol clause_min_len)
        {| kept_h := []; kept_n := []; kept_b := [] |} (rev es).

(** One round of [for book, es in by_book.items()]: the value stored
    under [book]. *)
Definition dedup_book (time_tol clause_min_len : Z) (es : list Entry) : list Entry :=
  let st := scan_book time_tol clause_min_len es in
  py_sort key_lt (kept_h st) ++ py_sort key_lt (kept_n st)
  ++ py_sort key_lt (kept_b st).

(** [by_book[e["title"]].append(e)] on a [defaultdict(list)]. *)
Definition by_book_append (by_book : gmap pystr (list Entry)) (e : Entry)
  : gmap pystr (list Entry) :=
  <[title e := default [] (by_book !! title e) ++ [e]]> by_book.

(** [dedup_by_book(entries, time_tol, clause_min_len)] *)
Definition dedup_by_book (entries : list Entry) (time_tol clause_min_len : Z)
  : gmap pystr (list Entry) :=
  let by_book := foldl by_book_append ∅ entries in
  dedup_book time_tol clause_min_len <$> by_book.

End Cleaner.

(** * The words of the specification

    The predicates in which the properties below are stated. *)

Module Spec.
Import Str Cleaner.

(** *** Locations and separators *)

(** Two closed integer ranges share a point. *)
Definition intersects (r s : Z * Z) : Prop :=
  ∃ x : Z, (r.1 ≤ x ≤ r.2 ∧ s.1 ≤ x ≤ s.2)%Z.

(** A range widened by [tol] on both of its ends. *)
Definition expand (tol : Z) (r : Z * Z) : Z * Z := (r.1 - tol, r.2 + tol)%Z.

(** The distance between two ranges (not positive when they meet). *)
Definition gap (r s : Z * Z) : Z := Z.max (s.1 - r.2) (r.1 - s.2).

(** The location-overlap test as the specification words it: both
    ranges present, each widened by 8, and the widened ranges meet. *)
Definition overlap_each_expanded (a b : option (Z * Z)) : Prop :=
  ∃ r s, a = Some r ∧ b = Some s ∧ intersects (expand 8 r) (expand 8 s).

(** Ten ASCII hyphens. *)
Definition HYPHENS : pystr := replicate 10 45%N.

(** The non-empty trimmed forms of a list of segments. *)
Definition trimmed_nonempty (segments : list pystr) : list pystr :=
  omap (λ p, if bool_decide (strip p = []) then None else Some (strip p))
       segments.

(** [sep] occurs nowhere in a segment, nor across the segment's end into
    the separator that follows it ([sep] itself less its last
    character): the separator found after it is the leftmost one. *)
Definition cut_leftmost (sep : pystr) (segment : pystr) : Prop :=
  contains (segment ++ removelast sep) sep = false.

(** A list of segments cut at leftmost separators: every segment but
    the last is [cut_leftmost], the last holds no separator at all. *)
Fixpoint segments_ok (sep : pystr) (segments : list pystr) : Prop :=
  match segments with
  | [] => False
  | [p] => contains p sep = false
  | p :: ps => cut_leftmost sep p ∧ segments_ok sep ps
  end.


(** The matcher counts as many matching characters for two entries in
    either order: for the normalized bodies and for every pair of
    clauses. *)
Definition matcher_symmetric (x y : Entry) : Prop :=
  difflib.matches (norm x) (norm y) = difflib.matches (norm y) (norm x)
  ∧ ∀ ca cb, In ca (clauses x) → In cb (clauses y) →
      difflib.matches ca cb = difflib.matches cb ca.

(** *** Kept sequences *)

(** Every element stands in relation [R] to every later one. *)
Fixpoint Pairwise {A} (R : A → A → Prop) (l : list A) : Prop :=
  match l with
  | [] => True
  | x :: l' => Forall (R x) l' ∧ Pairwise R l'
  end.

(** The running list an entry is filed under: [retain] files an entry of
    kind [unknown] with the highlights. *)
Inductive bucket := Bh | Bn | Bb.

Global Instance bucket_eq_dec : EqDecision bucket.
Proof. solve_decision. Defined.

Definition bucket_of (k : kind) : bucket :=
  match k with
  | highlight | unknown => Bh
  | note => Bn
  | bookmark => Bb
  end.

(** The entry passes the empty-body filter. *)
Definition nonblank (e : Entry) : bool :=
  negb (is_empty (body e) || is_empty (strip (body e))).

(** The entries of one document, in input order. *)
Definition entries_of (t : pystr) (entries : list Entry) : list Entry :=
  filter (λ e, title e = t) entries.

(** The value stored for a document, empty when the document is absent. *)
Definition kept_of (t : pystr) (result : gmap pystr (list Entry)) : list Entry :=
  default [] (result !! t).

(** What [retain] files under the running list [b]. *)
Definition selects (b : bucket) (e : Entry) : Prop :=
  nonblank e = true ∧ bucket_of (type e) = b.

Global Instance selects_dec b e : Decision (selects b e).
Proof. unfold selects. apply _. Defined.

(** The kinds for which equal normalized bodies mean a duplicate: notes
    always, highlights and unknowns when the normalized body is not
    empty. *)
Definition collapsible (x : Entry) : Prop :=
  type x = note ∨ ((type x = highlight ∨ type x = unknown) ∧ norm x ≠ []).

(** The timestamp the sort key uses: [x.get("timestamp") or 0]. *)
Definition ts_or_0 (x : Entry) : Z := default 0%Z (timestamp x).

(** [x] may stand before [y], as the specification orders a kept list:
    located entries first, by (location start, index); then the others,
    newest first, by index among equal timestamps. *)
Definition before_spec (x y : Entry) : Prop :=
  match loc x, loc y with
  | Some (s, _), Some (s', _) => (s < s' ∨ (s = s' ∧ idx x ≤ idx y))%Z
  | Some _, None => True
  | None, Some _ => False
  | None, None =>
      (ts_or_0 y < ts_or_0 x ∨ (ts_or_0 x = ts_or_0 y ∧ idx x ≤ idx y))%Z
  end.

(** The same, saying of an entry without a location only that it stands
    behind the located entries that start below [10^12]. *)
Definition before (x y : Entry) : Prop :=
  match loc x, loc y with
  | Some (s, _), Some (s', _) => (s < s' ∨ (s = s' ∧ idx x ≤ idx y))%Z
  | Some _, None => True
  | None, Some (s', _) => (10 ^ 12 ≤ s')%Z
  | None, None =>
      (ts_or_0 y < ts_or_0 x ∨ (ts_or_0 x = ts_or_0 y ∧ idx x ≤ idx y))%Z
  end.

(** A kept sequence made of three ordered lists: the first of entries
    that satisfy [first], then notes, then bookmarks. *)
Definition three_sorted_lists (first : Entry → Prop)
    (ordered : Entry → Entry → Prop) (out : list Entry) : Prop :=
  ∃ hs ns bs, out = hs ++ ns ++ bs
    ∧ Forall first hs
    ∧ Forall (λ e, type e = note) ns
    ∧ Forall (λ e, type e = bookmark) bs
    ∧ Pairwise ordered hs ∧ Pairwise ordered ns ∧ Pairwise ordered bs.

(** The entries of a result, document after document: what a second run
    is given when the first run's output is fed back. *)
Definition feed_back (result : gmap pystr (list Entry)) : list Entry :=
  concat (map_to_list result).*2.

End Spec.

(** * Invariants

    What the loops of the matcher, the splitter and the scan maintain. *)

Module Invariants.
Import Str difflib Cleaner Spec.

(** A match inside the region [a[alo:ahi]], [b[blo:bhi]]. *)
Definition within (alo ahi blo bhi : nat) (x : Match) : Prop :=
  alo ≤ x.1.1 ∧ x.1.1 + x.2 ≤ ahi ∧ blo ≤ x.1.2 ∧ x.1.2 + x.2 ≤ bhi.

(** Lengths recorded for matches that end just before row [i]. *)
Definition j2len_ok (alo blo i : nat) (j2len : gmap nat nat) : Prop :=
  ∀ j v, j2len !! j = Some v → blo ≤ j ∧ v ≤ i - alo ∧ v ≤ j + 1 - blo.

(** A region of the work list, lower bounds first. *)
Definition region_ok (r : nat * nat * nat * nat) : Prop :=
  r.1.1.1 ≤ r.1.1.2 ∧ r.1.2 ≤ r.2.

(** What is left to do for a work list: twice the rows of [a] it covers,
    plus one per region. *)
Definition work (queue : list (nat * nat * nat * nat)) : nat :=
  foldr (λ r s, 2 * (r.1.1.2 - r.1.1.1) + 1 + s) 0 queue.

(** No separator starts inside the first [n] characters of [t]. *)
Definition none_before (sep : pystr) (n : nat) (t : pystr) : Prop :=
  ∀ u v, t = u ++ sep ++ v → n ≤ length u.

(** [x] may stand before [y] in a list sorted by [lt]. *)
Definition sorted_le {A} (lt : A → A → bool) (x y : A) : Prop := lt y x = false.

(** One running list on its own: append what no element already kept
    rejects. *)
Definition keep_fold (dup : Entry → Entry → bool) (kept : list Entry)
    (l : list Entry) : list Entry :=
  foldl (λ kept cur, if existsb (dup cur) kept then kept else kept ++ [cur])
        kept l.

(** The test each running list applies to a candidate and a kept entry. *)
Definition dup_of (time_tol clause_min_len : Z) (b : bucket)
    (cur k : Entry) : bool :=
  match b with
  | Bh => is_duplicate cur k time_tol clause_min_len
  | Bn => bool_decide (norm cur = norm k)
  | Bb => bool_decide (meta cur = meta k)
  end.

(** The running list [b] of a scan state. *)
Definition kept_in (b : bucket) (st : kept_lists) : list Entry :=
  match b with
  | Bh => kept_h st
  | Bn => kept_n st
  | Bb => kept_b st
  end.

(** The running list [b] after the scan of a book. *)
Definition kept_bucket (tol m : Z) (b : bucket) (es : list Entry) : list Entry :=
  keep_fold (dup_of tol m b) [] (filter (selects b) (rev es)).

(** Not two copies of one text that collapse. *)
Definition distinct_text (x y : Entry) : Prop :=
  ¬ (type x = type y ∧ norm x = norm y ∧ collapsible x).

End Invariants.

(** * Entries and exports used as examples *)

Module Examples.
Import Str Cleaner Spec.

Local Open Scope Z_scope.

(** Two highlights of one passage, one with a misread letter; the
    locations overlap and neither carries a timestamp. *)
Definition foxes : Entry :=
  make_entry 0 (py "Fables") (py "- Your Highlight on Location 100-105")
             highlight (Some (100, 105)) None (py "brown foxes").

Definition boxes : Entry :=
  make_entry 1 (py "Fables") (py "- Your Highlight on Location 102-107")
             highlight (Some (102, 107)) None (py "brown boxes").

(** A short highlight and a longer one that contains it, taken 100
    seconds apart at distant locations; [foxes_near] is the short one
    moved next to the long one, nothing else changed. *)
Definition foxes_far : Entry :=
  make_entry 0 (py "Fables") (py "- Your Highlight on Location 100-101")
             highlight (Some (100, 101)) (Some 1758187248) (py "brown foxes").


Definition foxes_jump : Entry :=
  make_entry 1 (py "Fables") (py "- Your Highlight on Location 200-205")
             highlight (Some (200, 205)) (Some 1758187348)
             (py "the quick brown foxes jump").

(** With difflib's own example the classifier depends on the order:
    "ant" against "that" pairs up [a] and then [t], "that" against "ant"
    pairs up the first [t] and nothing after it. *)
Definition the_that : Entry :=
  make_entry 0 (py "Fables") (py "- Your Highlight on Location 200-210")
             highlight (Some (200, 210)) None (py "the cat ate the that").

Definition the_ant : Entry :=
  make_entry 1 (py "Fables") (py "- Your Highlight on Location 10-12")
             highlight (Some (10, 12)) None (py "the cat ate the ant").

(** Two records of an export, once with a line of ten hyphens between
    them and once with the line of ten equals signs that the reader's
    export has. *)
Definition hyphen_export : pystr :=
  py "Fables" ++ [10%N] ++ py "- Your Bookmark on Location 3" ++ [10%N]
  ++ HYPHENS ++ [10%N]
  ++ py "Fables" ++ [10%N] ++ py "- Your Bookmark on Location 9" ++ [10%N].

Definition hyphen_segments : list pystr :=
  [ py "Fables" ++ [10%N] ++ py "- Your Bookmark on Location 3" ++ [10%N];
    [10%N] ++ py "Fables" ++ [10%N] ++ py "- Your Bookmark on Location 9"
    ++ [10%N] ].

(** A bookmark, which has no body, and a highlight of blank space. *)
Definition blank_bookmark : Entry :=
  make_entry 0 (py "Fables") (py "- Your Bookmark on Location 3")
             bookmark (Some (3, 3)%Z) None [].

Definition blank_highlight : Entry :=
  make_entry 1 (py "Fables") (py "- Your Highlight on Location 7")
             highlight (Some (7, 7)%Z) None [160%N].

(** An entry whose metadata names no kind, and a highlight of the same
    passage later in the export. *)
Definition stray : Entry :=
  make_entry 0 (py "Fables") (py "- Location 100-105")
             unknown (Some (100, 105)%Z) None (py "the quick brown fox").

Definition marked : Entry :=
  make_entry 1 (py "Fables") (py "- Your Highlight on Location 100-105")
             highlight (Some (100, 105)%Z) None (py "the quick brown fox").

(** One passage highlighted twice, far apart in place and in time. *)
Definition foxes_twice : Entry * Entry :=
  (make_entry 0 (py "Fables") (py "- Your Highlight on Location 100-101")
              highlight (Some (100, 101)%Z) (Some 1758187248%Z)
              (py "brown foxes"),
   make_entry 1 (py "Fables") (py "- Your Highlight on Location 900-901")
              highlight (Some (900, 901)%Z) (Some 1790000000%Z)
              (py "brown foxes."))%Z.

(** Two highlights of a bare ellipsis: the normalized body of both is
    empty. *)
Definition dots_early : Entry :=
  make_entry 0 (py "Fables") (py "- Your Highlight on Location 5")
             highlight (Some (5, 5)%Z) None (py "...").

Definition dots_late : Entry :=
  make_entry 1 (py "Fables") (py "- Your Highlight on Location 5")
             highlight (Some (5, 5)%Z) None (py "...").

(** Two bookmarks that carry the same text under different metadata. *)
Definition moral_early : Entry :=
  make_entry 0 (py "Fables") (py "- Your Bookmark on Location 3")
             bookmark (Some (3, 3)%Z) None (py "the moral").

Definition moral_late : Entry :=
  make_entry 1 (py "Fables") (py "- Your Bookmark on Location 9")
             bookmark (Some (9, 9)%Z) None (py "the moral").

(** Two different highlights that start at one location and carry one
    sequence index. *)
Definition twin_sour : Entry :=
  make_entry 0 (py "Fables") (py "- Your Highlight on Location 5")
             highlight (Some (5, 5)%Z) None (py "the grapes are sour").

Definition twin_slow : Entry :=
  make_entry 0 (py "Fables") (py "- Your Highlight on Location 5-6")
             highlight (Some (5, 6)%Z) None (py "slow and steady wins").

(** A highlight whose metadata gives no location, and one at a location
    beyond the number that [sort_key] puts in front of its keys for
    entries without a location. *)
Definition nowhere : Entry :=
  make_entry 0 (py "Fables") (py "- Your Highlight on page 4")
             highlight None None (py "the grapes are sour").

Definition far_out : Entry :=
  make_entry 1 (py "Fables")
             (py "- Your Highlight on Location 2000000000000")
             highlight (Some (2000000000000, 2000000000000)%Z) None
             (py "slow and steady wins").



End Examples.

(** * More words for the properties of the text functions *)

Module Words.
Import Str Cleaner.

(** Whitespace in [s] is single spaces only; [prev_ws] tells that a
    whitespace character stands just before [s]. *)
Fixpoint spaced (prev_ws : bool) (s : pystr) : Prop :=
  match s with
  | [] => True
  | c :: s' =>
      if isspace c then c = 32%N ∧ prev_ws = false ∧ spaced true s'
      else spaced false s'
  end.

(** No whitespace but single spaces between other characters or at the
    very end: none in front, no two in a row, no tab or line break. *)
Definition single_spaced (s : pystr) : Prop := spaced true s.

(** The number of CJK ideographs of a text. *)
Definition cjk_count (text : pystr) : nat :=
  length (filter (λ c, is_cjk c = true) text).

(** The layout of an export file: every record is followed by a line
    that holds the separator. *)
Definition export_of (blocks : list pystr) : pystr :=
  concat ((λ b, b ++ [10%N] ++ SEPARATOR ++ [10%N]) <$> blocks).

(** A record block as [split_entries] returns it: not empty, trimmed,
    and without the separator inside. *)
Definition clean_block (b : pystr) : Prop :=
  b ≠ [] ∧ strip b = b ∧ contains b SEPARATOR = false.

End Words.

(** * Regular expressions

    The part of CPython's [re] that the patterns of the program use, as a
    backtracking matcher in continuation-passing style: a continuation
    that answers [None] sends the matcher back to its last open choice,
    which is how [re] finds the match it reports.  Repetition is over
    one character class, as in all patterns of the program. *)

Module Re.
Import Str.

Inductive regex :=
| Eps
| Chr (p : N → bool)
| Seq (r1 r2 : regex)
| Alt (r1 r2 : regex)
| Rep (greedy : bool) (lo : nat) (hi : option nat) (p : N → bool)
| Grp (n : nat) (r : regex).

(** The groups a match has set, the latest binding first. *)
Definition groups := list (nat * pystr).

(** [m.group(n)]; [None] for a group that took no part in the match. *)
Fixpoint group (n : nat) (g : groups) : option pystr :=
  match g with
  | [] => None
  | (i, s) :: g' => if i =? n then Some s else group n g'
  end.

Definition more (hi : option nat) : bool :=
  match hi with Some 0 => false | _ => true end.

Definition less (hi : option nat) : option nat := pred <$> hi.

(** [p{lo,hi}]: as many characters as possible first. *)
Fixpoint rep_greedy {A} (p : N → bool) (lo : nat) (hi : option nat)
    (s : pystr) (k : pystr → option A) : option A :=
  let stop := if lo =? 0 then k s else None in
  match s with
  | c :: s' =>
      if p c && more hi
      then match rep_greedy p (pred lo) (less hi) s' k with
           | Some x => Some x
           | None => stop
           end
      else stop
  | [] => stop
  end.

(** [p{lo,hi}?]: as few characters as possible first. *)
Fixpoint rep_lazy {A} (p : N → bool) (lo : nat) (hi : option nat)
    (s : pystr) (k : pystr → option A) : option A :=
  let stop := if lo =? 0 then k s else None in
  match stop with
  | Some x => Some x
  | None =>
      match s with
      | c :: s' =>
          if p c && more hi then rep_lazy p (pred lo) (less hi) s' k
          else None
      | [] => None
      end
  end.

(** Match [r] at the front of [s], then hand what is left of [s] and the
    groups to [k]. *)
Fixpoint exec {A} (r : regex) (s : pystr) (g : groups)
    (k : pystr → groups → option A) : option A :=
  match r with
  | Eps => k s g
  | Chr p =>
      match s with
      | c :: s' => if p c then k s' g else None
      | [] => None
      end
  | Seq r1 r2 => exec r1 s g (λ s' g', exec r2 s' g' k)
  | Alt r1 r2 =>
      match exec r1 s g k with
      | Some x => Some x
      | None => exec r2 s g k
      end
  | Rep true lo hi p => rep_greedy p lo hi s (λ s', k s' g)
  | Rep false lo hi p => rep_lazy p lo hi s (λ s', k s' g)
  | Grp n r =>
      exec r s g (λ s' g', k s' ((n, take (length s - length s') s) :: g'))
  end.

(** [pat.search(s)]: the match at the leftmost position that has one. *)
Fixpoint search (r : regex) (s : pystr) : option groups :=
  match exec r s [] (λ _ g, Some g) with
  | Some g => Some g
  | None =>
      match s with
      | [] => None
      | _ :: s' => search r s'
      end
  end.

(** A literal character, and one under [re.I]: the other case of an
    ASCII letter, and the three characters that fold onto [i], [k] and
    [s]. *)
Definition chr (c : N) : regex := Chr (N.eqb c).

Definition ignore_case (c d : N) : bool :=
  ((d =? c)
   || ((65 <=? c) && (c <=? 90) && (d =? c + 32))
   || ((97 <=? c) && (c <=? 122) && (d =? c - 32))
   || (((c =? 73) || (c =? 105)) && ((d =? 304) || (d =? 305)))
   || (((c =? 75) || (c =? 107)) && (d =? 8490))
   || (((c =? 83) || (c =? 115)) && (d =? 383)))%N.

Definition chr_i (c : N) : regex := Chr (ignore_case c).

Definition lit (s : pystr) : regex := foldr (λ c r, Seq (chr c) r) Eps s.

Definition lit_i (s : pystr) : regex := foldr (λ c r, Seq (chr_i c) r) Eps s.

(** [r?], [p*], [p+], [p*?], [p{n}], [p{lo,hi}] *)
Definition opt (r : regex) : regex := Alt r Eps.

Definition star (p : N → bool) : regex := Rep true 0 None p.

Definition plus (p : N → bool) : regex := Rep true 1 None p.

Definition star_lazy (p : N → bool) : regex := Rep false 0 None p.

Definition times (n : nat) (p : N → bool) : regex := Rep true n (Some n) p.

Definition between (lo hi : nat) (p : N → bool) : regex :=
  Rep true lo (Some hi) p.

(** [r1 r2 ... rn] *)
Definition seq (rs : list regex) : regex := foldr Seq Eps rs.

(** The first characters of the runs of decimal digits of Unicode 14,
    the version of CPython 3.11: each is the digit zero of its script,
    the digits one to nine follow it. *)
Definition decimal_zeros : list N :=
  [48; 1632; 1776; 1984; 2406; 2534; 2662; 2790; 2918; 3046; 3174; 3302;
   3430; 3558; 3664; 3792; 3872; 4160; 4240; 6112; 6160; 6470; 6608; 6784;
   6800; 6992; 7088; 7232; 7248; 42528; 43216; 43264; 43472; 43504; 43600;
   44016; 65296; 66720; 68912; 69734; 69872; 69942; 70096; 70384; 70736;
   70864; 71248; 71360; 71472; 71904; 72016; 72784; 73040; 73120; 92768;
   92864; 93008; 120782; 120792; 120802; 120812; 120822; 123200; 123632;
   125264; 130032]%N.

(** The value of a decimal digit. *)
Definition decimal (c : N) : option Z :=
  (λ z, Z.of_N (c - z)) <$>
  find (λ z, (z <=? c) && (c <? z + 10))%N decimal_zeros.

(** The class [\d] on [str] patterns, and [.] *)
Definition digit (c : N) : bool :=
  match decimal c with Some _ => true | None => false end.

Definition dot (c : N) : bool := negb (c =? 10)%N.

End Re.

(** * The parser and the writer *)

Module Parser.
Import Str Re Cleaner.

Local Open Scope Z_scope.

(** A call returns, or raises [ValueError] or [UnicodeEncodeError]. *)
Inductive result (A : Type) :=
| Ok (a : A)
| ValueError
| UnicodeEncodeError.
Arguments Ok {A} a.
Arguments ValueError {A}.
Arguments UnicodeEncodeError {A}.

#[export] Instance result_bind : MBind result := λ A B f x,
  match x with
  | Ok a => f a
  | ValueError => ValueError
  | UnicodeEncodeError => UnicodeEncodeError
  end.

(** A surrogate code point: a [str] can hold one, the codecs [utf-8] and
    [utf-8-sig] refuse to encode it. *)
Definition surrogate (c : N) : bool := ((55296 <=? c) && (c <=? 57343))%N.

(** [text.encode("utf-8")] and the encoding of a text that is written to
    a file opened with [encoding="utf-8-sig"], as far as the program
    depends on them: it never reads the bytes again, a surrogate makes
    the call raise. *)
Definition encode (text : pystr) : result unit :=
  if existsb surrogate text then UnicodeEncodeError else Ok tt.

(** [md5_utf8(text)]: the digest goes under the key [hash], which nothing
    reads. *)
Definition md5_utf8 (text : pystr) : result unit := encode text.

(** The longest text of digits that [int] converts: the default of
    [sys.int_max_str_digits] in CPython 3.11. *)
Definition int_max_str_digits : nat := 4300.

(** [int(s)] for the text [s] of a group of [\d], which is all the
    program converts: the digits of every script count with their decimal
    value.  (Signs, blanks and underscores, which [int] also reads, are
    no digits here.) *)
Definition int_value (s : pystr) : Z :=
  foldl (λ n c, 10 * n + default 0 (decimal c)) 0 s.

Definition int (s : pystr) : result Z :=
  if forallb digit s && negb (is_empty s)
     && (length s <=? int_max_str_digits)%nat
  then Ok (int_value s)
  else ValueError.

(** [BOM] *)
Definition BOM : N := 65279%N.

(** [位置\s*#?(\d+)(?:-(\d+))?],
    [Location(?:s)?\s*#?(\d+)(?:-(\d+))?] and [loc\.\s*(\d+)(?:-(\d+))?],
    the last two under [re.I] *)
Definition span : regex :=
  Seq (Grp 1 (plus digit)) (opt (Seq (chr 45) (Grp 2 (plus digit)))).

Definition LOC_PATTERNS : list regex :=
  [ seq [lit [20301; 32622]%N; star isspace; opt (chr 35); span];
    seq [lit_i (py "Location"); opt (chr_i 115); star isspace; opt (chr 35);
         span];
    seq [lit_i (py "loc."); star isspace; span] ].

(** [Your\s+(Highlight|Note|Bookmark)] under [re.I] and
    [您在.*?的(标注|笔记|书签)] *)
Definition TYPE_PATTERNS : list regex :=
  [ seq [lit_i (py "Your"); plus isspace;
         Grp 1 (Alt (lit_i (py "Highlight"))
                    (Alt (lit_i (py "Note")) (lit_i (py "Bookmark"))))];
    seq [lit [24744; 22312]%N; star_lazy dot; chr 30340;
         Grp 1 (Alt (lit [26631; 27880]%N)
                    (Alt (lit [31508; 35760]%N) (lit [20070; 31614]%N)))] ].

(** [Added on\s+(.+)] under [re.I] and [添加于\s+(.+)] *)
Definition TS_PATTERNS : list regex :=
  [ seq [lit_i (py "Added on"); plus isspace; Grp 1 (plus dot)];
    seq [lit [28155; 21152; 20110]%N; plus isspace; Grp 1 (plus dot)] ].

(** [s.lstrip(BOM).strip()] *)
Definition strip_bom (s : pystr) : pystr := strip (lstrip_by (N.eqb BOM) s).

(** The text of a group that took part in the match. *)
Definition group_or_empty (n : nat) (m : groups) : pystr :=
  default [] (group n m).

(** [parse_loc(meta)]; [None] is the pair [(None, None)]. *)
Fixpoint parse_loc_from (pats : list regex) (meta : pystr)
  : result (option (Z * Z)) :=
  match pats with
  | [] => Ok None
  | pat :: pats' =>
      match search pat meta with
      | Some m =>
          start ← int (group_or_empty 1 m);
          end_ ← match group 2 m with
                 | None | Some [] => Ok start
                 | Some g2 => int g2
                 end;
          Ok (Some (if end_ <? start then (end_, start) else (start, end_)))
      | None => parse_loc_from pats' meta
      end
  end.

Definition parse_loc (meta : pystr) : result (option (Z * Z)) :=
  parse_loc_from LOC_PATTERNS meta.

(** [str.lower] on the characters that [TYPE_PATTERNS] let into their
    group: for the first pattern the letters of the three words in
    either case, the dotted capital I (which lowers to an [i] and a
    combining dot), the dotless i and the Kelvin sign; for the second the
    characters of the three Chinese words, which have no case. *)
Definition lower_char (c : N) : pystr :=
  (if (65 <=? c) && (c <=? 90) then [c + 32]
   else if c =? 304 then [105; 775]
   else if c =? 8490 then [107]
   else [c])%N.

Definition lower (s : pystr) : pystr := concat (lower_char <$> s).

Definition eqb_str (a b : pystr) : bool := bool_decide (a = b).

(** [parse_type(meta)]: a match whose group is none of the six words
    passes on to the next pattern. *)
Fixpoint parse_type_from (pats : list regex) (meta : pystr) : kind :=
  match pats with
  | [] => unknown
  | pat :: pats' =>
      match search pat meta with
      | Some m =>
          let t := lower (group_or_empty 1 m) in
          if eqb_str t (py "highlight") || eqb_str t [26631; 27880]%N
          then highlight
          else if eqb_str t (py "note") || eqb_str t [31508; 35760]%N
          then note
          else if eqb_str t (py "bookmark") || eqb_str t [20070; 31614]%N
          then bookmark
          else parse_type_from pats' meta
      | None => parse_type_from pats' meta
      end
  end.

Definition parse_type (meta : pystr) : kind :=
  parse_type_from TYPE_PATTERNS meta.

(** [parse_timestamp(meta)] *)
Fixpoint parse_timestamp_from (pats : list regex) (meta : pystr)
  : option pystr :=
  match pats with
  | [] => None
  | pat :: pats' =>
      match search pat meta with
      | Some m => Some (strip (group_or_empty 1 m))
      | None => parse_timestamp_from pats' meta
      end
  end.

Definition parse_timestamp (meta : pystr) : option pystr :=
  parse_timestamp_from TS_PATTERNS meta.

(** [(\d{4})年\s*(\d{1,2})月\s*(\d{1,2})日.*?(上午|下午)?\s*(\d{1,2}):(\d{2}):(\d{2})] *)
Definition DATE_ZH : regex :=
  seq [Grp 1 (times 4 digit); chr 24180; star isspace;
       Grp 2 (between 1 2 digit); chr 26376; star isspace;
       Grp 3 (between 1 2 digit); chr 26085; star_lazy dot;
       opt (Grp 4 (Alt (lit [19978; 21320]%N) (lit [19979; 21320]%N)));
       star isspace;
       Grp 5 (between 1 2 digit); chr 58; Grp 6 (times 2 digit); chr 58;
       Grp 7 (times 2 digit)].

(** [(\d{4})[-/](\d{1,2})[-/](\d{1,2})[ T](\d{1,2}):(\d{2}):(\d{2})] *)
Definition DATE_ISO : regex :=
  seq [Grp 1 (times 4 digit); Chr (λ c, (c =? 45) || (c =? 47))%N;
       Grp 2 (between 1 2 digit); Chr (λ c, (c =? 45) || (c =? 47))%N;
       Grp 3 (between 1 2 digit); Chr (λ c, (c =? 32) || (c =? 84))%N;
       Grp 4 (between 1 2 digit); chr 58; Grp 5 (times 2 digit); chr 58;
       Grp 6 (times 2 digit)].

(** [int(m.group(n))] for a group of one to four digits, which is too
    short to raise. *)
Definition int_group (n : nat) (m : groups) : Z :=
  int_value (group_or_empty n m).

Section host.

(** [int(time.mktime(time.struct_time((year, month, day, hh, mm, ss, 0, 0,
    -1))))] in the time zone of the host; [None] when it raises. *)
Variable mktime : Z → Z → Z → Z → Z → Z → option Z.

(** [parse_timestamp_to_epoch(ts)] *)
Definition parse_timestamp_to_epoch (ts : option pystr) : option Z :=
  match ts with
  | None | Some [] => None
  | Some ts =>
      let ts := strip ts in
      match search DATE_ZH ts with
      | Some m =>
          let ampm := group_or_empty 4 m in
          let hh := int_group 5 m in
          let hh := if eqb_str ampm [19979; 21320]%N && (hh <? 12)
                    then hh + 12 else hh in
          let hh := if eqb_str ampm [19978; 21320]%N && (hh =? 12)
                    then 0 else hh in
          mktime (int_group 1 m) (int_group 2 m) (int_group 3 m) hh
                 (int_group 6 m) (int_group 7 m)
      | None =>
          match search DATE_ISO ts with
          | Some m2 =>
              mktime (int_group 1 m2) (int_group 2 m2) (int_group 3 m2)
                     (int_group 4 m2) (int_group 5 m2) (int_group 6 m2)
          | None => None
          end
      end
  end.

(** [while body_lines and not body_lines[0].strip(): body_lines =
    body_lines[1:]] *)
Fixpoint drop_blank_lines (body_lines : list pystr) : list pystr :=
  match body_lines with
  | l :: rest => if is_empty (strip l) then drop_blank_lines rest
                 else body_lines
  | [] => []
  end.

(** [parse_entry(block, idx)].  The keys [timestamp_raw] and [hash] of
    the dictionary are written and never read; [Entry] has no field for
    them, and of the call that computes the hash what is left is that it
    can raise. *)
Definition parse_entry (block : pystr) (idx : Z) : result (option Entry) :=
  let lines := rstrip_by (N.eqb 10) <$> split block [10%N] in
  match lines with
  | line0 :: line1 :: body_lines =>
      let title := strip_bom line0 in
      let meta := strip line1 in
      let body_lines := drop_blank_lines body_lines in
      let body := strip (join [10%N] body_lines) in
      let kind := parse_type meta in
      loc ← parse_loc meta;
      let ts_raw := parse_timestamp meta in
      let ts_epoch := parse_timestamp_to_epoch ts_raw in
      let norm := normalize_for_compare body in
      _ ← md5_utf8 norm;
      Ok (Some (make_entry idx title meta kind loc ts_epoch body))
  | _ => Ok None
  end.

(** The loop of [main] over [enumerate(blocks)], from the index [i] on. *)
Fixpoint parse_blocks (i : Z) (blocks : list pystr) : result (list Entry) :=
  match blocks with
  | [] => Ok []
  | blk :: blocks' =>
      e ← parse_entry blk i;
      parsed ← parse_blocks (i + 1) blocks';
      Ok (match e with Some e => e :: parsed | None => parsed end)
  end.

End host.

(** The keys of [by_book] and of [result] in the order in which a
    dictionary keeps them: that of their first insertion. *)
Definition books (entries : list Entry) : list pystr :=
  foldl (λ seen e, if bool_decide (title e ∈ seen) then seen
                   else seen ++ [title e]) [] entries.

(** [result.items()] after [dedup_by_book]. *)
Definition items (entries : list Entry) (time_tol clause_min_len : Z)
  : list (pystr * list Entry) :=
  (λ book, (book, default []
                    (dedup_by_book entries time_tol clause_min_len !! book)))
  <$> books entries.

(** [it['type']] *)
Definition kind_name (k : kind) : pystr :=
  match k with
  | highlight => py "highlight"
  | note => py "note"
  | bookmark => py "bookmark"
  | unknown => py "unknown"
  end.

(** What [save_md] writes for one entry, and all it writes when no
    write raises, from the items of the dictionary in order.  (The codec
    [utf-8-sig] puts a byte order mark in front of it in the file.) *)
Definition write_item (it : Entry) : pystr :=
  if negb (is_empty (body it)) then body it ++ [10; 10]%N
  else [65288%N] ++ kind_name (type it) ++ [65289; 32]%N ++ meta it
       ++ [10; 10]%N.

Definition save_md (by_book : list (pystr * list Entry)) : pystr :=
  concat ((λ '(book, its),
            py "## " ++ book ++ [10; 10]%N ++ concat (write_item <$> its))
          <$> by_book).

(** [main]: from the text of the input file to the text written to the
    output file.  Every write of [save_md] encodes what it writes, so
    the first heading or body with a surrogate makes [main] raise, after
    the writes before it.  Opening the two files and the line that
    [main] prints at the end are left out: whether they succeed is a
    matter of the host, not of the input. *)
Definition main (mktime : Z → Z → Z → Z → Z → Z → option Z)
    (content : pystr) (time_tol clause_min_len : Z) : result pystr :=
  parsed ← parse_blocks mktime 0 (split_entries content);
  let text := save_md (items parsed time_tol clause_min_len) in
  _ ← encode text;
  Ok text.

End Parser.

(** * What a pattern denotes

    [matches r s s' g g']: the pattern [r] can take a prefix of [s] and
    leave [s'], turning the groups [g] into [g'].  The matcher returns
    one of the matches of the pattern, the first in its order of
    preference. *)

Module Matches.
Import Str Re Cleaner Parser.

Definition fits (hi : option nat) (n : nat) : Prop :=
  match hi with Some h => n ≤ h | None => True end.

Fixpoint matches (r : regex) (s s' : pystr) (g g' : groups) : Prop :=
  match r with
  | Eps => s' = s ∧ g' = g
  | Chr p => ∃ c, s = c :: s' ∧ p c = true ∧ g' = g
  | Seq r1 r2 => ∃ s1 g1, matches r1 s s1 g g1 ∧ matches r2 s1 s' g1 g'
  | Alt r1 r2 => matches r1 s s' g g' ∨ matches r2 s s' g g'
  | Rep _ lo hi p =>
      ∃ u, s = u ++ s' ∧ Forall (λ c, p c = true) u
           ∧ lo ≤ length u ∧ fits hi (length u) ∧ g' = g
  | Grp n r =>
      ∃ u g1, s = u ++ s' ∧ matches r s s' g g1 ∧ g' = (n, u) :: g1
  end.

(** The groups of a pattern. *)
Fixpoint sets (r : regex) : list nat :=
  match r with
  | Eps | Chr _ | Rep _ _ _ _ => []
  | Seq r1 r2 | Alt r1 r2 => sets r1 ++ sets r2
  | Grp n r => n :: sets r
  end.

(** [a] occurs in [b]; a text of decimal digits. *)
Definition infix (a b : pystr) : Prop := ∃ u v, b = u ++ a ++ v.

Definition digits (s : pystr) : Prop := Forall (λ c, digit c = true) s.

(** A number written in [s]. *)
Definition number_in (s : pystr) (t : pystr) : Prop :=
  digits t ∧ t ≠ [] ∧ infix t s.

(** The words that stand for a kind in a metadata line, in lower case. *)
Definition kind_words (k : kind) : list pystr :=
  match k with
  | highlight => [py "highlight"; [26631; 27880]%N]
  | note => [py "note"; [31508; 35760]%N]
  | bookmark => [py "bookmark"; [20070; 31614]%N]
  | unknown => []
  end.

End Matches.

(** * Properties *)

(** ** The matcher's work list terminates

    [find_longest_match] answers inside the region it is asked about, so
    every round of [get_matching_blocks] shrinks the regions still queued
    and [blocks_fuel] rounds are always enough. *)

Module difflib_facts.
Import difflib Invariants.

Lemma j2lenget_bound alo blo i j2len j :
  j2len_ok alo blo i j2len → blo ≤ j →
  j2lenget j2len j ≤ i - alo ∧ j2lenget j2len j ≤ j - blo.
Proof.
  intros Hok Hj. destruct j as [|j']; simpl; [lia|].
  destruct (j2len !! j') as [v|] eqn:E; simpl; [|lia].
  destruct (Hok _ _ E) as (? & ? & ?). lia.
Qed.

Lemma scan_js_ok alo ahi blo bhi i j2len js newj2len best :
  alo ≤ i → i < ahi →
  j2len_ok alo blo i j2len →
  j2len_ok alo blo (S i) newj2len →
  within alo ahi blo bhi best →
  j2len_ok alo blo (S i) (scan_js i blo bhi j2len js newj2len best).1
  ∧ within alo ahi blo bhi (scan_js i blo bhi j2len js newj2len best).2.
Proof.
  intros Hi1 Hi2 Hold. revert newj2len best.
  induction js as [|j js IH]; intros newj2len best Hnew Hbest; simpl; [done|].
  destruct (j <? blo) eqn:E1; [by apply IH|].
  destruct (bhi <=? j) eqn:E2; [done|].
  apply Nat.ltb_ge in E1. apply Nat.leb_gt in E2.
  destruct (j2lenget_bound alo blo i j2len j Hold E1) as [Hk1 Hk2].
  apply IH.
  - intros j0 v. rewrite lookup_insert.
    case_decide as Hd; [|by apply Hnew].
    intros [= <-]. subst j0. lia.
  - destruct (best.2 <? j2lenget j2len j + 1); [|done].
    unfold within; simpl. lia.
Qed.

Lemma scan_rows_ok a b2j alo ahi blo bhi rows i0 st :
  alo ≤ i0 → i0 + length rows ≤ ahi → rows = seq i0 (length rows) →
  j2len_ok alo blo i0 st.1 → within alo ahi blo bhi st.2 →
  within alo ahi blo bhi (foldl (scan_i a b2j blo bhi) st rows).2.
Proof.
  revert i0 st. induction rows as [|i rows IH]; intros i0 st H1 H2 Hseq Hj Hb;
    simpl in *; [done|].
  injection Hseq as -> Hrows.
  destruct (scan_js_ok alo ahi blo bhi i0 st.1
              (match a !! i0 with Some x => default [] (b2j !! x) | None => [] end)
              ∅ st.2) as [Hj' Hb'];
    try done; try lia; try (intros j v; by rewrite lookup_empty).
  apply (IH (S i0)); try done; lia.
Qed.

Lemma extend_left_ok a b alo ahi blo bhi besti bestj bestsize :
  within alo ahi blo bhi (besti, bestj, bestsize) →
  within alo ahi blo bhi (extend_left a b alo blo besti bestj bestsize).
Proof.
  revert bestj bestsize. induction besti as [|i' IH]; intros bestj bestsize H;
    simpl; [done|].
  destruct bestj as [|j']; [done|].
  destruct (_ && _) eqn:E; [|done].
  apply andb_prop in E as [E _]. apply andb_prop in E as [E1 E2].
  apply Nat.ltb_lt in E1, E2. apply IH.
  unfold within in *; simpl in *. lia.
Qed.

Lemma extend_right_ok fuel a b alo ahi blo bhi besti bestj bestsize :
  within alo ahi blo bhi (besti, bestj, bestsize) →
  within alo ahi blo bhi (extend_right fuel a b ahi bhi besti bestj bestsize).
Proof.
  revert bestsize. induction fuel as [|fuel IH]; intros bestsize H; simpl; [done|].
  destruct (_ && _) eqn:E; [|done].
  apply andb_prop in E as [E _]. apply andb_prop in E as [E1 E2].
  apply Nat.ltb_lt in E1, E2. apply IH.
  unfold within in *; simpl in *. lia.
Qed.

(** The rounds that [find_longest_match] grants the loop to the right
    are enough: with more of them the loop ends in the same state. *)
Lemma extend_right_fuel a b ahi bhi besti bestj bestsize extra :
  extend_right (ahi - (besti + bestsize) + extra) a b ahi bhi
               besti bestj bestsize
  = extend_right (ahi - (besti + bestsize)) a b ahi bhi besti bestj bestsize.
Proof.
  remember (ahi - (besti + bestsize)) as n eqn:Hn.
  revert bestsize Hn. induction n as [|n IH]; intros bestsize Hn.
  - destruct extra as [|extra]; [done|]. simpl.
    destruct (besti + bestsize <? ahi) eqn:E; [|done].
    apply Nat.ltb_lt in E. lia.
  - simpl. destruct (_ && _); [|done]. apply IH. lia.
Qed.

Lemma find_longest_match_within a b b2j alo ahi blo bhi :
  alo ≤ ahi → blo ≤ bhi →
  within alo ahi blo bhi (find_longest_match a b b2j alo ahi blo bhi).
Proof.
  intros Ha Hb. unfold find_longest_match.
  pose proof (scan_rows_ok a b2j alo ahi blo bhi (seq alo (ahi - alo)) alo
                (∅, (alo, blo, 0))) as H.
  rewrite length_seq in H.
  destruct (foldl _ _ _).2 as [[besti bestj] bestsize].
  assert (within alo ahi blo bhi (besti, bestj, bestsize)) as H0.
  { apply H; try done; try lia; try (intros j v; by rewrite lookup_empty).
    unfold within; simpl; lia. }
  apply (extend_left_ok a b) in H0.
  destruct (extend_left _ _ _ _ _ _ _) as [[besti' bestj'] bestsize'].
  by apply extend_right_ok.
Qed.

Lemma blocks_loop_enough a b b2j fuel1 fuel2 queue acc :
  Forall region_ok queue → work queue ≤ fuel1 → work queue ≤ fuel2 →
  blocks_loop fuel1 a b b2j queue acc = blocks_loop fuel2 a b b2j queue acc.
Proof.
  revert fuel2 queue acc.
  induction fuel1 as [|fuel1 IH]; intros fuel2 queue acc Hq H1 H2.
  - destruct queue as [|[[[alo ahi] blo] bhi] queue]; simpl in *; [|lia].
    by destruct fuel2.
  - destruct queue as [|[[[alo ahi] blo] bhi] queue]; [by destruct fuel2|].
    destruct fuel2 as [|fuel2]; [simpl in H2; lia|].
    simpl. inversion Hq as [|? ? [Hr1 Hr2] Hq']; subst. simpl in *.
    pose proof (find_longest_match_within a b b2j alo ahi blo bhi Hr1 Hr2) as Hw.
    destruct (find_longest_match a b b2j alo ahi blo bhi) as [[i j] k].
    unfold within in Hw; simpl in Hw.
    destruct (k =? 0) eqn:Ek; [apply IH; [done|lia|lia]|].
    apply Nat.eqb_neq in Ek.
    destruct ((alo <? i) && (blo <? j)) eqn:El;
      destruct ((i + k <? ahi) && (j + k <? bhi)) eqn:Er;
      try (apply andb_prop in El as [El1 El2]; apply Nat.ltb_lt in El1, El2);
      try (apply andb_prop in Er as [Er1 Er2]; apply Nat.ltb_lt in Er1, Er2);
      apply IH; repeat constructor; simpl; try done; try lia.
Qed.

(** Enough fuel gives the result: more rounds than [blocks_fuel] change
    nothing. *)
Lemma get_matching_blocks_fuel a b extra :
  blocks_loop (blocks_fuel a + extra) a b (chain_b b)
              [(0, length a, 0, length b)] []
  = blocks_loop (blocks_fuel a) a b (chain_b b) [(0, length a, 0, length b)] [].
Proof.
  apply blocks_loop_enough.
  - repeat constructor; simpl; lia.
  - unfold blocks_fuel; simpl; lia.
  - unfold blocks_fuel; simpl; lia.
Qed.

End difflib_facts.

(** ** Similarity primitives and the classifier *)

Module Classifier.
Import Str Cleaner Spec Examples.

Local Open Scope Z_scope.

(** *** Location overlap *)

Lemma ranges_overlap_gap (r s : Z * Z) :
  ranges_overlap (Some r) (Some s) 8 = true ↔ gap r s ≤ 8.
Proof.
  destruct r as [a1 a2], s as [b1 b2]. unfold ranges_overlap, gap; simpl.
  rewrite negb_true_iff, orb_false_iff, !Z.ltb_ge. lia.
Qed.

(** C3, as the specification states it, fails at the ranges 100-110 and
    125-130: they are 15 units apart and, widened by 8 each, share 117
    and 118, yet the test answers false. *)
Lemma C3_each_expanded_counterexample :
  overlap_each_expanded (Some (100, 110)) (Some (125, 130))
  ∧ gap (100, 110) (125, 130) ≤ 16
  ∧ ranges_overlap (Some (100, 110)) (Some (125, 130)) 8 = false.
Proof.
  split; [|split].
  - exists (100, 110), (125, 130). repeat split.
    exists 117. unfold expand; simpl. lia.
  - unfold gap; simpl. lia.
  - reflexivity.
Qed.

(** C3 (amended): the location-overlap test is false when either entry
    lacks a location; for two located entries it is true exactly when the
    ranges are at most 8 units apart, which for ranges with start <= end
    says that one range widened by 8 on both ends meets the other. *)
Theorem ranges_overlap_spec (a b : option (Z * Z)) :
  (a = None ∨ b = None → ranges_overlap a b 8 = false)
  ∧ (∀ r s, a = Some r → b = Some s →
       (ranges_overlap a b 8 = true ↔ gap r s ≤ 8)
       ∧ (r.1 ≤ r.2 → s.1 ≤ s.2 →
          (ranges_overlap a b 8 = true ↔ intersects (expand 8 r) s))).
Proof.
  split.
  - intros [-> | ->]; [done|]. by destruct a as [[? ?]|].
  - intros r s -> ->. split; [apply ranges_overlap_gap|].
    intros Hr Hs. rewrite ranges_overlap_gap.
    destruct r as [a1 a2], s as [b1 b2]. unfold gap, intersects, expand; simpl in *.
    split.
    + intros Hg. exists (Z.max (a1 - 8) b1). lia.
    + intros [x Hx]. lia.
Qed.

(** *** Thresholds *)

Lemma ratio_ge_relax (r r' x : Q) :
  (r' <= r)%Q → Qle_bool r x = true → Qle_bool r' x = true.
Proof.
  rewrite !Qle_bool_iff. intros H1 H2. by apply Qle_trans with r.
Qed.

Lemma very_close_relax a b (r r' : Q) :
  (r' <= r)%Q → very_close a b r = true → very_close a b r' = true.
Proof.
  intros Hr. unfold very_close.
  destruct (is_empty a || is_empty b); [done|].
  destruct (Z.min (len a) (len b) <? 8); [done|].
  by apply ratio_ge_relax.
Qed.

Lemma is_subset_relax a b (m m' : Z) :
  m' ≤ m → is_subset a b m = true → is_subset a b m' = true.
Proof.
  intros Hm. unfold is_subset.
  destruct (is_empty a || is_empty b); [done|].
  destruct (Z.min (len a) (len b) <? m) eqn:E; [done|].
  apply Z.ltb_ge in E.
  destruct (Z.min (len a) (len b) <? m') eqn:E'; [|done].
  apply Z.ltb_lt in E'. lia.
Qed.

(** Clause overlap, read as the existence of a pair of clauses. *)
Lemma clause_based_match_true (A B : list pystr) (m : Z) (r : Q) :
  clause_based_match A B m r = true ↔
  ∃ ca cb, In ca A ∧ In cb B ∧ m ≤ len ca ∧ m ≤ len cb
           ∧ (contains cb ca = true ∨ contains ca cb = true
              ∨ Qle_bool r (difflib.ratio ca cb) = true).
Proof.
  unfold clause_based_match. rewrite existsb_exists. split.
  - intros (ca & Hca & H).
    destruct (len ca <? m) eqn:Ea; [done|]. apply Z.ltb_ge in Ea.
    apply existsb_exists in H as (cb & Hcb & H).
    destruct (len cb <? m) eqn:Eb; [done|]. apply Z.ltb_ge in Eb.
    exists ca, cb. repeat split; try done.
    apply orb_true_iff in H as [H|H]; [|by auto].
    apply orb_true_iff in H as [H|H]; by auto.
  - intros (ca & cb & Hca & Hcb & Ha & Hb & H).
    exists ca. split; [done|].
    apply Z.ltb_ge in Ha; rewrite Ha.
    apply existsb_exists. exists cb. split; [done|].
    apply Z.ltb_ge in Hb; rewrite Hb.
    rewrite !orb_true_iff. tauto.
Qed.

Lemma clause_based_match_relax A B m (r r' : Q) :
  (r' <= r)%Q →
  clause_based_match A B m r = true → clause_based_match A B m r' = true.
Proof.
  intros Hr. rewrite !clause_based_match_true.
  intros (ca & cb & ? & ? & ? & ? & H). exists ca, cb. repeat split; try done.
  destruct H as [H|[H|H]]; [by left|by right; left|].
  right; right. by apply ratio_ge_relax with r.
Qed.

(** *** The classifier under location overlap *)

(** C2, as the specification states it, fails at [foxes] and [boxes]:
    the bodies differ, the locations overlap, the similarity ratio 20/22
    passes the near-equality test at 0.90, and the classifier still
    answers false, because without close timestamps it tests at 0.92. *)
Lemma C2_fixed_threshold_counterexample :
  norm foxes ≠ [] ∧ norm boxes ≠ [] ∧ norm foxes ≠ norm boxes
  ∧ ranges_overlap (loc foxes) (loc boxes) 8 = true
  ∧ very_close (norm foxes) (norm boxes) 0.90 = true
  ∧ is_duplicate foxes boxes 300 12 = false.
Proof. by vm_compute. Qed.

(** C2 (amended): for two entries with differing non-empty normalized
    bodies and overlapping locations, the classifier answers true exactly
    when the clause-overlap test holds, or the subset test with floor 12
    holds, or the near-equality test holds at threshold 0.90 when the
    timestamps are close and at 0.92 when they are not. *)
Theorem is_duplicate_overlap (cur kept : Entry) (time_tol clause_min_len : Z) :
  norm cur ≠ [] → norm kept ≠ [] → norm cur ≠ norm kept →
  ranges_overlap (loc cur) (loc kept) 8 = true →
  is_duplicate cur kept time_tol clause_min_len
  = clause_based_match (clauses cur) (clauses kept) clause_min_len
      (if time_close cur kept time_tol then 0.88 else 0.92)
    || is_subset (norm cur) (norm kept) 12
    || very_close (norm cur) (norm kept)
         (if time_close cur kept time_tol then 0.90 else 0.92).
Proof.
  intros Ha Hb Hab Ho. unfold is_duplicate. rewrite Ho.
  destruct (norm cur) as [|c a] eqn:Ea; [done|].
  destruct (norm kept) as [|d b] eqn:Eb; [done|].
  simpl is_empty. simpl orb at 1.
  rewrite bool_decide_eq_false_2 by done.
  destruct (clause_based_match _ _ _ _); [done|].
  destruct (is_subset _ _ _); [done|].
  by destruct (very_close _ _ _).
Qed.

Lemma is_duplicate_overlap_witness :
  (norm foxes ≠ [] ∧ norm boxes ≠ [] ∧ norm foxes ≠ norm boxes
   ∧ ranges_overlap (loc foxes) (loc boxes) 8 = true)
  ∧ is_duplicate foxes boxes 300 12
    = clause_based_match (clauses foxes) (clauses boxes) 12
        (if time_close foxes boxes 300 then 0.88 else 0.92)
      || is_subset (norm foxes) (norm boxes) 12
      || very_close (norm foxes) (norm boxes)
           (if time_close foxes boxes 300 then 0.90 else 0.92).
Proof.
  split; [by vm_compute|].
  apply (is_duplicate_overlap foxes boxes 300 12); by vm_compute.
Defined.

(** *** Corroborating signals *)




(** *** Order of the two arguments *)

Lemma ratio_sym a b :
  difflib.matches a b = difflib.matches b a → difflib.ratio a b = difflib.ratio b a.
Proof. unfold difflib.ratio. intros ->. by rewrite Nat.add_comm. Qed.

Lemma ranges_overlap_sym a b tol : ranges_overlap a b tol = ranges_overlap b a tol.
Proof.
  destruct a as [[a1 a2]|], b as [[b1 b2]|]; try done.
  unfold ranges_overlap. by rewrite orb_comm.
Qed.

Lemma time_close_sym x y tol : time_close x y tol = time_close y x tol.
Proof.
  unfold time_close. destruct (timestamp x) as [ta|], (timestamp y) as [tb|];
    try done.
  f_equal. lia.
Qed.

Lemma is_subset_sym a b m : is_subset a b m = is_subset b a m.
Proof.
  unfold is_subset.
  by rewrite (orb_comm (is_empty a)), (Z.min_comm (len a)), (orb_comm (contains b a)).
Qed.

Lemma very_close_sym a b r :
  difflib.matches a b = difflib.matches b a → very_close a b r = very_close b a r.
Proof.
  intros H. unfold very_close.
  rewrite (orb_comm (is_empty a)), (Z.min_comm (len a)), (ratio_sym a b H).
  destruct (is_empty b || is_empty a); [done|].
  destruct (Z.min (len b) (len a) <? 8); [|done].
  apply bool_decide_ext. split; congruence.
Qed.

Lemma clause_based_match_sym A B m r :
  (∀ ca cb, In ca A → In cb B → difflib.matches ca cb = difflib.matches cb ca) →
  clause_based_match A B m r = clause_based_match B A m r.
Proof.
  intros H. apply eq_true_iff_eq. rewrite !clause_based_match_true.
  split; intros (c & d & Hc & Hd & ? & ? & Hm); exists d, c; repeat split;
    try done.
  - rewrite <- (ratio_sym c d) by auto. tauto.
  - rewrite (ratio_sym d c) by auto. tauto.
Qed.

(** C7, as the specification states it, fails at [the_ant] and
    [the_that]: the ratio is 36/39 in one order and 34/39 in the other,
    on the two sides of the clause threshold 0.92. *)
Lemma C7_is_duplicate_order_counterexample :
  is_duplicate the_ant the_that 300 12 = true
  ∧ is_duplicate the_that the_ant 300 12 = false.
Proof. by vm_compute. Qed.

(** C7 (amended): whenever the sequence matcher counts as many matching
    characters in either order, for the two normalized bodies and for
    every pair of their clauses, [is_duplicate(x, y)] and
    [is_duplicate(y, x)] are the same Boolean, for every time tolerance
    and minimum clause length. *)
Theorem is_duplicate_sym (x y : Entry) (time_tol clause_min_len : Z) :
  matcher_symmetric x y →
  is_duplicate x y time_tol clause_min_len
  = is_duplicate y x time_tol clause_min_len.
Proof.
  intros [Hn Hc]. unfold is_duplicate.
  rewrite (orb_comm (is_empty (norm x))).
  rewrite (ranges_overlap_sym (loc x)), (time_close_sym x).
  rewrite (is_subset_sym (norm x)).
  rewrite !(very_close_sym (norm x) (norm y)) by done.
  rewrite !(clause_based_match_sym (clauses x) (clauses y)) by done.
  destruct (is_empty (norm y) || is_empty (norm x)); [done|].
  rewrite (bool_decide_ext (norm x = norm y) (norm y = norm x)) by (split; congruence).
  destruct (bool_decide (norm y = norm x)); [done|].
  destruct (ranges_overlap _ _ _), (time_close _ _ _); simpl negb;
    by rewrite ?(is_subset_sym (norm x)).
Qed.

Lemma is_duplicate_sym_witness :
  matcher_symmetric foxes boxes
  ∧ is_duplicate foxes boxes 300 12 = is_duplicate boxes foxes 300 12.
Proof.
  assert (matcher_symmetric foxes boxes) as H.
  { split; [by vm_compute|].
    intros ca cb [<-|[]] [<-|[]]. by vm_compute. }
  split; [exact H|].
  exact (is_duplicate_sym foxes boxes 300 12 H).
Defined.

End Classifier.

(** ** The record splitter *)

Module Splitter.
Import Str Cleaner Spec Invariants Examples.

Lemma startswith_spec p s : startswith p s = true ↔ ∃ v, s = p ++ v.
Proof.
  revert s. induction p as [|c p IH]; intros s; simpl.
  - split; [by exists s|done].
  - destruct s as [|d s].
    + split; [done|]. by intros [v Hv].
    + rewrite andb_true_iff, N.eqb_eq, IH. split.
      * intros [-> [v ->]]. by exists v.
      * intros [v [= -> ->]]. split; [done|]. by exists v.
Qed.

Lemma contains_spec b a : contains b a = true ↔ ∃ u v, b = u ++ a ++ v.
Proof.
  induction b as [|d b IH]; simpl; rewrite orb_true_iff, startswith_spec.
  - split.
    + intros [[v Hv]|?]; [|done]. by exists [], v.
    + intros (u & v & H). left. destruct u; [by exists v|done].
  - rewrite IH. split.
    + intros [[v Hv]|(u & v & ->)]; [by exists [], v|]. by exists (d :: u), v.
    + intros (u & v & H). destruct u as [|e u].
      * left. by exists v.
      * right. injection H as -> ->. by exists u, v.
Qed.

Lemma split_go_skip sep acc u t :
  split_go sep (length u) acc (u ++ t) = split_go sep 0 acc t.
Proof. induction u as [|c u IH]; [done|]. simpl. exact IH. Qed.

Lemma split_go_nonempty sep skip acc s : split_go sep skip acc s ≠ [].
Proof.
  revert skip acc. induction s as [|c s IH]; intros skip acc; simpl; [done|].
  destruct skip; [|apply IH].
  destruct (startswith sep (c :: s)); [done|apply IH].
Qed.

Lemma join_cons sep p ps :
  ps ≠ [] → join sep (p :: ps) = p ++ sep ++ join sep ps.
Proof. by destruct ps. Qed.

Lemma length_removelast_cons (c : N) (l : pystr) :
  length (removelast (c :: l)) = length l.
Proof.
  rewrite removelast_firstn_len, length_firstn. simpl. lia.
Qed.

Lemma split_go_spec sep n : sep ≠ [] →
  ∀ s acc, length s ≤ n →
  none_before sep (length acc) (rev acc ++ s) →
  join sep (split_go sep 0 acc s) = rev acc ++ s
  ∧ segments_ok sep (split_go sep 0 acc s).
Proof.
  intros Hsep. induction n as [|n IH]; intros s acc Hn Hacc;
    (destruct s as [|c s];
     [ simpl; split; [by rewrite app_nil_r|];
       destruct (contains (rev acc) sep) eqn:E; [|done];
       apply contains_spec in E as (u & v & E);
       specialize (Hacc u v); rewrite app_nil_r in Hacc; specialize (Hacc E);
       apply (f_equal length) in E; rewrite !length_app, length_rev in E;
       destruct sep; [done|]; simpl in E; lia
     | ]).
  { simpl in Hn; lia. }
  simpl in Hn. simpl split_go.
  destruct (startswith sep (c :: s)) eqn:E.
  - apply startswith_spec in E as [v Ev].
    destruct sep as [|c0 sep']; [done|]. simpl in Ev. injection Ev as <- ->.
    replace (length (c :: sep') - 1) with (length sep') by (simpl; lia).
    rewrite split_go_skip.
    destruct (IH v []) as [Hj Hs].
    { rewrite length_app in Hn. lia. }
    { intros u w _. simpl. lia. }
    rewrite join_cons by apply split_go_nonempty. rewrite Hj. simpl.
    split; [done|].
    pose proof (split_go_nonempty (c :: sep') 0 [] v) as Hne.
    destruct (split_go (c :: sep') 0 [] v) as [|p ps] eqn:Ep; [done|].
    split; [|done].
    unfold cut_leftmost.
    destruct (contains _ _) eqn:Ec; [|done].
    apply contains_spec in Ec as (u & w & Ec).
    assert (length acc ≤ length u) as Hu.
    { apply (Hacc u (w ++ [List.last (c :: sep') c] ++ v)).
      change (c :: sep' ++ v) with ((c :: sep') ++ v).
      rewrite (app_removelast_last (l:=c :: sep') c) at 1 by done.
      rewrite <- !app_assoc. rewrite (app_assoc (rev acc)), Ec.
      by rewrite <- !app_assoc. }
    apply (f_equal length) in Ec.
    rewrite !length_app, length_rev, length_removelast_cons in Ec.
    simpl in Ec. lia.
  - destruct (IH s (c :: acc)) as [Hj Hs]; [lia| |].
    + intros u v Huv. simpl in Huv. rewrite <- app_assoc in Huv. simpl in Huv.
      pose proof (Hacc u v Huv) as Hle. simpl.
      destruct (decide (length u = length acc)) as [Heq|]; [|lia].
      apply app_inj_1 in Huv as [_ Huv]; [|by rewrite length_rev].
      assert (startswith sep (c :: s) = true) as E'
        by (apply startswith_spec; by exists v).
      congruence.
    + simpl in Hj. rewrite <- app_assoc in Hj. done.
Qed.

(** [str.split] cuts at leftmost separators, and joining gives the
    string back. *)
Lemma split_spec s sep : sep ≠ [] →
  join sep (split s sep) = s ∧ segments_ok sep (split s sep).
Proof.
  intros Hsep. apply (split_go_spec sep (length s) Hsep s []); [done|].
  intros u v _. simpl. lia.
Qed.

(** A separator that starts inside a segment and runs into the next
    separator contradicts [cut_leftmost]. *)
Lemma startswith_in_segment sep (pre q tail : pystr) :
  q ≠ [] → startswith sep (q ++ sep ++ tail) = true →
  contains (pre ++ q ++ removelast sep) sep = true.
Proof.
  intros Hq H. apply startswith_spec in H as [v Hv].
  destruct sep as [|c sep']; [by destruct pre, q|].
  apply contains_spec.
  exists pre, (drop (length (c :: sep')) (q ++ removelast (c :: sep'))).
  f_equal.
  assert (length (c :: sep') ≤ length (q ++ removelast (c :: sep'))) as Hl.
  { rewrite length_app, length_removelast_cons. destruct q; [done|]. simpl; lia. }
  rewrite <- (take_drop (length (c :: sep')) (q ++ removelast (c :: sep'))) at 1.
  f_equal.
  assert (take (length (c :: sep')) ((q ++ removelast (c :: sep'))
             ++ [List.last (c :: sep') c] ++ tail) = c :: sep') as Ht.
  { rewrite <- app_assoc, (app_assoc (removelast _)).
    rewrite <- (app_removelast_last (l:=c :: sep') c) by done.
    rewrite Hv. by rewrite take_app_length. }
  rewrite take_app_le in Ht by done. exact Ht.
Qed.

Lemma split_go_cons sep acc c s :
  split_go sep 0 acc (c :: s)
  = if startswith sep (c :: s)
    then rev acc :: split_go sep (length sep - 1) [] s
    else split_go sep 0 (c :: acc) s.
Proof. done. Qed.

Lemma split_go_found sep acc v : sep ≠ [] →
  split_go sep 0 acc (sep ++ v) = rev acc :: split_go sep 0 [] v.
Proof.
  intros Hsep.
  assert (startswith sep (sep ++ v) = true) as E
    by (apply startswith_spec; by exists v).
  destruct sep as [|c0 sep']; [done|].
  simpl in E |- *. rewrite E. f_equal.
  rewrite Nat.sub_0_r. apply split_go_skip.
Qed.

Lemma split_go_unique sep : sep ≠ [] →
  ∀ rest q acc, segments_ok sep ((rev acc ++ q) :: rest) →
  split_go sep 0 acc (join sep (q :: rest)) = (rev acc ++ q) :: rest.
Proof.
  intros Hsep. induction rest as [|r rs IHrest]; intros q;
    induction q as [|c q IHq]; intros acc Hok.
  - simpl. by rewrite app_nil_r.
  - simpl in *. destruct (startswith sep (c :: q)) eqn:E.
    + assert (contains (rev acc ++ c :: q) sep = true) as E'; [|congruence].
      apply startswith_spec in E as [v ->]. apply contains_spec.
      by exists (rev acc), v.
    + assert (rev (c :: acc) ++ q = rev acc ++ c :: q) as Hr
        by (simpl; by rewrite <- app_assoc).
      rewrite (IHq (c :: acc)); by rewrite Hr.
  - destruct Hok as [_ Hok]. rewrite join_cons by done. simpl app at 1.
    rewrite split_go_found by done. rewrite app_nil_r. f_equal.
    by apply (IHrest r []).
  - rewrite join_cons by done.
    change ((c :: q) ++ sep ++ join sep (r :: rs))
      with (c :: (q ++ sep ++ join sep (r :: rs))).
    rewrite split_go_cons.
    destruct (startswith sep (c :: q ++ sep ++ join sep (r :: rs))) eqn:E.
    + destruct Hok as [Hok _]. unfold cut_leftmost in Hok.
      rewrite <- app_assoc in Hok.
      rewrite (startswith_in_segment sep (rev acc) (c :: q) (join sep (r :: rs)))
        in Hok; [done|done|exact E].
    + rewrite <- join_cons by done.
      assert (rev (c :: acc) ++ q = rev acc ++ c :: q) as Hr
        by (simpl; by rewrite <- app_assoc).
      rewrite (IHq (c :: acc)); by rewrite Hr.
Qed.

Lemma split_unique s sep segments : sep ≠ [] →
  join sep segments = s → segments_ok sep segments → split s sep = segments.
Proof.
  intros Hsep <- Hok. destruct segments as [|q rest]; [done|].
  by apply (split_go_unique sep Hsep rest q []).
Qed.

(** C4, as the specification states it, fails at [hyphen_export]: the
    segments between the ten-hyphen markers are two, and
    [split_entries] returns the whole content as one block. *)
Lemma C4_hyphen_marker_counterexample :
  join HYPHENS hyphen_segments = hyphen_export
  ∧ segments_ok HYPHENS hyphen_segments
  ∧ length (trimmed_nonempty hyphen_segments) = 2
  ∧ split_entries hyphen_export = [strip hyphen_export].
Proof. by vm_compute. Qed.

(** C4 (amended): [split_entries] splits the content on the literal of
    ten equals signs (wherever it occurs, leftmost occurrence first) and
    trims each piece: for every input the content is, in exactly one way,
    a sequence of segments joined by that marker and cut at its leftmost
    occurrences, and the blocks returned are the trimmed non-empty
    segments, in order. *)
Theorem split_entries_spec (content : pystr) :
  (∃ segments, join SEPARATOR segments = content
               ∧ segments_ok SEPARATOR segments)
  ∧ (∀ segments, join SEPARATOR segments = content →
       segments_ok SEPARATOR segments →
       split_entries content = trimmed_nonempty segments).
Proof.
  assert (SEPARATOR ≠ []) as Hsep by done.
  split.
  - exists (split content SEPARATOR). by apply split_spec.
  - intros segments Hj Hok. unfold split_entries, trimmed_nonempty.
    by rewrite (split_unique content SEPARATOR segments Hsep Hj Hok).
Qed.

End Splitter.

(** ** Sorting *)

Module Sorting.
Import Spec Invariants.

Section pairwise.
Context {A : Type} (R : A → A → Prop).

Lemma Pairwise_app l1 l2 :
  Pairwise R (l1 ++ l2) ↔
  Pairwise R l1 ∧ Pairwise R l2 ∧ ∀ x y, x ∈ l1 → y ∈ l2 → R x y.
Proof.
  induction l1 as [|a l1 IH]; simpl.
  - split; [|tauto]. intros H. split; [done|split; [done|]].
    intros x y Hx. by apply elem_of_nil in Hx.
  - rewrite Forall_app, IH. split.
    + intros [[H1 H2] (H3 & H4 & H5)]. repeat split; try done.
      intros x y [->|Hx]%elem_of_cons Hy; [|by apply H5].
      by apply (proj1 (Forall_forall _ _) H2).
    + intros ((H1 & H2) & H3 & H4). repeat split; try done.
      * apply Forall_forall. intros y Hy. apply H4; [by left|done].
      * intros x y Hx Hy. apply H4; [by right|done].
Qed.

Lemma Pairwise_snoc l x :
  Pairwise R (l ++ [x]) ↔ Pairwise R l ∧ Forall (λ k, R k x) l.
Proof.
  rewrite Pairwise_app. split.
  - intros (H1 & _ & H2). split; [done|]. apply Forall_forall.
    intros k Hk. apply H2; [done|by left].
  - intros [H1 H2]. split; [done|]. split; [by simpl|].
    intros k y Hk ->%list_elem_of_singleton.
    by apply (proj1 (Forall_forall _ _) H2).
Qed.

Lemma Pairwise_impl (R' : A → A → Prop) l :
  (∀ x y, x ∈ l → y ∈ l → R x y → R' x y) → Pairwise R l → Pairwise R' l.
Proof.
  induction l as [|a l IH]; intros H; simpl; [done|].
  intros [Ha Hl]. split.
  - apply Forall_forall. intros y Hy. apply H; [by left|by right|].
    by apply (proj1 (Forall_forall _ _) Ha).
  - apply IH; [|done]. intros x y Hx Hy. apply H; by right.
Qed.

Lemma Pairwise_perm l l' :
  (∀ x y, R x y → R y x) → l ≡ₚ l' → Pairwise R l → Pairwise R l'.
Proof.
  intros Hsym Hp. induction Hp as [|x l l' Hp IH|x y l|l l' l'' Hp1 IH1 Hp2 IH2];
    simpl; try tauto.
  - intros [H1 H2]. split; [by rewrite <- Hp|by apply IH].
  - intros [H1 [H2 H3]]. inversion H1 as [|? ? Hyx Hy]; subst.
    repeat split; try done. constructor; [by apply Hsym|done].
Qed.

End pairwise.

(** *** Insertion sort for an order given by [lt] *)

Section sort.
Context {A : Type} (lt : A → A → bool).

Hypothesis lt_asym : ∀ x y, lt x y = true → lt y x = false.
Hypothesis le_trans : ∀ x y z, sorted_le lt x y → sorted_le lt y z → sorted_le lt x z.

Lemma insert_sorted_perm x l : insert_sorted lt x l ≡ₚ x :: l.
Proof.
  induction l as [|y l IH]; simpl; [done|].
  destruct (lt x y); [done|]. rewrite IH. apply Permutation_swap.
Qed.

Lemma py_sort_acc_perm acc l :
  foldl (λ acc x, insert_sorted lt x acc) acc l ≡ₚ acc ++ l.
Proof.
  revert acc. induction l as [|x l IH]; intros acc; simpl.
  - by rewrite app_nil_r.
  - rewrite IH, insert_sorted_perm. simpl. apply Permutation_middle.
Qed.

Lemma py_sort_perm l : py_sort lt l ≡ₚ l.
Proof. apply py_sort_acc_perm. Qed.

Lemma insert_sorted_sorted x l :
  Pairwise (sorted_le lt) l → Pairwise (sorted_le lt) (insert_sorted lt x l).
Proof.
  induction l as [|y l IH]; simpl; [done|]. intros [Hy Hl].
  destruct (lt x y) eqn:E; simpl.
  - repeat split; try done. constructor; [by apply lt_asym|].
    eapply Forall_impl; [exact Hy|]. intros z Hz.
    apply le_trans with y; [by apply lt_asym|done].
  - split; [|by apply IH].
    rewrite insert_sorted_perm. by constructor.
Qed.

Lemma py_sort_sorted l : Pairwise (sorted_le lt) (py_sort lt l).
Proof.
  unfold py_sort. assert (Pairwise (sorted_le lt) []) as H by done. revert H.
  generalize (@nil A). induction l as [|x l IH]; intros acc Hacc; simpl; [done|].
  apply IH. by apply insert_sorted_sorted.
Qed.

(** Two sorted arrangements of the same elements coincide when no two
    elements tie. *)
Lemma sorted_unique l1 l2 :
  (∀ x y, x ∈ l1 → y ∈ l1 → sorted_le lt x y → sorted_le lt y x → x = y) →
  Pairwise (sorted_le lt) l1 → Pairwise (sorted_le lt) l2 → l1 ≡ₚ l2 → l1 = l2.
Proof.
  revert l2. induction l1 as [|x l1 IH]; intros l2 Hanti H1 H2 Hp.
  - by apply Permutation_nil_l in Hp.
  - destruct l2 as [|y l2]; [by apply Permutation_nil_r in Hp|].
    destruct H1 as [Hx H1], H2 as [Hy H2].
    assert (x = y) as ->.
    { assert (x ∈ y :: l2) as Hin by (rewrite <- Hp; by left).
      assert (y ∈ x :: l1) as Hin' by (rewrite Hp; by left).
      apply elem_of_cons in Hin as [?|Hin]; [done|].
      apply elem_of_cons in Hin' as [?|Hin']; [done|].
      apply Hanti; [by left|by right| |].
      - by apply (proj1 (Forall_forall _ _) Hx).
      - by apply (proj1 (Forall_forall _ _) Hy). }
    f_equal. apply IH; try done.
    + intros a b Ha Hb. apply Hanti; by right.
    + by apply Permutation_cons_inv in Hp.
Qed.

Lemma py_sort_perm_eq l l' :
  (∀ x y, x ∈ l → y ∈ l → sorted_le lt x y → sorted_le lt y x → x = y) →
  l ≡ₚ l' → py_sort lt l = py_sort lt l'.
Proof.
  intros Hanti Hp. apply sorted_unique; try apply py_sort_sorted.
  - intros x y Hx Hy. rewrite py_sort_perm in Hx, Hy. by apply Hanti.
  - by rewrite !py_sort_perm.
Qed.

End sort.

(** *** The order of tuples *)

Lemma tuple_lt_irrefl s : tuple_lt s s = false.
Proof.
  induction s as [|x s IH]; simpl; [done|].
  by rewrite Z.ltb_irrefl, Z.eqb_refl, IH.
Qed.

Lemma tuple_lt_trans s t u :
  tuple_lt s t = true → tuple_lt t u = true → tuple_lt s u = true.
Proof.
  revert t u. induction s as [|x s IH]; intros [|y t] [|z u]; simpl; try done.
  rewrite !orb_true_iff, !andb_true_iff, !Z.ltb_lt, !Z.eqb_eq.
  intros [?|[? H1]] [?|[? H2]]; try (left; lia).
  right. split; [lia|]. by apply (IH t u).
Qed.

Lemma tuple_lt_total s t :
  tuple_lt s t = false → tuple_lt t s = false → s = t.
Proof.
  revert t. induction s as [|x s IH]; intros [|y t]; simpl; try done.
  rewrite !orb_false_iff, !andb_false_iff, !Z.ltb_ge, !Z.eqb_neq.
  intros [? [?|H1]] [? [?|H2]]; try lia.
  assert (x = y) as -> by lia. f_equal. by apply IH.
Qed.

Lemma tuple_lt_asym s t : tuple_lt s t = true → tuple_lt t s = false.
Proof.
  intros H. destruct (tuple_lt t s) eqn:E; [|done].
  by rewrite <- (tuple_lt_irrefl s), <- (tuple_lt_trans s t s H E).
Qed.

Lemma tuple_le_trans s t u :
  tuple_lt t s = false → tuple_lt u t = false → tuple_lt u s = false.
Proof.
  intros H1 H2. destruct (tuple_lt u s) eqn:E; [|done].
  destruct (tuple_lt s t) eqn:E1.
  - by rewrite (tuple_lt_trans u s t E E1) in H2.
  - rewrite (tuple_lt_total s t E1 H1) in E. congruence.
Qed.

End Sorting.

(** ** Grouping, retention and ordering *)

Module Dedup.
Import Str Cleaner Spec Invariants Examples Sorting.

(** *** Grouping by title *)

Lemma entries_of_app t l1 l2 :
  entries_of t (l1 ++ l2) = entries_of t l1 ++ entries_of t l2.
Proof. apply filter_app. Qed.

Lemma by_book_lookup (entries : list Entry) (m : gmap pystr (list Entry))
    (t : pystr) :
  foldl by_book_append m entries !! t
  = match entries_of t entries with
    | [] => m !! t
    | es => Some (default [] (m !! t) ++ es)
    end.
Proof.
  revert m. induction entries as [|e entries IH]; intros m; simpl; [done|].
  rewrite IH. unfold entries_of. rewrite filter_cons.
  unfold by_book_append at 1 2. rewrite !lookup_insert.
  destruct (decide (title e = t)) as [->|Hne].
  - destruct (filter _ entries); simpl; [done|]. by rewrite <- app_assoc.
  - done.
Qed.

Lemma dedup_by_book_lookup (entries : list Entry) tol m (t : pystr) :
  dedup_by_book entries tol m !! t
  = match entries_of t entries with
    | [] => None
    | es => Some (dedup_book tol m es)
    end.
Proof.
  unfold dedup_by_book. rewrite lookup_fmap, by_book_lookup, lookup_empty.
  by destruct (entries_of t entries).
Qed.

Lemma kept_of_dedup (entries : list Entry) tol m (t : pystr) :
  kept_of t (dedup_by_book entries tol m)
  = dedup_book tol m (entries_of t entries).
Proof.
  unfold kept_of. rewrite dedup_by_book_lookup.
  by destruct (entries_of t entries).
Qed.

(** *** The three running lists are scanned independently *)

Lemma retain_kept_in tol m st cur b :
  kept_in b (retain tol m st cur)
  = if decide (selects b cur)
    then if existsb (dup_of tol m b cur) (kept_in b st)
         then kept_in b st else kept_in b st ++ [cur]
    else kept_in b st.
Proof.
  unfold retain. destruct (decide (selects b cur)) as [[Hn Hb]|Hno].
  - unfold nonblank in Hn. apply negb_true_iff in Hn. rewrite Hn.
    destruct (type cur), b; try done; cbv [dup_of]; simpl;
      match goal with |- context [existsb ?f ?l] => by destruct (existsb f l) end.
  - destruct (is_empty (body cur) || is_empty (strip (body cur))) eqn:E; [done|].
    assert (bucket_of (type cur) ≠ b) as Hb.
    { intros Hb. apply Hno. split; [|done]. unfold nonblank. by rewrite E. }
    destruct (type cur), b; simpl in *; try done;
      match goal with |- context [existsb ?f ?l] => by destruct (existsb f l) end.
Qed.

Lemma scan_kept_in tol m b l st :
  kept_in b (foldl (retain tol m) st l)
  = keep_fold (dup_of tol m b) (kept_in b st) (filter (selects b) l).
Proof.
  revert st. induction l as [|cur l IH]; intros st; simpl; [done|].
  rewrite IH, retain_kept_in, filter_cons.
  by destruct (decide (selects b cur)).
Qed.

Lemma filter_rev {A} (P : A → Prop) `{∀ x, Decision (P x)} (l : list A) :
  filter P (rev l) = rev (filter P l).
Proof.
  induction l as [|x l IH]; simpl; [done|].
  rewrite filter_app, IH, filter_cons.
  destruct (decide (P x)); simpl.
  - by rewrite filter_cons, decide_True by done.
  - rewrite filter_cons, decide_False by done. by rewrite app_nil_r.
Qed.

Lemma scan_book_kept_in tol m b es :
  kept_in b (scan_book tol m es) = kept_bucket tol m b es.
Proof. unfold scan_book. rewrite scan_kept_in. by destruct b. Qed.

Lemma dedup_book_buckets tol m es :
  dedup_book tol m es
  = py_sort key_lt (kept_bucket tol m Bh es)
    ++ py_sort key_lt (kept_bucket tol m Bn es)
    ++ py_sort key_lt (kept_bucket tol m Bb es).
Proof.
  unfold dedup_book.
  by rewrite <- !scan_book_kept_in.
Qed.

(** *** One running list *)

Section keep_fold.
Context (dup : Entry → Entry → bool).

Lemma keep_fold_Forall (P : Entry → Prop) kept l :
  Forall P kept → Forall P l → Forall P (keep_fold dup kept l).
Proof.
  revert kept. induction l as [|x l IH]; intros kept Hk Hl; simpl; [done|].
  inversion Hl; subst. apply IH; [|done].
  destruct (existsb (dup x) kept); [done|].
  apply Forall_app. by split; [|constructor].
Qed.

Lemma keep_fold_pairwise (P : Entry → Prop) (R : Entry → Entry → Prop) kept l :
  (∀ c k, P c → P k → dup c k = false → R k c) →
  Forall P kept → Forall P l →
  Pairwise R kept → Pairwise R (keep_fold dup kept l).
Proof.
  intros HR. revert kept. induction l as [|x l IH]; intros kept Hk Hl Hp;
    simpl; [done|].
  inversion Hl; subst.
  destruct (existsb (dup x) kept) eqn:E; [by apply IH|].
  apply IH; [by apply Forall_app; split; [|constructor]|done|].
  apply Pairwise_snoc. split; [done|].
  apply Forall_forall. intros k Hk'. apply HR; try done.
  - by apply (proj1 (Forall_forall _ _) Hk).
  - destruct (dup x k) eqn:Ed; [|done].
    assert (existsb (dup x) kept = true) as E'; [|congruence].
    apply existsb_exists. exists k. split; [|done]. by apply list_elem_of_In.
Qed.

(** Nothing is dropped from a list whose elements do not reject one
    another. *)
Lemma keep_fold_all kept l :
  Pairwise (λ k c, dup c k = false) (kept ++ l) →
  keep_fold dup kept l = kept ++ l.
Proof.
  revert kept. induction l as [|x l IH]; intros kept Hp; simpl.
  - by rewrite app_nil_r.
  - assert (existsb (dup x) kept = false) as ->.
    { apply Pairwise_app in Hp as (_ & _ & Hp).
      destruct (existsb (dup x) kept) eqn:E; [|done].
      apply existsb_exists in E as (k & Hk & E).
      rewrite (Hp k x) in E; [done|by apply list_elem_of_In|by left]. }
    rewrite IH; rewrite <- app_assoc; done.
Qed.

End keep_fold.

Lemma kept_bucket_selects tol m b es :
  Forall (λ e, selects b e ∧ e ∈ es) (kept_bucket tol m b es).
Proof.
  apply keep_fold_Forall; [done|]. apply Forall_forall. intros e He.
  apply list_elem_of_filter in He as [He1 He2]. split; [done|].
  by apply list_elem_of_In, in_rev, list_elem_of_In.
Qed.

Lemma filter_all {A} (P : A → Prop) `{∀ x, Decision (P x)} (l : list A) :
  Forall P l → filter P l = l.
Proof.
  induction 1 as [|x l Hx Hl IH]; [done|].
  by rewrite filter_cons, decide_True, IH by done.
Qed.

Lemma filter_none {A} (P : A → Prop) `{∀ x, Decision (P x)} (l : list A) :
  Forall (λ x, ¬ P x) l → filter P l = [].
Proof.
  induction 1 as [|x l Hx Hl IH]; [done|].
  by rewrite filter_cons, decide_False, IH by done.
Qed.

Lemma py_sort_Forall {A} (lt : A → A → bool) (P : A → Prop) l :
  Forall P l → Forall P (py_sort lt l).
Proof. intros H. by rewrite py_sort_perm. Qed.

Lemma kept_bucket_sorted_bucket tol m b es :
  Forall (λ e, selects b e ∧ e ∈ es) (py_sort key_lt (kept_bucket tol m b es)).
Proof. apply py_sort_Forall, kept_bucket_selects. Qed.

(** *** C10: a document of blank entries *)

Lemma kept_bucket_blank tol m b es :
  Forall (λ e, strip (body e) = []) es → kept_bucket tol m b es = [].
Proof.
  intros H. unfold kept_bucket. rewrite filter_none; [done|].
  apply Forall_forall. intros e He [Hn _].
  apply list_elem_of_In, in_rev, list_elem_of_In in He.
  apply (proj1 (Forall_forall _ _) H) in He.
  unfold nonblank in Hn. rewrite He in Hn. simpl in Hn.
  by rewrite orb_true_r in Hn.
Qed.

(** C10: a document all of whose entries have an empty or
    whitespace-only body is a key of the mapping that [dedup_by_book]
    returns, mapped to the empty sequence. *)
Theorem blank_document_kept_empty (entries : list Entry) (time_tol clause_min_len : Z)
    (t : pystr) :
  (∃ e, e ∈ entries ∧ title e = t) →
  (∀ e, e ∈ entries → title e = t → strip (body e) = []) →
  dedup_by_book entries time_tol clause_min_len !! t = Some [].
Proof.
  intros (e & He & Ht) Hblank. rewrite dedup_by_book_lookup.
  assert (e ∈ entries_of t entries) as Hin by (by apply list_elem_of_filter).
  assert (Forall (λ e, strip (body e) = []) (entries_of t entries)) as Hes.
  { apply Forall_forall. intros x [Hx1 Hx2]%list_elem_of_filter. by apply Hblank. }
  destruct (entries_of t entries) as [|x es] eqn:E; [by apply elem_of_nil in Hin|].
  rewrite dedup_book_buckets, !kept_bucket_blank by done. done.
Qed.

Lemma blank_document_kept_empty_witness :
  ((∃ e, e ∈ [blank_bookmark; blank_highlight] ∧ title e = py "Fables")
   ∧ (∀ e, e ∈ [blank_bookmark; blank_highlight] → title e = py "Fables" →
      strip (body e) = []))
  ∧ dedup_by_book [blank_bookmark; blank_highlight] 300 12 !! py "Fables"
    = Some [].
Proof.
  assert (∃ e, e ∈ [blank_bookmark; blank_highlight] ∧ title e = py "Fables")
    as H1 by (exists blank_bookmark; split; [by left|done]).
  assert (∀ e, e ∈ [blank_bookmark; blank_highlight] → title e = py "Fables" →
          strip (body e) = []) as H2.
  { intros e He _. apply elem_of_cons in He as [->|He]; [done|].
    apply list_elem_of_singleton in He as ->. done. }
  split; [by split|].
  exact (blank_document_kept_empty [blank_bookmark; blank_highlight] 300 12
           (py "Fables") H1 H2).
Defined.

(** *** C5: the buckets of the scan *)

Lemma kept_bucket_filter tol m b b' es :
  kept_bucket tol m b' (filter (λ e, bucket_of (type e) = b) es)
  = if decide (b' = b) then kept_bucket tol m b' es else [].
Proof.
  unfold kept_bucket. rewrite !filter_rev, list_filter_filter.
  destruct (decide (b' = b)) as [->|Hne].
  - f_equal. f_equal. apply list_filter_iff. intros e. unfold selects. tauto.
  - rewrite filter_none; [done|]. apply Forall_forall.
    intros e _ [[_ H1] H2]. congruence.
Qed.

Lemma sorted_bucket_filter tol m b b' es :
  filter (λ e, bucket_of (type e) = b) (py_sort key_lt (kept_bucket tol m b' es))
  = if decide (b' = b) then py_sort key_lt (kept_bucket tol m b' es) else [].
Proof.
  pose proof (kept_bucket_sorted_bucket tol m b' es) as H.
  destruct (decide (b' = b)) as [->|Hne].
  - apply filter_all. eapply Forall_impl; [exact H|]. by intros e [[_ ?] _].
  - apply filter_none. eapply Forall_impl; [exact H|].
    intros e [[_ ?] _]. congruence.
Qed.

(** C5, as the specification states it, fails at [stray] and [marked]:
    the entry of kind [unknown] is kept when it is alone, and next to the
    highlight it is classified against the kept highlight and dropped. *)
Lemma C5_unknown_meets_highlight_counterexample :
  type stray = unknown ∧ type marked = highlight
  ∧ kept_of (py "Fables") (dedup_by_book [stray] 300 12) = [stray]
  ∧ kept_of (py "Fables") (dedup_by_book [stray; marked] 300 12) = [marked].
Proof. by vm_compute. Qed.

(** C5 (amended): during deduplication every entry is processed in
    exactly one (document title, running list) bucket, the running lists
    being highlights together with unknowns, notes, and bookmarks: what a
    document keeps of one running list is what [dedup_by_book] keeps of
    the entries of that document and that list alone, so a candidate is
    tested only against kept entries of its own document and list; every
    kept entry carries the title it is stored under. *)
Theorem bucket_isolation (entries : list Entry) (time_tol clause_min_len : Z)
    (t : pystr) (b : bucket) :
  filter (λ e, bucket_of (type e) = b)
         (kept_of t (dedup_by_book entries time_tol clause_min_len))
  = dedup_book time_tol clause_min_len
      (filter (λ e, title e = t ∧ bucket_of (type e) = b) entries)
  ∧ Forall (λ e, title e = t)
           (kept_of t (dedup_by_book entries time_tol clause_min_len)).
Proof.
  rewrite kept_of_dedup. split.
  - assert (filter (λ e, title e = t ∧ bucket_of (type e) = b) entries
            = filter (λ e, bucket_of (type e) = b) (entries_of t entries)) as ->.
    { unfold entries_of. rewrite list_filter_filter.
      apply list_filter_iff. intros e. tauto. }
    rewrite !dedup_book_buckets, !filter_app, !sorted_bucket_filter,
      !kept_bucket_filter.
    destruct b; simpl; by rewrite ?app_nil_r.
  - rewrite dedup_book_buckets, !Forall_app. repeat split;
      (eapply Forall_impl; [apply kept_bucket_sorted_bucket|]);
      intros e [_ He]; by apply list_elem_of_filter in He as [? _].
Qed.

(** *** C6: exact duplicates *)

Lemma distinct_text_sym x y : distinct_text x y → distinct_text y x.
Proof.
  unfold distinct_text, collapsible. intros H (Ht & Hn & Hc). apply H.
  rewrite <- Ht, <- Hn. tauto.
Qed.

Lemma is_duplicate_exact cur k tol m :
  norm cur = norm k → norm cur ≠ [] → is_duplicate cur k tol m = true.
Proof.
  intros Heq Hne. unfold is_duplicate. rewrite <- Heq.
  destruct (norm cur); [done|]. simpl. by rewrite bool_decide_eq_true_2.
Qed.

Lemma dup_of_distinct tol m b c k :
  selects b c → selects b k → dup_of tol m b c k = false → distinct_text k c.
Proof.
  intros [_ Hc] [_ Hk] Hd (Ht & Hn & Hcol). destruct b; simpl in Hd.
  - destruct Hcol as [Hcol|[_ Hne]].
    + rewrite Hcol in Hk. done.
    + rewrite is_duplicate_exact in Hd; [done|done|by rewrite <- Hn].
  - apply bool_decide_eq_false in Hd. by apply Hd.
  - destruct Hcol as [Hcol|[[Hcol|Hcol] _]]; rewrite Hcol in Hk; done.
Qed.

Lemma kept_bucket_distinct tol m b es :
  Pairwise distinct_text (py_sort key_lt (kept_bucket tol m b es)).
Proof.
  apply Pairwise_perm with (kept_bucket tol m b es);
    [apply distinct_text_sym|by rewrite py_sort_perm|].
  unfold kept_bucket.
  apply keep_fold_pairwise with (P := selects b); try done.
  - intros c k. apply dup_of_distinct.
  - apply Forall_forall. by intros e [He _]%list_elem_of_filter.
Qed.

Lemma across_buckets_distinct b b' x y :
  b ≠ b' → selects b x → selects b' y → distinct_text x y.
Proof.
  intros Hne [_ Hx] [_ Hy] (Ht & _). rewrite Ht in Hx. congruence.
Qed.

Lemma dedup_book_distinct tol m es :
  Pairwise distinct_text (dedup_book tol m es).
Proof.
  rewrite dedup_book_buckets.
  pose proof (kept_bucket_sorted_bucket tol m Bh es) as Hh.
  pose proof (kept_bucket_sorted_bucket tol m Bn es) as Hn.
  pose proof (kept_bucket_sorted_bucket tol m Bb es) as Hb.
  rewrite Forall_forall in Hh, Hn, Hb.
  apply Pairwise_app. split; [apply kept_bucket_distinct|]. split.
  - apply Pairwise_app. split; [apply kept_bucket_distinct|].
    split; [apply kept_bucket_distinct|].
    intros x y Hx Hy. apply (across_buckets_distinct Bn Bb); try done.
    + by apply Hn.
    + by apply Hb.
  - intros x y Hx [Hy|Hy]%elem_of_app.
    + apply (across_buckets_distinct Bh Bn); try done; [by apply Hh|by apply Hn].
    + apply (across_buckets_distinct Bh Bb); try done; [by apply Hh|by apply Hb].
Qed.

(** C6, as the specification states it, fails at [dots_early] and
    [dots_late]: same document, same kind, identical normalized bodies,
    and both survive, because the classifier answers false as soon as a
    normalized body is empty.  It fails as well at the bookmarks
    [moral_early] and [moral_late], which are compared by their metadata
    lines. *)
Lemma C6_empty_norm_counterexample :
  (title dots_early = title dots_late ∧ type dots_early = type dots_late
   ∧ norm dots_early = norm dots_late
   ∧ kept_of (py "Fables") (dedup_by_book [dots_early; dots_late] 300 12)
     = [dots_early; dots_late])
  ∧ (title moral_early = title moral_late
     ∧ type moral_early = type moral_late
     ∧ norm moral_early = norm moral_late
     ∧ kept_of (py "Fables") (dedup_by_book [moral_early; moral_late] 300 12)
       = [moral_early; moral_late]).
Proof. by vm_compute. Qed.

Lemma Pairwise_filter {A} (R : A → A → Prop) (P : A → Prop)
    `{∀ x, Decision (P x)} (l : list A) :
  Pairwise R l → Pairwise R (filter P l).
Proof.
  induction l as [|x l IH]; [done|]. intros [Hx Hl].
  rewrite filter_cons. destruct (decide (P x)); [|by apply IH].
  split; [|by apply IH]. apply Forall_forall.
  intros y [_ Hy]%list_elem_of_filter.
  by apply (proj1 (Forall_forall _ _) Hx).
Qed.

(** C6 (amended): of the entries of one document with the same kind and
    identical normalized bodies at most one survives deduplication,
    whatever their location and timestamp fields, when the kind is note,
    or when it is highlight or unknown and the normalized body is not
    empty. *)
Theorem exact_duplicates_collapse (entries : list Entry)
    (time_tol clause_min_len : Z) (t : pystr) (k : kind) (n : pystr) :
  k = note ∨ ((k = highlight ∨ k = unknown) ∧ n ≠ []) →
  length (filter (λ e, type e = k ∧ norm e = n)
                 (kept_of t (dedup_by_book entries time_tol clause_min_len)))
  ≤ 1.
Proof.
  rewrite kept_of_dedup. intros Hc.
  pose proof (Pairwise_filter _ (λ e, type e = k ∧ norm e = n) _
                (dedup_book_distinct time_tol clause_min_len
                   (entries_of t entries))) as Hp.
  pose proof (Forall_forall (λ e, type e = k ∧ norm e = n)
                (filter (λ e, type e = k ∧ norm e = n)
                   (dedup_book time_tol clause_min_len (entries_of t entries))))
    as [_ Hall].
  specialize (Hall (λ e He, proj1 (proj1 (list_elem_of_filter _ _ _) He))).
  destruct (filter _ _) as [|x [|y l]]; simpl; [lia|lia|].
  destruct Hp as [Hxy _]. inversion Hxy as [|? ? Hd _]; subst.
  inversion Hall as [|? ? [Hx1 Hx2] Hall']; subst.
  inversion Hall' as [|? ? [Hy1 Hy2] _]; subst.
  destruct Hd. unfold collapsible. by rewrite Hy1, Hy2.
Qed.

Lemma exact_duplicates_collapse_witness :
  (highlight = note
   ∨ (highlight = highlight ∨ highlight = unknown) ∧ norm foxes_twice.1 ≠ [])
  ∧ length (filter (λ e, type e = highlight ∧ norm e = norm foxes_twice.1)
              (kept_of (py "Fables")
                 (dedup_by_book [foxes_twice.1; foxes_twice.2] 300 12)))
    ≤ 1.
Proof.
  assert (highlight = note
          ∨ (highlight = highlight ∨ highlight = unknown)
            ∧ norm foxes_twice.1 ≠ []) as H
    by (right; split; [by left|by vm_compute]).
  split; [exact H|].
  exact (exact_duplicates_collapse [foxes_twice.1; foxes_twice.2] 300 12
           (py "Fables") highlight (norm foxes_twice.1) H).
Defined.

(** *** C9: the order of a document's kept sequence *)

Lemma key_lt_asym x y : key_lt x y = true → key_lt y x = false.
Proof. apply tuple_lt_asym. Qed.

Lemma key_le_trans x y z :
  sorted_le key_lt x y → sorted_le key_lt y z → sorted_le key_lt x z.
Proof. unfold sorted_le, key_lt. apply tuple_le_trans. Qed.

Lemma key_le_before x y : sorted_le key_lt x y → before x y.
Proof.
  unfold sorted_le, key_lt, sort_key, before, ts_or_0.
  destruct (loc x) as [[s e]|], (loc y) as [[s' e']|]; simpl;
    rewrite ?orb_false_iff, ?andb_false_iff, ?orb_false_iff, ?andb_false_iff,
      ?Z.ltb_ge, ?Z.eqb_neq; try lia; try done.
Qed.

Lemma kept_bucket_ordered tol m b es :
  Pairwise before (py_sort key_lt (kept_bucket tol m b es)).
Proof.
  apply Pairwise_impl with (R := sorted_le key_lt).
  - intros x y _ _. apply key_le_before.
  - apply py_sort_sorted; [apply key_lt_asym|apply key_le_trans].
Qed.

(** C9, as the specification states it, fails at the document that
    holds [stray] alone: its kept sequence is that one entry, whose kind
    is none of highlight, note and bookmark, so the sequence is no
    concatenation of kept highlights, notes and bookmarks.  It fails as
    well at [nowhere] and [far_out], both highlights: the entry without a
    location is sorted first. *)
Lemma C9_three_kinds_counterexample :
  ¬ three_sorted_lists (λ e, type e = highlight) before_spec
      (kept_of (py "Fables") (dedup_by_book [stray] 300 12))
  ∧ ¬ three_sorted_lists (λ e, type e = highlight) before_spec
        (kept_of (py "Fables") (dedup_by_book [nowhere; far_out] 300 12)).
Proof.
  split.
  - assert (kept_of (py "Fables") (dedup_by_book [stray] 300 12) = [stray])
      as -> by (by vm_compute).
    intros (hs & ns & bs & Hout & Hh & Hn & Hb & _).
    destruct hs as [|h hs].
    + destruct ns as [|n ns].
      * destruct bs as [|b bs]; [done|]. injection Hout as <- _.
        by inversion Hb.
      * injection Hout as <- _. by inversion Hn.
    + injection Hout as <- _. by inversion Hh.
  - assert (kept_of (py "Fables") (dedup_by_book [nowhere; far_out] 300 12)
            = [nowhere; far_out]) as -> by (by vm_compute).
    intros (hs & ns & bs & Hout & Hh & Hn & Hb & Ho & _).
    destruct hs as [|h1 [|h2 hs]].
    + destruct ns as [|n ns].
      * destruct bs as [|b bs]; [done|]. injection Hout as <- _.
        by inversion Hb.
      * injection Hout as <- _. by inversion Hn.
    + injection Hout as <- Hout. destruct ns as [|n ns].
      * destruct bs as [|b bs]; [done|]. injection Hout as <- _.
        by inversion Hb.
      * injection Hout as <- _. by inversion Hn.
    + injection Hout as <- <- _. destruct Ho as [Ho _].
      inversion Ho as [|? ? Hbad _]. exact Hbad.
Qed.

(** C9 (amended): a document's kept sequence is three sorted lists one
    after the other: the kept highlights together with the kept entries
    of unknown kind, then the kept notes, then the kept bookmarks.
    Within each list the entries with a location start stand in
    non-decreasing (location start, sequence index) order, every entry
    with a location start below [10^12] stands before every entry
    without one, and the entries without a location start stand
    newest timestamp first (a missing timestamp counting as 0), with the
    sequence index as the final tie-break. *)
Theorem kept_sequence_ordering (entries : list Entry)
    (time_tol clause_min_len : Z) (t : pystr) :
  three_sorted_lists (λ e, type e = highlight ∨ type e = unknown) before
    (kept_of t (dedup_by_book entries time_tol clause_min_len)).
Proof.
  rewrite kept_of_dedup, dedup_book_buckets.
  set (es := entries_of t entries).
  exists (py_sort key_lt (kept_bucket time_tol clause_min_len Bh es)),
         (py_sort key_lt (kept_bucket time_tol clause_min_len Bn es)),
         (py_sort key_lt (kept_bucket time_tol clause_min_len Bb es)).
  split; [done|].
  repeat split; try apply kept_bucket_ordered;
    (eapply Forall_impl; [apply kept_bucket_sorted_bucket|]);
    intros e [[_ Hb] _]; simpl; destruct (type e); try done; auto.
Qed.

(** *** C8: deduplicating a kept sequence again *)

Lemma sort_key_idx x y : sort_key x = sort_key y → idx x = idx y.
Proof.
  unfold sort_key.
  destruct (loc x) as [[s e]|], (loc y) as [[s' e']|]; intros [=]; done.
Qed.

Section again.
Context (tol m : Z) (es : list Entry).

(** The classifier does not depend on the order of its arguments, on the
    entries at hand. *)
Hypothesis dup_sym : ∀ x y, x ∈ es → y ∈ es →
  is_duplicate x y tol m = is_duplicate y x tol m.

(** The sequence index identifies an entry. *)
Hypothesis idx_inj : ∀ x y, x ∈ es → y ∈ es → idx x = idx y → x = y.

Lemma dup_of_sym b x y : x ∈ es → y ∈ es → dup_of tol m b x y = dup_of tol m b y x.
Proof.
  intros Hx Hy. destruct b; simpl; [by apply dup_sym| |];
    apply bool_decide_ext; split; congruence.
Qed.

Lemma kept_bucket_accept b :
  Pairwise (λ k c, dup_of tol m b c k = false ∧ dup_of tol m b k c = false)
           (kept_bucket tol m b es).
Proof.
  pose proof (kept_bucket_selects tol m b es) as Hin. rewrite Forall_forall in Hin.
  apply Pairwise_impl with (R := λ k c, dup_of tol m b c k = false).
  - intros k c Hk Hc H. split; [done|].
    rewrite dup_of_sym; [done|by apply Hin|by apply Hin].
  - unfold kept_bucket.
    apply keep_fold_pairwise with (P := λ _, True); try done;
      by apply Forall_forall.
Qed.

Lemma filter_selects_sorted b b' :
  filter (selects b) (py_sort key_lt (kept_bucket tol m b' es))
  = if decide (b' = b) then py_sort key_lt (kept_bucket tol m b' es) else [].
Proof.
  pose proof (kept_bucket_sorted_bucket tol m b' es) as H.
  destruct (decide (b' = b)) as [->|Hne].
  - apply filter_all. eapply Forall_impl; [exact H|]. by intros e [? _].
  - apply filter_none. eapply Forall_impl; [exact H|].
    intros e [[_ ?] _] [_ ?]. congruence.
Qed.

Lemma kept_bucket_again b :
  kept_bucket tol m b (dedup_book tol m es)
  = rev (py_sort key_lt (kept_bucket tol m b es)).
Proof.
  unfold kept_bucket at 1.
  rewrite filter_rev, dedup_book_buckets, !filter_app, !filter_selects_sorted.
  assert (keep_fold (dup_of tol m b) []
            (rev (py_sort key_lt (kept_bucket tol m b es)))
          = rev (py_sort key_lt (kept_bucket tol m b es))) as Hkeep.
  { apply (keep_fold_all (dup_of tol m b) []). simpl.
    apply Pairwise_impl
      with (R := λ k c, dup_of tol m b c k = false ∧ dup_of tol m b k c = false);
      [by intros k c _ _ [? _]|].
    apply Pairwise_perm with (kept_bucket tol m b es).
    - by intros x y [? ?].
    - rewrite <- Permutation_rev. by rewrite py_sort_perm.
    - apply kept_bucket_accept. }
  destruct b; simpl; rewrite ?app_nil_r; exact Hkeep.
Qed.

Lemma sort_again b :
  py_sort key_lt (rev (py_sort key_lt (kept_bucket tol m b es)))
  = py_sort key_lt (kept_bucket tol m b es).
Proof.
  pose proof (kept_bucket_sorted_bucket tol m b es) as Hin.
  rewrite Forall_forall in Hin.
  apply py_sort_perm_eq.
  - apply key_lt_asym.
  - apply key_le_trans.
  - intros x y Hx Hy Hxy Hyx.
    apply list_elem_of_In, in_rev, list_elem_of_In in Hx, Hy.
    apply idx_inj; [by apply Hin|by apply Hin|].
    apply sort_key_idx. by apply tuple_lt_total.
  - rewrite <- Permutation_rev. by rewrite py_sort_perm.
Qed.

Lemma dedup_book_again :
  dedup_book tol m (dedup_book tol m es) = dedup_book tol m es.
Proof.
  rewrite (dedup_book_buckets tol m (dedup_book tol m es)).
  rewrite !kept_bucket_again, !sort_again.
  by rewrite <- dedup_book_buckets.
Qed.

End again.

Lemma dedup_book_titles tol m (t : pystr) (entries : list Entry) :
  Forall (λ e, title e = t) (dedup_book tol m (entries_of t entries)).
Proof.
  rewrite dedup_book_buckets, !Forall_app. repeat split;
    (eapply Forall_impl; [apply kept_bucket_sorted_bucket|]);
    intros e [_ He]; by apply list_elem_of_filter in He as [? _].
Qed.

Lemma entries_of_concat (t : pystr) (L : list (pystr * list Entry)) :
  NoDup L.*1 →
  (∀ k v, (k, v) ∈ L → Forall (λ e, title e = k) v) →
  (∀ v, (t, v) ∈ L → entries_of t (concat L.*2) = v)
  ∧ (t ∉ L.*1 → entries_of t (concat L.*2) = []).
Proof.
  induction L as [|[k v] L IH]; intros Hnd Ht; csimpl.
  { split; [by intros v ?%elem_of_nil|done]. }
  apply NoDup_cons in Hnd as [Hk Hnd].
  destruct (IH Hnd) as [IH1 IH2].
  { intros k' v' H. apply Ht. by right. }
  rewrite entries_of_app.
  assert (Forall (λ e, title e = k) v) as Hv by (apply Ht; by left).
  split.
  - intros v0 [[= -> ->]|Hin]%elem_of_cons.
    + rewrite IH2 by done. rewrite app_nil_r. by apply filter_all.
    + assert (t ≠ k) as Hne.
      { intros ->. apply Hk. apply list_elem_of_fmap. by exists (k, v0). }
      rewrite (IH1 v0 Hin). unfold entries_of at 1. rewrite filter_none; [done|].
      eapply Forall_impl; [exact Hv|]. simpl. congruence.
  - intros Hnot. apply not_elem_of_cons in Hnot as [Hne Hnot].
    rewrite (IH2 Hnot). unfold entries_of. rewrite filter_none; [done|].
    eapply Forall_impl; [exact Hv|]. simpl. congruence.
Qed.

(** A second run that is given the first run's output sees, for every
    document, the kept sequence of that document. *)
Lemma entries_of_feed_back (entries : list Entry) tol m (t : pystr) :
  entries_of t (feed_back (dedup_by_book entries tol m))
  = kept_of t (dedup_by_book entries tol m).
Proof.
  unfold feed_back, kept_of.
  destruct (entries_of_concat t (map_to_list (dedup_by_book entries tol m)))
    as [H1 H2].
  - apply NoDup_fst_map_to_list.
  - intros k v Hkv%elem_of_map_to_list.
    rewrite dedup_by_book_lookup in Hkv.
    destruct (entries_of k entries) eqn:E; [done|]. injection Hkv as <-.
    rewrite <- E. apply dedup_book_titles.
  - destruct (dedup_by_book entries tol m !! t) as [v|] eqn:E; simpl.
    + apply H1. by apply elem_of_map_to_list.
    + apply H2. intros Hin. apply list_elem_of_fmap in Hin as ([k v] & -> & Hin).
      apply elem_of_map_to_list in Hin. simpl in E. congruence.
Qed.

(** C8, as the specification states it, fails at [the_that] and
    [the_ant]: the first run keeps both ([the_that] is no duplicate of
    the kept [the_ant]) and sorts [the_ant] first; the second run scans
    that sequence from its end, keeps [the_that] and drops [the_ant] as
    a duplicate of it. *)
Lemma C8_second_run_counterexample :
  kept_of (py "Fables") (dedup_by_book [the_that; the_ant] 300 12)
  = [the_ant; the_that]
  ∧ feed_back (dedup_by_book [the_that; the_ant] 300 12) = [the_ant; the_that]
  ∧ kept_of (py "Fables")
      (dedup_by_book (feed_back (dedup_by_book [the_that; the_ant] 300 12))
         300 12)
    = [the_that].
Proof. by vm_compute. Qed.

(** Where two entries carry one sequence index the order of a kept
    sequence is not stable either: the sort leaves tied entries in the
    order of the scan, and the second scan runs the other way. *)
Lemma reused_index_second_run :
  idx twin_sour = idx twin_slow
  ∧ kept_of (py "Fables") (dedup_by_book [twin_sour; twin_slow] 300 12)
    = [twin_slow; twin_sour]
  ∧ kept_of (py "Fables") (dedup_by_book [twin_slow; twin_sour] 300 12)
    = [twin_sour; twin_slow].
Proof. by vm_compute. Qed.

(** C8 (amended): deduplication is idempotent on every list of entries
    on which the classifier does not depend on the order of its two
    arguments and whose sequence indices identify the entries: a second
    run, given the entries of the first run's output in which every
    document's kept sequence appears in its order, yields for every
    document the kept sequence of the first run. *)
Theorem dedup_idempotent (entries entries2 : list Entry)
    (time_tol clause_min_len : Z) (t : pystr) :
  (∀ x y, x ∈ entries → y ∈ entries →
     is_duplicate x y time_tol clause_min_len
     = is_duplicate y x time_tol clause_min_len) →
  (∀ x y, x ∈ entries → y ∈ entries → idx x = idx y → x = y) →
  entries_of t entries2
  = kept_of t (dedup_by_book entries time_tol clause_min_len) →
  kept_of t (dedup_by_book entries2 time_tol clause_min_len)
  = kept_of t (dedup_by_book entries time_tol clause_min_len).
Proof.
  intros Hsym Hidx H2. rewrite !kept_of_dedup in *. rewrite H2.
  apply dedup_book_again.
  - intros x y [_ Hx]%list_elem_of_filter [_ Hy]%list_elem_of_filter.
    by apply Hsym.
  - intros x y [_ Hx]%list_elem_of_filter [_ Hy]%list_elem_of_filter.
    by apply Hidx.
Qed.

Lemma dedup_idempotent_witness :
  ((∀ x y, x ∈ [stray; marked] → y ∈ [stray; marked] →
      is_duplicate x y 300 12 = is_duplicate y x 300 12)
   ∧ (∀ x y, x ∈ [stray; marked] → y ∈ [stray; marked] → idx x = idx y → x = y)
   ∧ entries_of (py "Fables") (feed_back (dedup_by_book [stray; marked] 300 12))
     = kept_of (py "Fables") (dedup_by_book [stray; marked] 300 12))
  ∧ kept_of (py "Fables")
      (dedup_by_book (feed_back (dedup_by_book [stray; marked] 300 12)) 300 12)
    = kept_of (py "Fables") (dedup_by_book [stray; marked] 300 12).
Proof.
  assert (∀ x, x ∈ [stray; marked] → x = stray ∨ x = marked) as Hin.
  { intros x [->|Hx]%elem_of_cons; [by left|].
    apply list_elem_of_singleton in Hx. by right. }
  assert (∀ x y, x ∈ [stray; marked] → y ∈ [stray; marked] →
            is_duplicate x y 300 12 = is_duplicate y x 300 12) as H1.
  { intros x y [->| ->]%Hin [->| ->]%Hin; by vm_compute. }
  assert (∀ x y, x ∈ [stray; marked] → y ∈ [stray; marked] →
            idx x = idx y → x = y) as H2.
  { intros x y [->| ->]%Hin [->| ->]%Hin; by vm_compute. }
  pose proof (entries_of_feed_back [stray; marked] 300 12 (py "Fables")) as H3.
  split; [by repeat split|].
  exact (dedup_idempotent [stray; marked] _ 300 12 (py "Fables") H1 H2 H3).
Defined.

End Dedup.

(** ** Trimming *)

Module StrFacts.
Import Str.

Lemma lstrip_by_split p s :
  ∃ u, s = u ++ lstrip_by p s ∧ Forall (λ c, p c = true) u.
Proof.
  induction s as [|c s IH]; simpl.
  - by exists [].
  - destruct (p c) eqn:E.
    + destruct IH as (u & Hs & Hu). exists (c :: u). split.
      * simpl. by rewrite <- Hs.
      * by constructor.
    + by exists [].
Qed.

Lemma lstrip_by_head p s c r : lstrip_by p s = c :: r → p c = false.
Proof.
  induction s as [|d s IH]; simpl; [done|].
  destruct (p d) eqn:E; [done|]. by intros [= <- _].
Qed.

Lemma lstrip_by_id p s :
  (∀ c r, s = c :: r → p c = false) → lstrip_by p s = s.
Proof.
  destruct s as [|c s]; [done|]. intros H. simpl. by rewrite (H c s).
Qed.

Lemma lstrip_by_all p s : Forall (λ c, p c = true) s → lstrip_by p s = [].
Proof. induction 1 as [|c s Hc _ IH]; simpl; [done|]. by rewrite Hc. Qed.

Lemma lstrip_by_app_all p u s :
  Forall (λ c, p c = true) u → lstrip_by p (u ++ s) = lstrip_by p s.
Proof. induction 1 as [|c u Hc _ IH]; simpl; [done|]. by rewrite Hc. Qed.

Lemma rstrip_by_split p s :
  ∃ u, s = rstrip_by p s ++ u ∧ Forall (λ c, p c = true) u.
Proof.
  unfold rstrip_by. destruct (lstrip_by_split p (rev s)) as (u & Hs & Hu).
  exists (rev u). split.
  - rewrite <- rev_app_distr, <- Hs. by rewrite rev_involutive.
  - apply Forall_forall. intros c Hc. apply (proj1 (Forall_forall _ _) Hu).
    by apply list_elem_of_In, in_rev, list_elem_of_In.
Qed.

Lemma rstrip_by_last p s c : last (rstrip_by p s) = Some c → p c = false.
Proof.
  unfold rstrip_by. intros H.
  destruct (lstrip_by p (rev s)) as [|d r] eqn:E; [done|].
  simpl in H. rewrite last_snoc in H. injection H as <-.
  by apply (lstrip_by_head p (rev s) d r).
Qed.

Lemma rstrip_by_id p s :
  (∀ c, last s = Some c → p c = false) → rstrip_by p s = s.
Proof.
  intros H. unfold rstrip_by. rewrite lstrip_by_id; [apply rev_involutive|].
  intros c r Hr. apply H. rewrite <- (rev_involutive s), Hr. simpl.
  by rewrite last_snoc.
Qed.

Lemma rstrip_by_all p s : Forall (λ c, p c = true) s → rstrip_by p s = [].
Proof.
  intros H. unfold rstrip_by. rewrite lstrip_by_all; [done|].
  apply Forall_forall. intros c Hc. apply (proj1 (Forall_forall _ _) H).
  by apply list_elem_of_In, in_rev, list_elem_of_In.
Qed.

Lemma rstrip_by_app_all p s u :
  Forall (λ c, p c = true) u → rstrip_by p (s ++ u) = rstrip_by p s.
Proof.
  intros H. unfold rstrip_by. rewrite rev_app_distr, lstrip_by_app_all; [done|].
  apply Forall_forall. intros c Hc. apply (proj1 (Forall_forall _ _) H).
  by apply list_elem_of_In, in_rev, list_elem_of_In.
Qed.

Lemma rstrip_by_head p s c r :
  rstrip_by p s = c :: r → ∃ r', s = c :: r'.
Proof.
  intros H. destruct (rstrip_by_split p s) as (u & Hs & _).
  rewrite H in Hs. by exists (r ++ u).
Qed.

(** What [strip] returns sits inside its argument, between whitespace. *)
Lemma strip_split s :
  ∃ u v, s = u ++ strip s ++ v
         ∧ Forall (λ c, isspace c = true) u ∧ Forall (λ c, isspace c = true) v.
Proof.
  unfold strip. destruct (lstrip_by_split isspace s) as (u & Hs & Hu).
  destruct (rstrip_by_split isspace (lstrip_by isspace s)) as (v & Hr & Hv).
  exists u, v. split; [|done]. by rewrite <- Hr.
Qed.

Lemma strip_head s c r : strip s = c :: r → isspace c = false.
Proof.
  unfold strip. intros H.
  destruct (rstrip_by_head _ _ _ _ H) as [r' Hr'].
  by apply (lstrip_by_head isspace s c r').
Qed.

Lemma strip_last s c : last (strip s) = Some c → isspace c = false.
Proof. apply rstrip_by_last. Qed.

Lemma strip_id s :
  (∀ c r, s = c :: r → isspace c = false) →
  (∀ c, last s = Some c → isspace c = false) → strip s = s.
Proof.
  intros H1 H2. unfold strip. rewrite lstrip_by_id by done. by apply rstrip_by_id.
Qed.

Lemma strip_idem s : strip (strip s) = strip s.
Proof.
  apply strip_id; [intros c r; apply strip_head|apply strip_last].
Qed.

Lemma strip_all s : Forall (λ c, isspace c = true) s → strip s = [].
Proof. intros H. unfold strip. by rewrite lstrip_by_all. Qed.

Lemma strip_nil_all s : strip s = [] → Forall (λ c, isspace c = true) s.
Proof.
  intros H. destruct (strip_split s) as (u & v & Hs & Hu & Hv).
  rewrite H in Hs. rewrite Hs. by apply Forall_app.
Qed.

(** Whitespace around a string does not change what [strip] returns. *)
Lemma strip_pad u s v :
  Forall (λ c, isspace c = true) u → Forall (λ c, isspace c = true) v →
  strip (u ++ s ++ v) = strip s.
Proof.
  intros Hu Hv. unfold strip. rewrite lstrip_by_app_all by done.
  destruct (lstrip_by_split isspace s) as (w & Hs & Hw).
  destruct (lstrip_by isspace s) as [|c r] eqn:E.
  - rewrite app_nil_r in Hs. subst w.
    rewrite lstrip_by_all by (by apply Forall_app). done.
  - assert (lstrip_by isspace (s ++ v) = (c :: r) ++ v) as ->.
    { rewrite Hs at 1. rewrite <- app_assoc, lstrip_by_app_all by done.
      apply lstrip_by_id. intros d r' [= <- _].
      by apply (lstrip_by_head isspace s c r). }
    by apply rstrip_by_app_all.
Qed.

Lemma strip_length s : length (strip s) ≤ length s.
Proof.
  destruct (strip_split s) as (u & v & Hs & _). rewrite Hs at 2.
  rewrite !length_app. lia.
Qed.

End StrFacts.

(** ** The normalizer *)

Module Normalizer.
Import Str Cleaner Spec Words StrFacts.

Lemma spaced_weaken s : spaced true s → spaced false s.
Proof.
  destruct s as [|c s]; simpl; [done|]. destruct (isspace c); [|done].
  by intros (_ & ? & _).
Qed.

Lemma spaced_front s :
  spaced false s → (∀ c r, s = c :: r → isspace c = false) → spaced true s.
Proof.
  destruct s as [|c s]; simpl; [done|]. intros H Hc.
  by rewrite (Hc c s eq_refl) in *.
Qed.

Lemma spaced_prefix b s1 s2 : spaced b (s1 ++ s2) → spaced b s1.
Proof.
  revert b. induction s1 as [|c s1 IH]; intros b; simpl; [done|].
  destruct (isspace c).
  - intros (? & ? & H). repeat split; try done. by apply IH.
  - apply IH.
Qed.

Lemma sub_ws_runs_spaced b t : spaced b (sub_ws_runs [32%N] b t).
Proof.
  revert b. induction t as [|c t IH]; intros b; simpl; [done|].
  destruct (isspace c) eqn:E.
  - destruct b; simpl; [apply IH|]. repeat split; try done; apply IH.
  - simpl. rewrite E. apply IH.
Qed.

Lemma sub_ws_runs_head repl t c r :
  t = c :: r → isspace c = false →
  ∃ r', sub_ws_runs repl false t = c :: r'.
Proof. intros -> E. simpl. rewrite E. by eexists. Qed.

Lemma sub_ws_runs_none b t :
  Forall (λ c, isspace c = false) (sub_ws_runs [] b t).
Proof.
  revert b. induction t as [|c t IH]; intros b; simpl; [done|].
  destruct (isspace c) eqn:E.
  - destruct b; simpl; apply IH.
  - constructor; [done|apply IH].
Qed.

Lemma spaced_none b s : Forall (λ c, isspace c = false) s → spaced b s.
Proof.
  intros H. revert b. induction H as [|c s Hc _ IH]; intros b; simpl; [done|].
  rewrite Hc. apply IH.
Qed.

Lemma rstrip_by_spaced p b s : spaced b s → spaced b (rstrip_by p s).
Proof.
  intros H. destruct (rstrip_by_split p s) as (u & Hs & _).
  rewrite Hs in H. by apply spaced_prefix in H.
Qed.

(** X1: a normalized body holds no whitespace other than single spaces:
    no tab, no line break, no two spaces in a row, and no space in
    front. *)
Theorem normalize_single_spaced (text : pystr) :
  single_spaced (normalize_for_compare text).
Proof.
  unfold single_spaced, normalize_for_compare.
  destruct text as [|c0 text0]; [done|].
  remember (strip _) as t0 eqn:E.
  apply rstrip_by_spaced.
  assert (spaced true (sub_ws_runs [32%N] false t0)) as H1.
  { apply spaced_front; [apply sub_ws_runs_spaced|].
    intros c r Hr. destruct t0 as [|d t0']; [done|].
    assert (isspace d = false) as Hd
      by (eapply strip_head; symmetry; exact E).
    simpl in Hr. rewrite Hd in Hr. by injection Hr as <- _. }
  destruct (mostly_cjk _); [|done].
  apply spaced_none, sub_ws_runs_none.
Qed.

(** X2: a normalized body never ends in sentence-terminal punctuation. *)
Theorem normalize_no_terminal_punct (text : pystr) (c : N) :
  last (normalize_for_compare text) = Some c → is_terminal_punct c = false.
Proof.
  unfold normalize_for_compare. destruct text as [|c0 text0]; [done|].
  apply rstrip_by_last.
Qed.

Lemma normalize_no_terminal_punct_witness :
  last (normalize_for_compare (py "Slow and steady?!")) = Some 121%N
  ∧ is_terminal_punct 121 = false.
Proof.
  assert (last (normalize_for_compare (py "Slow and steady?!")) = Some 121%N)
    as H by (by vm_compute).
  split; [exact H|].
  exact (normalize_no_terminal_punct (py "Slow and steady?!") 121 H).
Defined.

(** *** Blank text *)

Lemma split_go_chars (P : N → Prop) sep skip acc s :
  Forall P acc → Forall P s → Forall (Forall P) (split_go sep skip acc s).
Proof.
  revert skip acc. induction s as [|c s IH]; intros skip acc Ha Hs; simpl.
  - constructor; [|done]. apply Forall_forall. intros x Hx.
    apply (proj1 (Forall_forall _ _) Ha).
    by apply list_elem_of_In, in_rev, list_elem_of_In.
  - inversion Hs; subst. destruct skip; [|by apply IH].
    destruct (startswith sep (c :: s)).
    + constructor; [|by apply IH]. apply Forall_forall. intros x Hx.
      apply (proj1 (Forall_forall _ _) Ha).
      by apply list_elem_of_In, in_rev, list_elem_of_In.
    + apply IH; [by constructor|done].
Qed.

Lemma join_chars (P : N → Prop) sep parts :
  Forall P sep → Forall (Forall P) parts → Forall P (join sep parts).
Proof.
  intros Hsep. induction 1 as [|p ps Hp Hps IH]; simpl; [done|].
  destruct ps as [|q ps]; [done|]. rewrite !Forall_app. by repeat split.
Qed.

Lemma replace_chars (P : N → Prop) s old new :
  Forall P new → Forall P s → Forall P (replace s old new).
Proof.
  intros Hn Hs. apply join_chars; [done|]. by apply split_go_chars.
Qed.

(** X3: a text of whitespace only has the empty normalized body. *)
Theorem normalize_blank (text : pystr) :
  strip text = [] → normalize_for_compare text = [].
Proof.
  intros H. apply strip_nil_all in H.
  unfold normalize_for_compare. destruct text as [|c0 text0]; [done|].
  rewrite strip_all; [done|].
  apply replace_chars; [by repeat constructor|].
  apply replace_chars; [by repeat constructor|done].
Qed.

Lemma normalize_blank_witness :
  strip [13; 10; 9; 12288]%N = [] ∧ normalize_for_compare [13; 10; 9; 12288]%N = [].
Proof.
  assert (strip [13; 10; 9; 12288]%N = []) as H by (by vm_compute).
  split; [exact H|]. exact (normalize_blank [13; 10; 9; 12288]%N H).
Defined.

(** *** Length *)

Lemma join_length_le new old parts :
  length new ≤ length old → length (join new parts) ≤ length (join old parts).
Proof.
  intros H. induction parts as [|p ps IH]; [done|].
  destruct ps as [|q ps]; [done|].
  rewrite !(Splitter.join_cons _ p (q :: ps)) by done.
  rewrite !length_app. lia.
Qed.

Lemma replace_length_le s old new :
  old ≠ [] → length new ≤ length old → length (replace s old new) ≤ length s.
Proof.
  intros Ho Hl. unfold replace.
  destruct (Splitter.split_spec s old Ho) as [Hj _].
  rewrite <- Hj at 2. by apply join_length_le.
Qed.

Lemma sub_ws_runs_length repl b t :
  length repl ≤ 1 → length (sub_ws_runs repl b t) ≤ length t.
Proof.
  intros H. revert b. induction t as [|c t IH]; intros b; simpl; [done|].
  destruct (isspace c).
  - rewrite length_app. specialize (IH true). destruct b; simpl; lia.
  - simpl. specialize (IH false). lia.
Qed.

Lemma rstrip_by_length p s : length (rstrip_by p s) ≤ length s.
Proof.
  destruct (rstrip_by_split p s) as (u & Hs & _). rewrite Hs at 2.
  rewrite length_app. lia.
Qed.

(** X4: normalization never makes a text longer. *)
Theorem normalize_length (text : pystr) :
  length (normalize_for_compare text) ≤ length text.
Proof.
  unfold normalize_for_compare. destruct text as [|c0 text0]; [done|].
  set (text := c0 :: text0).
  etransitivity; [apply rstrip_by_length|].
  assert (length (sub_ws_runs [32%N] false
            (strip (replace (replace text [13; 10]%N [10]%N) [13]%N [10]%N)))
          ≤ length text) as H.
  { etransitivity; [apply sub_ws_runs_length; simpl; lia|].
    etransitivity; [apply strip_length|].
    etransitivity; [apply replace_length_le; [done|simpl; lia]|].
    apply replace_length_le; [done|simpl; lia]. }
  destruct (mostly_cjk _); [|done].
  etransitivity; [apply sub_ws_runs_length; simpl; lia|done].
Qed.

(** *** The CJK threshold *)

(** X5: a text counts as mostly CJK exactly when it is not empty and at
    least three tenths of its characters are CJK ideographs, the
    boundary included. *)
Theorem mostly_cjk_three_tenths (text : pystr) :
  mostly_cjk text = true ↔
  text ≠ [] ∧ 3 * length text ≤ 10 * cjk_count text.
Proof.
  unfold mostly_cjk, cjk_count. destruct text as [|c0 text0].
  { split; [done|by intros [? _]]. }
  assert (c0 :: text0 ≠ []) as Hne by done.
  assert (1 ≤ length (c0 :: text0)) as Hlen by (simpl; lia).
  generalize dependent (c0 :: text0). intros text Hne Hlen.
  generalize (length (filter (λ c, is_cjk c = true) text)). intros k.
  rewrite Nat.max_r by done.
  assert (∃ p, Z.of_nat (length text) = Z.pos p) as [p Hp].
  { exists (Pos.of_nat (length text)). rewrite <- positive_nat_Z.
    rewrite Nat2Pos.id by lia. done. }
  rewrite Qle_bool_iff, Hp.
  cbv [Qle Qdiv Qmult Qinv inject_Z Qnum Qden].
  rewrite Pos.mul_1_l, Z.mul_1_r, <- Hp.
  split.
  - intros H. split; [done|]. lia.
  - intros [_ H]. lia.
Qed.

End Normalizer.

(** ** Clauses *)

Module Clauses.
Import Str Cleaner Spec Words StrFacts.

Lemma strip_infix s : ∃ u v, s = u ++ strip s ++ v.
Proof. destruct (strip_split s) as (u & v & H & _). by exists u, v. Qed.

Lemma strip_chars (P : N → Prop) s : Forall P s → Forall P (strip s).
Proof.
  intros H. destruct (strip_split s) as (u & v & Hs & _). rewrite Hs in H.
  by apply Forall_app in H as [_ [H _]%Forall_app].
Qed.

(** The pieces of [re_split_runs] lie in the text and hold no
    delimiter. *)
Lemma re_split_runs_pieces isdelim b acc text :
  (b = true → acc = []) →
  Forall (λ c, isdelim c = false) acc →
  Forall (λ p, (∃ u v, rev acc ++ text = u ++ p ++ v)
               ∧ Forall (λ c, isdelim c = false) p)
         (re_split_runs isdelim b acc text).
Proof.
  revert b acc. induction text as [|c text IH]; intros b acc Hb Hacc; simpl.
  - constructor; [|done]. split.
    + exists [], []. by rewrite !app_nil_r.
    + apply Forall_forall. intros x Hx. apply (proj1 (Forall_forall _ _) Hacc).
      by apply list_elem_of_In, in_rev, list_elem_of_In.
  - destruct (isdelim c) eqn:E.
    + assert (Forall (λ p, (∃ u v, text = u ++ p ++ v)
                           ∧ Forall (λ c, isdelim c = false) p)
                     (re_split_runs isdelim true [] text)) as Hrest
        by (by apply (IH true [])).
      assert (Forall (λ p, (∃ u v, rev acc ++ c :: text = u ++ p ++ v)
                           ∧ Forall (λ c, isdelim c = false) p)
                     (re_split_runs isdelim true [] text)) as Hrest'.
      { eapply Forall_impl; [exact Hrest|]. intros p [(u & v & ->) Hp].
        split; [|done]. exists (rev acc ++ c :: u), v.
        by rewrite <- !app_assoc. }
      destruct b.
      * rewrite (Hb eq_refl) in *. exact Hrest'.
      * constructor; [|exact Hrest']. split.
        -- by exists [], (c :: text).
        -- apply Forall_forall. intros x Hx.
           apply (proj1 (Forall_forall _ _) Hacc).
           by apply list_elem_of_In, in_rev, list_elem_of_In.
    + assert (rev acc ++ c :: text = rev (c :: acc) ++ text) as ->
        by (simpl; by rewrite <- app_assoc).
      apply IH; [done|by constructor].
Qed.

(** When every piece is blank the text holds delimiters and whitespace
    only. *)
Lemma re_split_runs_blank isdelim b acc text :
  Forall (λ p, strip p = []) (re_split_runs isdelim b acc text) →
  Forall (λ c, isspace c = true) acc
  ∧ Forall (λ c, isdelim c = true ∨ isspace c = true) text.
Proof.
  revert b acc. induction text as [|c text IH]; intros b acc; simpl.
  - intros [H%strip_nil_all _]%Forall_cons. split; [|done].
    apply Forall_forall. intros x Hx. apply (proj1 (Forall_forall _ _) H).
    by apply list_elem_of_In, in_rev, list_elem_of_In in Hx.
  - destruct (isdelim c) eqn:E.
    + destruct b.
      * intros H. destruct (IH _ _ H) as [Ha Ht]. split; [done|].
        constructor; [by left|done].
      * intros [H%strip_nil_all Hrest]%Forall_cons.
        destruct (IH _ _ Hrest) as [_ Ht]. split.
        -- apply Forall_forall. intros x Hx.
           apply (proj1 (Forall_forall _ _) H).
           by apply list_elem_of_In, in_rev, list_elem_of_In in Hx.
        -- constructor; [by left|done].
    + intros H. destruct (IH _ _ H) as [Ha Ht].
      inversion Ha; subst. split; [done|]. constructor; [by right|done].
Qed.

Lemma omap_strip_elem (pieces : list pystr) c :
  c ∈ omap (λ p, if bool_decide (strip p = []) then None else Some (strip p))
           pieces →
  c ≠ [] ∧ ∃ p, p ∈ pieces ∧ c = strip p.
Proof.
  intros (p & Hp & Hc)%list_elem_of_omap.
  destruct (bool_decide (strip p = [])) eqn:E; [done|].
  apply bool_decide_eq_false in E. injection Hc as <-. split; [done|].
  by exists p.
Qed.

Lemma omap_strip_nil (pieces : list pystr) :
  omap (λ p, if bool_decide (strip p = []) then None else Some (strip p))
       pieces = [] →
  Forall (λ p, strip p = []) pieces.
Proof.
  induction pieces as [|p pieces IH]; simpl; [done|].
  destruct (bool_decide (strip p = [])) eqn:E; simpl; [|done].
  apply bool_decide_eq_true in E. intros H. constructor; [done|by apply IH].
Qed.

(** X6: a text that is not empty always yields at least one clause. *)
Theorem split_clauses_nonempty (text : pystr) :
  text ≠ [] → split_clauses text ≠ [].
Proof.
  intros H. unfold split_clauses. destruct text as [|c text]; [done|].
  by destruct (omap _ _).
Qed.

Lemma split_clauses_nonempty_witness :
  py "Wait. Why?" ≠ [] ∧ split_clauses (py "Wait. Why?") ≠ [].
Proof.
  assert (py "Wait. Why?" ≠ []) as H by done.
  split; [exact H|]. exact (split_clauses_nonempty (py "Wait. Why?") H).
Defined.

(** X7: every clause is trimmed and occurs in the text as a contiguous
    substring. *)
Theorem split_clauses_substrings (text : pystr) :
  Forall (λ c, strip c = c ∧ contains text c = true) (split_clauses text).
Proof.
  unfold split_clauses. destruct text as [|c0 text0]; [done|].
  set (text := c0 :: text0).
  pose proof (re_split_runs_pieces is_clause_delim false [] text
                (λ H, ltac:(done)) ltac:(done)) as Hp.
  rewrite Forall_forall in Hp.
  destruct (omap _ _) as [|c cs] eqn:E.
  - constructor; [|done]. split; [apply strip_idem|].
    apply Splitter.contains_spec, strip_infix.
  - rewrite <- E. apply Forall_forall.
    intros x (_ & p & Hin & ->)%omap_strip_elem.
    split; [apply strip_idem|]. apply Splitter.contains_spec.
    destruct (Hp p Hin) as [(u & v & Hu) _]. simpl in Hu.
    destruct (strip_infix p) as (u' & v' & Hp').
    exists (u ++ u'), (v' ++ v). rewrite Hu, Hp' at 1.
    by rewrite <- !app_assoc.
Qed.

(** X8: when a text holds any character that is neither whitespace nor
    a clause delimiter, each of its clauses is non-empty and free of
    delimiters; a non-empty text of delimiters and whitespace only has
    the single clause [strip text]. *)
Theorem split_clauses_delimiter_free (text : pystr) :
  (Exists (λ c, is_clause_delim c = false ∧ isspace c = false) text →
   Forall (λ c, c ≠ [] ∧ Forall (λ ch, is_clause_delim ch = false) c)
          (split_clauses text))
  ∧ (text ≠ [] →
     Forall (λ c, is_clause_delim c = true ∨ isspace c = true) text →
     split_clauses text = [strip text]).
Proof.
  unfold split_clauses. destruct text as [|c0 text0].
  { split; [by intros ?%Exists_nil|done]. }
  set (text := c0 :: text0).
  pose proof (re_split_runs_pieces is_clause_delim false [] text
                (λ H, ltac:(done)) ltac:(done)) as Hp.
  rewrite Forall_forall in Hp.
  destruct (omap _ _) as [|c cs] eqn:E.
  - split; [|done]. intros Hex. apply omap_strip_nil in E.
    apply re_split_runs_blank in E as [_ E].
    apply Exists_exists in Hex as (x & Hx & Hd & Hs).
    apply (proj1 (Forall_forall _ _) E) in Hx. destruct Hx; congruence.
  - split.
    + intros _. rewrite <- E. apply Forall_forall.
      intros x (Hne & p & Hin & ->)%omap_strip_elem. split; [done|].
      apply strip_chars. by destruct (Hp p Hin) as [_ ?].
    + intros _ Hall. exfalso.
      assert (c ∈ c :: cs) as Hc by (by left). rewrite <- E in Hc.
      apply omap_strip_elem in Hc as (Hne & p & Hin & ->).
      destruct (Hp p Hin) as [(u & v & Hu) Hnd]. simpl in Hu.
      rewrite Hu in Hall. apply Forall_app in Hall as [_ [Hall _]%Forall_app].
      apply Hne, strip_all. apply Forall_forall. intros x Hx.
      pose proof (proj1 (Forall_forall _ _) Hall x Hx) as [Hd|Hs]; [|done].
      pose proof (proj1 (Forall_forall _ _) Hnd x Hx). congruence.
Qed.

End Clauses.

(** ** Record blocks *)

Module Blocks.
Import Str Cleaner Spec Words StrFacts.

Lemma contains_app_l b x a : contains b a = true → contains (b ++ x) a = true.
Proof.
  rewrite !Splitter.contains_spec. intros (u & v & ->).
  exists u, (v ++ x). by rewrite <- !app_assoc.
Qed.

Lemma contains_infix u s v a :
  contains s a = true → contains (u ++ s ++ v) a = true.
Proof.
  rewrite !Splitter.contains_spec. intros (u' & v' & ->).
  exists (u ++ u'), (v' ++ v). by rewrite <- !app_assoc.
Qed.

Lemma segments_ok_no_sep sep segments :
  segments_ok sep segments → Forall (λ s, contains s sep = false) segments.
Proof.
  induction segments as [|p ps IH]; [done|]. simpl.
  destruct ps as [|q ps].
  - intros H. by repeat constructor.
  - intros [Hp Hps]. constructor; [|by apply IH].
    unfold cut_leftmost in Hp. destruct (contains p sep) eqn:E; [|done].
    by rewrite (contains_app_l _ _ _ E) in Hp.
Qed.

(** X9: every block that [split_entries] returns is non-empty, trimmed,
    and holds no separator. *)
Theorem split_entries_clean (content : pystr) :
  Forall clean_block (split_entries content).
Proof.
  unfold split_entries.
  destruct (Splitter.split_spec content SEPARATOR ltac:(done)) as [_ Hok].
  apply segments_ok_no_sep in Hok. rewrite Forall_forall in Hok.
  apply Forall_forall. intros b (p & Hin & Hb)%list_elem_of_omap.
  destruct (bool_decide (strip p = [])) eqn:E; [done|].
  apply bool_decide_eq_false in E. injection Hb as <-.
  split; [done|]. split; [apply strip_idem|].
  destruct (contains (strip p) SEPARATOR) eqn:Ec; [|done].
  destruct (strip_split p) as (u & v & Hp & _).
  assert (contains p SEPARATOR = true) as Hc
    by (rewrite Hp; by apply contains_infix).
  by rewrite (Hok p Hin) in Hc.
Qed.

(** A separator cannot reach across a character that it does not hold. *)
Lemma contains_split_at (c : N) (sep l1 l2 : pystr) :
  sep ≠ [] → Forall (λ x, x ≠ c) sep →
  contains (l1 ++ c :: l2) sep = true →
  contains l1 sep = true ∨ contains l2 sep = true.
Proof.
  intros Hne Hsep. rewrite !Splitter.contains_spec. intros (u & v & H).
  apply app_eq_inv in H as [(k & Hl & Hk)|(k & Hu & Hk)].
  - apply app_eq_inv in Hk as [(k2 & Hs & Hv)|(k2 & Hk & Hv)].
    + destruct k2 as [|d k2].
      * rewrite app_nil_r in Hs. left. exists u, []. by rewrite Hl, Hs, app_nil_r.
      * injection Hv as <- _. rewrite Hs in Hsep.
        apply Forall_app in Hsep as [_ Hsep]. by inversion Hsep.
    + left. exists u, k2. by rewrite Hl, Hk.
  - destruct k as [|d k].
    + simpl in Hk. destruct sep as [|s sep]; [done|].
      injection Hk as -> _. by inversion Hsep.
    + injection Hk as _ ->. right. by exists k, v.
Qed.

Lemma contains_line_feeds (x b : pystr) :
  Forall (λ c, c = 10%N) x →
  contains (x ++ b) SEPARATOR = true → contains b SEPARATOR = true.
Proof.
  induction 1 as [|c x -> _ IH]; [done|]. intros H.
  apply (contains_split_at 10 SEPARATOR [] (x ++ b)) in H as [H|H];
    [done|by apply IH|done|by repeat constructor].
Qed.

Lemma cut_leftmost_line (x b : pystr) :
  Forall (λ c, c = 10%N) x → contains b SEPARATOR = false →
  cut_leftmost SEPARATOR (x ++ b ++ [10%N]).
Proof.
  intros Hx Hb. unfold cut_leftmost.
  destruct (contains ((x ++ b ++ [10%N]) ++ removelast SEPARATOR) SEPARATOR)
    eqn:E; [|reflexivity].
  rewrite <- !app_assoc, (app_assoc x b) in E. simpl in E.
  apply (contains_split_at 10 SEPARATOR) in E as [E|E];
    [|done|done|by repeat constructor].
  apply contains_line_feeds in E; [congruence|done].
Qed.

Lemma split_cons_segment sep p rest :
  sep ≠ [] → cut_leftmost sep p →
  split (p ++ sep ++ rest) sep = p :: split rest sep.
Proof.
  intros Hsep Hp. destruct (Splitter.split_spec rest sep Hsep) as [Hj Hok].
  pose proof (Splitter.split_go_nonempty sep 0 [] rest) as Hne.
  fold (split rest sep) in Hne.
  apply Splitter.split_unique; [done| |].
  - rewrite Splitter.join_cons by done. by rewrite Hj.
  - simpl. destruct (split rest sep); [done|]. by split.
Qed.

Lemma split_no_separator sep s :
  sep ≠ [] → contains s sep = false → split s sep = [s].
Proof. intros Hsep Hs. by apply Splitter.split_unique. Qed.

Lemma split_export (x : pystr) (blocks : list pystr) :
  Forall (λ c, c = 10%N) x → Forall clean_block blocks →
  trimmed_nonempty (split (x ++ export_of blocks) SEPARATOR) = blocks.
Proof.
  intros Hx Hb. revert x Hx. induction Hb as [|b bs (Hne & Hs & Hc) _ IH];
    intros x Hx.
  - unfold export_of. simpl. rewrite app_nil_r.
    rewrite split_no_separator; [|done|].
    + simpl. rewrite strip_all; [done|].
      eapply Forall_impl; [exact Hx|]. by intros c ->.
    + destruct (contains x SEPARATOR) eqn:E; [|done].
      rewrite <- (app_nil_r x) in E. by apply contains_line_feeds in E.
  - assert (x ++ export_of (b :: bs)
            = (x ++ b ++ [10%N]) ++ SEPARATOR ++ ([10%N] ++ export_of bs)) as ->.
    { unfold export_of. rewrite fmap_cons. simpl concat.
      by rewrite <- !app_assoc. }
    rewrite split_cons_segment; [|done|by apply cut_leftmost_line].
    unfold trimmed_nonempty. simpl.
    rewrite (strip_pad x b [10%N]);
      [|eapply Forall_impl; [exact Hx|]; by intros c ->|by repeat constructor].
    rewrite Hs, bool_decide_eq_false_2 by done. f_equal.
    apply (IH [10%N]). by repeat constructor.
Qed.

(** X10: an export laid out as the reader writes it, every record
    followed by a separator line, splits back into its records, for any
    records that are non-empty, trimmed and free of the separator. *)
Theorem split_entries_export (blocks : list pystr) :
  Forall clean_block blocks → split_entries (export_of blocks) = blocks.
Proof.
  intros H. apply (split_export [] blocks); done.
Qed.

Lemma split_entries_export_witness :
  Forall clean_block [py "Fables"; py "Odes"]
  ∧ split_entries (export_of [py "Fables"; py "Odes"]) = [py "Fables"; py "Odes"].
Proof.
  assert (Forall clean_block [py "Fables"; py "Odes"]) as H
    by (repeat constructor; by vm_compute).
  split; [exact H|]. exact (split_entries_export _ H).
Defined.

End Blocks.

(** ** More on the similarity tests and the classifier *)

Module Signals.
Import Str Cleaner Spec Words.

Local Open Scope Z_scope.

(** X11: the location-overlap test does not depend on the order of the
    two ranges, a wider tolerance never loses an overlap, and a located
    range with start <= end overlaps itself under any tolerance that is
    not negative. *)
Theorem ranges_overlap_relation (a b : option (Z * Z)) (tol : Z) :
  ranges_overlap a b tol = ranges_overlap b a tol
  ∧ (∀ tol', tol ≤ tol' → ranges_overlap a b tol = true →
       ranges_overlap a b tol' = true)
  ∧ (∀ r, a = Some r → r.1 ≤ r.2 → 0 ≤ tol → ranges_overlap a a tol = true).
Proof.
  split; [|split].
  - destruct a as [[a1 a2]|], b as [[b1 b2]|]; try done.
    unfold ranges_overlap. by rewrite orb_comm.
  - intros tol' Htol. destruct a as [[a1 a2]|], b as [[b1 b2]|]; try done.
    unfold ranges_overlap.
    rewrite !negb_true_iff, !orb_false_iff, !Z.ltb_ge. lia.
  - intros [a1 a2] -> Hr Htol. unfold ranges_overlap. simpl in Hr.
    rewrite negb_true_iff, orb_false_iff, !Z.ltb_ge. lia.
Qed.

Lemma time_close_widen x y tol tol' :
  tol ≤ tol' → time_close x y tol = true → time_close x y tol' = true.
Proof.
  intros H. unfold time_close.
  destruct (timestamp x), (timestamp y); try done.
  rewrite !Z.leb_le. lia.
Qed.

Lemma clause_based_match_floor A B m m' r :
  m' ≤ m → clause_based_match A B m r = true →
  clause_based_match A B m' r = true.
Proof.
  intros Hm. rewrite !Classifier.clause_based_match_true.
  intros (ca & cb & ? & ? & ? & ? & H). exists ca, cb.
  repeat split; try done; lia.
Qed.

Lemma clause_based_match_loosen A B m m' r r' :
  m' ≤ m → (r' <= r)%Q → clause_based_match A B m r = true →
  clause_based_match A B m' r' = true.
Proof.
  intros Hm Hr H. apply clause_based_match_floor with m; [done|].
  by apply Classifier.clause_based_match_relax with r.
Qed.

(** X12: the two tunable parameters only loosen the classifier: a pair
    classified as duplicates stays so under any larger time tolerance
    and any smaller minimum clause length. *)
Theorem is_duplicate_parameters (x y : Entry) (tol tol' m m' : Z) :
  tol ≤ tol' → m' ≤ m →
  is_duplicate x y tol m = true → is_duplicate x y tol' m' = true.
Proof.
  intros Htol Hm. unfold is_duplicate.
  destruct (is_empty (norm x) || is_empty (norm y)); [done|].
  destruct (bool_decide (norm x = norm y)); [done|].
  pose proof (time_close_widen x y tol tol' Htol) as Ht.
  destruct (time_close x y tol) eqn:T.
  - rewrite (Ht eq_refl).
    destruct (clause_based_match _ _ m _) eqn:C.
    + by rewrite (clause_based_match_floor _ _ m m' _ Hm C),
        !Tauto.if_same.
    + destruct (ranges_overlap _ _ _);
        destruct (clause_based_match _ _ m' _); done.
  - destruct (time_close x y tol') eqn:T'.
    + destruct (clause_based_match _ _ m 0.92) eqn:C.
      * rewrite (clause_based_match_loosen _ _ m m' 0.92 0.88 Hm
                   ltac:(by vm_compute) C).
        by rewrite !Tauto.if_same.
      * destruct (clause_based_match _ _ m' 0.88);
          [by rewrite !Tauto.if_same|].
        destruct (ranges_overlap _ _ _); simpl negb.
        -- destruct (is_subset _ _ 12); [done|].
           destruct (very_close _ _ 0.92) eqn:V; [|done].
           by rewrite (Classifier.very_close_relax _ _ 0.92 0.90
                         ltac:(by vm_compute) V).
        -- destruct (is_subset _ _ 16) eqn:S.
           ++ by rewrite (Classifier.is_subset_relax _ _ 16 10 ltac:(lia) S).
           ++ destruct (is_subset _ _ 10); [done|].
              destruct (very_close _ _ 0.95) eqn:V; [|done].
              by rewrite (Classifier.very_close_relax _ _ 0.95 0.92
                            ltac:(by vm_compute) V).
    + destruct (clause_based_match _ _ m _) eqn:C.
      * by rewrite (clause_based_match_floor _ _ m m' _ Hm C),
          !Tauto.if_same.
      * destruct (ranges_overlap _ _ _);
          destruct (clause_based_match _ _ m' _); done.
Qed.

Lemma is_duplicate_parameters_witness :
  (300 ≤ 600 ∧ 8 ≤ 12
   ∧ is_duplicate Examples.foxes_far Examples.foxes_jump 300 12 = true)
  ∧ is_duplicate Examples.foxes_far Examples.foxes_jump 600 8 = true.
Proof.
  assert (is_duplicate Examples.foxes_far Examples.foxes_jump 300 12 = true)
    as H by (by vm_compute).
  split; [split; [lia|split; [lia|exact H]]|].
  exact (is_duplicate_parameters Examples.foxes_far Examples.foxes_jump
           300 600 12 8 ltac:(lia) ltac:(lia) H).
Defined.

(** X13: an entry is classified as a duplicate of itself exactly when
    its normalized body is not empty. *)
Theorem is_duplicate_self (x : Entry) (tol m : Z) :
  is_duplicate x x tol m = true ↔ norm x ≠ [].
Proof.
  unfold is_duplicate. destruct (norm x) as [|c n] eqn:E; simpl.
  - split; [done|]. by intros H.
  - rewrite bool_decide_eq_true_2 by done. done.
Qed.

Lemma contains_length b a : contains b a = true → (length a ≤ length b)%nat.
Proof.
  intros (u & v & ->)%Splitter.contains_spec. rewrite !length_app. lia.
Qed.

Lemma is_empty_len s : 0 < len s → is_empty s = false.
Proof. destruct s; [unfold len; simpl; lia|done]. Qed.

(** X14: a normalized body of at least 16 characters that occurs inside
    another entry's normalized body makes the two entries duplicates,
    in either order, whatever their locations, timestamps, clauses and
    the parameters. *)
Theorem is_duplicate_contained (x y : Entry) (tol m : Z) :
  contains (norm y) (norm x) = true → 16 ≤ len (norm x) →
  is_duplicate x y tol m = true ∧ is_duplicate y x tol m = true.
Proof.
  intros Hc Hl. pose proof (contains_length _ _ Hc) as Hlen.
  assert (16 ≤ len (norm y)) as Hl' by (unfold len in *; lia).
  assert (is_empty (norm x) = false) as Ex by (apply is_empty_len; lia).
  assert (is_empty (norm y) = false) as Ey by (apply is_empty_len; lia).
  assert (is_subset (norm x) (norm y) 16 = true) as S.
  { unfold is_subset. rewrite Ex, Ey, Hc.
    by rewrite (proj2 (Z.ltb_ge _ _)) by lia. }
  assert (is_subset (norm y) (norm x) 16 = true) as S'
    by (by rewrite Classifier.is_subset_sym).
  assert (∀ a b, is_subset a b 16 = true →
            is_subset a b 12 = true ∧ is_subset a b 10 = true) as Hrel.
  { intros a b H. split.
    - by apply (Classifier.is_subset_relax a b 16 12).
    - by apply (Classifier.is_subset_relax a b 16 10). }
  destruct (Hrel _ _ S) as [S12 S10], (Hrel _ _ S') as [S12' S10'].
  unfold is_duplicate. rewrite Ex, Ey.
  split.
  - destruct (bool_decide _); [done|].
    destruct (ranges_overlap _ _ _), (time_close _ _ _);
      rewrite ?S, ?S12, ?S10; by destruct (clause_based_match _ _ _ _).
  - destruct (bool_decide _); [done|].
    destruct (ranges_overlap _ _ _), (time_close _ _ _);
      rewrite ?S', ?S12', ?S10'; by destruct (clause_based_match _ _ _ _).
Qed.

Lemma is_duplicate_contained_witness :
  (contains
     (norm (make_entry 7 (py "Fables") (py "- Your Note on Location 900")
              note (Some (900, 900)) (Some 1790000000)
              (py "so the quick brown fox ran")))
     (norm Examples.stray) = true
   ∧ 16 ≤ len (norm Examples.stray))
  ∧ is_duplicate Examples.stray
      (make_entry 7 (py "Fables") (py "- Your Note on Location 900")
         note (Some (900, 900)) (Some 1790000000)
         (py "so the quick brown fox ran")) 300 12 = true
    ∧ is_duplicate
        (make_entry 7 (py "Fables") (py "- Your Note on Location 900")
           note (Some (900, 900)) (Some 1790000000)
           (py "so the quick brown fox ran"))
        Examples.stray 300 12 = true.
Proof.
  assert (contains
            (norm (make_entry 7 (py "Fables")
                     (py "- Your Note on Location 900") note
                     (Some (900, 900)) (Some 1790000000)
                     (py "so the quick brown fox ran")))
            (norm Examples.stray) = true) as H1 by (by vm_compute).
  assert (16 ≤ len (norm Examples.stray)) as H2 by (by vm_compute).
  split; [by split|].
  exact (is_duplicate_contained Examples.stray _ 300 12 H1 H2).
Defined.

End Signals.

(** ** What the scan keeps *)

Module Retention.
Import Str Cleaner Spec Invariants Words Sorting Dedup.

(** *** One running list *)

Section keep_fold.
Context (dup : Entry → Entry → bool).

Lemma keep_fold_extends kept l :
  ∃ l', keep_fold dup kept l = kept ++ l' ∧ l' `sublist_of` l.
Proof.
  revert kept. induction l as [|x l IH]; intros kept; simpl.
  - exists []. by rewrite app_nil_r.
  - destruct (existsb (dup x) kept).
    + destruct (IH kept) as (l' & -> & Hl'). exists l'. split; [done|].
      by apply sublist_cons.
    + destruct (IH (kept ++ [x])) as (l' & -> & Hl'). exists (x :: l').
      split; [by rewrite <- app_assoc|]. by apply sublist_skip.
Qed.

Lemma keep_fold_cover kept l e :
  e ∈ l →
  e ∈ keep_fold dup kept l
  ∨ ∃ k, k ∈ keep_fold dup kept l ∧ dup e k = true.
Proof.
  revert kept. induction l as [|x l IH]; intros kept; [by intros ?%elem_of_nil|].
  intros [->|He]%elem_of_cons; [|by apply IH]. simpl.
  destruct (existsb (dup x) kept) eqn:E.
  - right. apply existsb_exists in E as (k & Hk & Hd). exists k. split; [|done].
    destruct (keep_fold_extends kept l) as (l' & -> & _).
    apply elem_of_app. left. by apply list_elem_of_In.
  - left. destruct (keep_fold_extends (kept ++ [x]) l) as (l' & -> & _).
    rewrite !elem_of_app, list_elem_of_singleton. tauto.
Qed.

Lemma keep_fold_nil l : keep_fold dup [] l = [] ↔ l = [].
Proof.
  split; [|by intros ->]. destruct l as [|x l]; [done|].
  change (keep_fold dup [] (x :: l)) with (keep_fold dup [x] l).
  destruct (keep_fold_extends [x] l) as (l' & -> & _). done.
Qed.

Lemma keep_fold_first x l : x ∈ keep_fold dup [] (x :: l).
Proof.
  change (keep_fold dup [] (x :: l)) with (keep_fold dup [x] l).
  destruct (keep_fold_extends [x] l) as (l' & -> & _). by left.
Qed.

End keep_fold.

Lemma sorted_buckets_perm tol m es :
  dedup_book tol m es
  ≡ₚ kept_bucket tol m Bh es ++ kept_bucket tol m Bn es
     ++ kept_bucket tol m Bb es.
Proof. rewrite dedup_book_buckets. by rewrite !py_sort_perm. Qed.

Lemma selects_partition (l : list Entry) :
  filter (selects Bh) l ++ filter (selects Bn) l ++ filter (selects Bb) l
  ≡ₚ filter (λ e, nonblank e = true) l.
Proof.
  induction l as [|e l IH]; [done|]. rewrite !filter_cons.
  destruct (decide (selects Bh e)) as [[Hn Hb]|Hh],
    (decide (selects Bn e)) as [[Hn' Hb']|Hnn],
    (decide (selects Bb e)) as [[Hn'' Hb'']|Hbb],
    (decide (nonblank e = true)) as [Hnb|Hnb]; try congruence.
  - simpl. by rewrite IH.
  - rewrite <- app_comm_cons, <- Permutation_middle. by rewrite IH.
  - rewrite app_assoc, <- Permutation_middle, <- app_assoc. by rewrite IH.
  - exfalso. unfold selects in Hh, Hnn, Hbb.
    destruct (bucket_of (type e)); tauto.
Qed.

Lemma kept_bucket_sublist tol m b es :
  kept_bucket tol m b es `sublist_of` filter (selects b) (rev es).
Proof.
  unfold kept_bucket.
  by destruct (keep_fold_extends (dup_of tol m b) []
                 (filter (selects b) (rev es))) as (l' & -> & Hl').
Qed.

(** X15: the kept sequence of a document is a selection of that
    document's non-blank entries: every kept entry is one of them,
    unchanged, and none is kept more often than it occurs. *)
Theorem kept_is_selection (entries : list Entry) (time_tol clause_min_len : Z)
    (t : pystr) :
  kept_of t (dedup_by_book entries time_tol clause_min_len)
  ⊆+ filter (λ e, nonblank e = true) (entries_of t entries).
Proof.
  rewrite kept_of_dedup, sorted_buckets_perm.
  assert (filter (λ e, nonblank e = true) (entries_of t entries)
          ≡ₚ filter (λ e, nonblank e = true) (rev (entries_of t entries))) as ->
    by (by rewrite <- Permutation_rev).
  rewrite <- selects_partition.
  repeat apply submseteq_app; apply sublist_submseteq, kept_bucket_sublist.
Qed.

(** X16: a document's kept sequence is empty exactly when every entry of
    the document is blank. *)
Theorem kept_empty_iff_blank (entries : list Entry) (time_tol clause_min_len : Z)
    (t : pystr) :
  kept_of t (dedup_by_book entries time_tol clause_min_len) = []
  ↔ Forall (λ e, nonblank e = false) (entries_of t entries).
Proof.
  rewrite kept_of_dedup. set (es := entries_of t entries). split.
  - intros H. pose proof (sorted_buckets_perm time_tol clause_min_len es) as Hp.
    rewrite H in Hp. apply Permutation_nil_l in Hp. symmetry in Hp.
    apply app_eq_nil in Hp as [Hh [Hn Hb]%app_eq_nil].
    unfold kept_bucket in Hh, Hn, Hb. apply keep_fold_nil in Hh, Hn, Hb.
    pose proof (selects_partition (rev es)) as Hs. rewrite Hh, Hn, Hb in Hs.
    apply Permutation_nil_l in Hs.
    apply Forall_forall. intros e He.
    destruct (nonblank e) eqn:E; [|done].
    assert (e ∈ filter (λ e, nonblank e = true) (rev es)) as Hin.
    { apply list_elem_of_filter. split; [done|].
      by apply list_elem_of_In, in_rev, list_elem_of_In in He. }
    rewrite <- Hs in Hin. by apply elem_of_nil in Hin.
  - intros H. rewrite dedup_book_buckets.
    assert (∀ b, kept_bucket time_tol clause_min_len b es = []) as Hk.
    { intros b. unfold kept_bucket. apply keep_fold_nil.
      apply filter_none. apply Forall_forall. intros e He [Hn _].
      apply list_elem_of_In, in_rev, list_elem_of_In in He.
      apply (proj1 (Forall_forall _ _) H) in He. congruence. }
    by rewrite !Hk.
Qed.

(** X17: latest wins: the last non-blank entry that a document files
    under a running list is always kept. *)
Theorem latest_entry_kept (entries : list Entry) (time_tol clause_min_len : Z)
    (t : pystr) (l l' : list Entry) (e : Entry) :
  entries_of t entries = l ++ e :: l' →
  nonblank e = true →
  Forall (λ x, ¬ selects (bucket_of (type e)) x) l' →
  e ∈ kept_of t (dedup_by_book entries time_tol clause_min_len).
Proof.
  intros Hes Hn Hl'. rewrite kept_of_dedup, sorted_buckets_perm, Hes.
  set (b := bucket_of (type e)) in *.
  assert (e ∈ kept_bucket time_tol clause_min_len b (l ++ e :: l')) as Hin.
  { unfold kept_bucket. rewrite rev_app_distr. simpl. rewrite <- app_assoc.
    rewrite filter_app, filter_none.
    - simpl. rewrite filter_cons, decide_True by done. apply keep_fold_first.
    - apply Forall_forall. intros x Hx.
      apply list_elem_of_In, in_rev, list_elem_of_In in Hx.
      by apply (proj1 (Forall_forall _ _) Hl'). }
  rewrite !elem_of_app. destruct b; tauto.
Qed.

Lemma latest_entry_kept_witness :
  (entries_of (py "Fables") [Examples.stray; Examples.marked]
   = [Examples.stray] ++ Examples.marked :: []
   ∧ nonblank Examples.marked = true
   ∧ Forall (λ x, ¬ selects (bucket_of (type Examples.marked)) x) [])
  ∧ Examples.marked
    ∈ kept_of (py "Fables")
        (dedup_by_book [Examples.stray; Examples.marked] 300 12).
Proof.
  assert (entries_of (py "Fables") [Examples.stray; Examples.marked]
          = [Examples.stray] ++ Examples.marked :: []) as H1 by (by vm_compute).
  assert (nonblank Examples.marked = true) as H2 by (by vm_compute).
  split; [by repeat split|].
  exact (latest_entry_kept [Examples.stray; Examples.marked] 300 12
           (py "Fables") [Examples.stray] [] Examples.marked H1 H2
           (Forall_nil_2 _)).
Defined.

(** X18: nothing is dropped without a reason: every non-blank entry of a
    document is kept, or a kept entry of the same running list rejects
    it: as a duplicate (highlights and unknowns), by an equal normalized
    body (notes), by an equal metadata line (bookmarks). *)
Theorem dropped_entry_has_keeper (entries : list Entry)
    (time_tol clause_min_len : Z) (e : Entry) :
  e ∈ entries → nonblank e = true →
  e ∈ kept_of (title e) (dedup_by_book entries time_tol clause_min_len)
  ∨ ∃ k, k ∈ kept_of (title e) (dedup_by_book entries time_tol clause_min_len)
         ∧ bucket_of (type k) = bucket_of (type e)
         ∧ dup_of time_tol clause_min_len (bucket_of (type e)) e k = true.
Proof.
  intros He Hn. rewrite kept_of_dedup.
  set (es := entries_of (title e) entries). set (b := bucket_of (type e)).
  assert (e ∈ filter (selects b) (rev es)) as Hin.
  { apply list_elem_of_filter. split; [done|].
    apply list_elem_of_In. rewrite <- in_rev. apply list_elem_of_In.
    by apply list_elem_of_filter. }
  assert (∀ k, k ∈ kept_bucket time_tol clause_min_len b es →
               k ∈ dedup_book time_tol clause_min_len es
               ∧ bucket_of (type k) = b) as Hsub.
  { intros k Hk. split.
    - rewrite sorted_buckets_perm, !elem_of_app.
      unfold b in *. destruct (bucket_of (type e)); tauto.
    - pose proof (kept_bucket_selects time_tol clause_min_len b es) as Hs.
      by destruct (proj1 (Forall_forall _ _) Hs k Hk) as [[_ ?] _]. }
  destruct (keep_fold_cover (dup_of time_tol clause_min_len b) [] _ e Hin)
    as [Hk|(k & Hk & Hd)].
  - left. by apply Hsub.
  - right. exists k. destruct (Hsub k Hk). by repeat split.
Qed.

Lemma dropped_entry_has_keeper_witness :
  (Examples.stray ∈ [Examples.stray; Examples.marked]
   ∧ nonblank Examples.stray = true)
  ∧ (Examples.stray
     ∈ kept_of (title Examples.stray)
         (dedup_by_book [Examples.stray; Examples.marked] 300 12)
     ∨ ∃ k, k ∈ kept_of (title Examples.stray)
                  (dedup_by_book [Examples.stray; Examples.marked] 300 12)
            ∧ bucket_of (type k) = bucket_of (type Examples.stray)
            ∧ dup_of 300 12 (bucket_of (type Examples.stray))
                     Examples.stray k = true).
Proof.
  assert (Examples.stray ∈ [Examples.stray; Examples.marked]) as H1 by (by left).
  assert (nonblank Examples.stray = true) as H2 by (by vm_compute).
  split; [by split|].
  exact (dropped_entry_has_keeper [Examples.stray; Examples.marked] 300 12
           Examples.stray H1 H2).
Defined.

Lemma Pairwise_rev {A} (R : A → A → Prop) (l : list A) :
  Pairwise R l → Pairwise (flip R) (rev l).
Proof.
  induction l as [|x l IH]; simpl; [done|]. intros [Hx Hl].
  apply Pairwise_snoc. split; [by apply IH|].
  apply Forall_forall. intros k Hk.
  apply list_elem_of_In, in_rev, list_elem_of_In in Hk.
  by apply (proj1 (Forall_forall _ _) Hx).
Qed.

Lemma Pairwise_narrow {A} (R : A → A → Prop) (P Q : A → Prop)
    `{∀ x, Decision (P x)} `{∀ x, Decision (Q x)} (l : list A) :
  (∀ x, Q x → P x) → Pairwise R (filter P l) → Pairwise R (filter Q l).
Proof.
  intros HQP. induction l as [|x l IH]; [done|]. rewrite !filter_cons.
  destruct (decide (Q x)) as [Hq|Hq].
  - rewrite decide_True by auto. simpl. intros [Hx Hl]. split; [|by apply IH].
    apply Forall_forall. intros y [Hy Hin]%list_elem_of_filter.
    apply (proj1 (Forall_forall _ _) Hx). apply list_elem_of_filter. auto.
  - destruct (decide (P x)); simpl; [intros [_ Hl]|intros Hl]; by apply IH.
Qed.

(** X19: no kept entry rejects another. Of two entries at different
    places of a kept sequence that share a running list, two notes have
    different normalized bodies, two bookmarks have different metadata
    lines, and of two highlights or unknowns at least one is not a
    duplicate of the other. *)
Theorem kept_pairwise_distinct (entries : list Entry)
    (time_tol clause_min_len : Z) (t : pystr) :
  Pairwise (λ x y, bucket_of (type x) = bucket_of (type y) →
              match bucket_of (type x) with
              | Bh => is_duplicate x y time_tol clause_min_len = false
                      ∨ is_duplicate y x time_tol clause_min_len = false
              | Bn => norm x ≠ norm y
              | Bb => meta x ≠ meta y
              end)
           (kept_of t (dedup_by_book entries time_tol clause_min_len)).
Proof.
  rewrite kept_of_dedup. set (es := entries_of t entries).
  set (R := λ x y, bucket_of (type x) = bucket_of (type y) → _).
  assert (∀ x y, R x y → R y x) as Rsym.
  { unfold R. intros x y H E. specialize (H (eq_sym E)). rewrite E.
    destruct (bucket_of (type x)); [tauto|congruence..]. }
  apply (Pairwise_perm R _ _ Rsym (symmetry (sorted_buckets_perm _ _ es))).
  assert (∀ b, Pairwise R (kept_bucket time_tol clause_min_len b es)) as Hb.
  { intros b. unfold kept_bucket.
    apply keep_fold_pairwise with (P := selects b); try done.
    - intros c k [_ Hc] [_ Hk] Hd. apply Rsym. unfold R. rewrite Hc.
      intros _. destruct b; simpl in Hd.
      + by left.
      + by apply bool_decide_eq_false in Hd.
      + by apply bool_decide_eq_false in Hd.
    - apply Forall_forall. by intros e [He _]%list_elem_of_filter. }
  assert (∀ b b' x y, b ≠ b' →
            x ∈ kept_bucket time_tol clause_min_len b es →
            y ∈ kept_bucket time_tol clause_min_len b' es → R x y) as Hx.
  { intros b b' x y Hne Hx Hy E. exfalso. apply Hne.
    pose proof (kept_bucket_selects time_tol clause_min_len b es) as Hs.
    pose proof (kept_bucket_selects time_tol clause_min_len b' es) as Hs'.
    destruct (proj1 (Forall_forall _ _) Hs x Hx) as [[_ <-] _].
    destruct (proj1 (Forall_forall _ _) Hs' y Hy) as [[_ <-] _]. done. }
  apply Pairwise_app. split; [apply Hb|]. split.
  - apply Pairwise_app. split; [apply Hb|]. split; [apply Hb|].
    intros x y. by apply (Hx Bn Bb).
  - intros x y Hin [Hy|Hy]%elem_of_app;
      [apply (Hx Bh Bn)|apply (Hx Bh Bb)]; done.
Qed.

(** X20: the result has one key for every document title of the input
    and no other: a document is listed even when nothing of it is
    kept. *)
Theorem result_titles (entries : list Entry) (time_tol clause_min_len : Z)
    (t : pystr) :
  is_Some (dedup_by_book entries time_tol clause_min_len !! t)
  ↔ ∃ e, e ∈ entries ∧ title e = t.
Proof.
  rewrite dedup_by_book_lookup. unfold entries_of.
  destruct (filter _ entries) as [|e es] eqn:E.
  - split; [by intros [? ?]|]. intros (e & He & Ht).
    assert (e ∈ filter (λ e, title e = t) entries) as Hin
      by (by apply list_elem_of_filter).
    rewrite E in Hin. by apply elem_of_nil in Hin.
  - split; [|by eexists]. intros _. exists e.
    assert (e ∈ filter (λ e, title e = t) entries) as Hin
      by (rewrite E; by left).
    apply list_elem_of_filter in Hin. tauto.
Qed.

(** X21: nothing is dropped without a reason, seen from the input:
    when no non-blank entry of a document is rejected by a later one of
    the same running list, the kept sequence holds every non-blank entry
    of the document exactly once. *)
Theorem nothing_rejected_all_kept (entries : list Entry)
    (time_tol clause_min_len : Z) (t : pystr) :
  Pairwise (λ x y, bucket_of (type x) = bucket_of (type y) →
              dup_of time_tol clause_min_len (bucket_of (type x)) x y = false)
           (filter (λ e, nonblank e = true) (entries_of t entries)) →
  kept_of t (dedup_by_book entries time_tol clause_min_len)
  ≡ₚ filter (λ e, nonblank e = true) (entries_of t entries).
Proof.
  intros Hp. rewrite kept_of_dedup, sorted_buckets_perm.
  set (es := entries_of t entries) in *.
  assert (∀ b, kept_bucket time_tol clause_min_len b es
               = rev (filter (selects b) es)) as Hk.
  { intros b. unfold kept_bucket. rewrite filter_rev.
    apply (keep_fold_all (dup_of time_tol clause_min_len b) []). simpl.
    apply (Pairwise_narrow _ _ (selects b)) in Hp; [|by intros x [? _]].
    apply Pairwise_rev in Hp. revert Hp. apply Pairwise_impl.
    intros k c Hk Hc. unfold flip.
    apply list_elem_of_In, in_rev, list_elem_of_In,
      list_elem_of_filter in Hk as [[_ Ek] _].
    apply list_elem_of_In, in_rev, list_elem_of_In,
      list_elem_of_filter in Hc as [[_ Ec] _].
    rewrite Ec. intros H. apply H. congruence. }
  rewrite !Hk, <- !Permutation_rev. apply selects_partition.
Qed.

Lemma nothing_rejected_all_kept_witness :
  Pairwise (λ x y, bucket_of (type x) = bucket_of (type y) →
              dup_of 300 12 (bucket_of (type x)) x y = false)
           (filter (λ e, nonblank e = true)
              (entries_of (py "Fables") [Examples.nowhere; Examples.far_out]))
  ∧ kept_of (py "Fables")
      (dedup_by_book [Examples.nowhere; Examples.far_out] 300 12)
    ≡ₚ filter (λ e, nonblank e = true)
         (entries_of (py "Fables") [Examples.nowhere; Examples.far_out]).
Proof.
  assert (Pairwise (λ x y, bucket_of (type x) = bucket_of (type y) →
              dup_of 300 12 (bucket_of (type x)) x y = false)
           (filter (λ e, nonblank e = true)
              (entries_of (py "Fables") [Examples.nowhere; Examples.far_out])))
    as H.
  { change (filter _ _) with [Examples.nowhere; Examples.far_out].
    split; [|split; [constructor|exact I]].
    constructor; [|constructor]. intros _. by vm_compute. }
  split; [exact H|].
  exact (nothing_rejected_all_kept [Examples.nowhere; Examples.far_out] 300 12
           (py "Fables") H).
Defined.

End Retention.

(** ** The matcher returns matches of its pattern *)

Module ReFacts.
Import Str Re Matches.

Lemma rep_greedy_sound {A} p lo hi s (k : pystr → option A) x :
  rep_greedy p lo hi s k = Some x →
  ∃ u s', s = u ++ s' ∧ Forall (λ c, p c = true) u
          ∧ lo ≤ length u ∧ fits hi (length u) ∧ k s' = Some x.
Proof.
  revert lo hi. induction s as [|c s IH]; intros lo hi; simpl.
  - destruct (lo =? 0) eqn:E; [|done]. apply Nat.eqb_eq in E as ->.
    intros Hk. exists [], []. repeat split; try done. by destruct hi; simpl; lia.
  - assert ((if lo =? 0 then k (c :: s) else None) = Some x →
            ∃ u s', c :: s = u ++ s' ∧ Forall (λ c, p c = true) u
                    ∧ lo ≤ length u ∧ fits hi (length u) ∧ k s' = Some x)
      as Hstop.
    { destruct (lo =? 0) eqn:E; [|done]. apply Nat.eqb_eq in E as ->.
      intros Hk. exists [], (c :: s). repeat split; try done.
      by destruct hi; simpl; lia. }
    destruct (p c && more hi) eqn:E; [|done].
    apply andb_true_iff in E as [Hp Hm].
    destruct (rep_greedy p (pred lo) (less hi) s k) eqn:Er; [|done].
    intros [= ->]. apply IH in Er as (u & s' & -> & Hu & Hlo & Hhi & Hk).
    exists (c :: u), s'. repeat split; try done.
    + by constructor.
    + simpl. lia.
    + destruct hi as [[|h]|]; simpl in *; try done. lia.
Qed.

Lemma rep_lazy_sound {A} p lo hi s (k : pystr → option A) x :
  rep_lazy p lo hi s k = Some x →
  ∃ u s', s = u ++ s' ∧ Forall (λ c, p c = true) u
          ∧ lo ≤ length u ∧ fits hi (length u) ∧ k s' = Some x.
Proof.
  revert lo hi. induction s as [|c s IH]; intros lo hi; simpl.
  - destruct (lo =? 0) eqn:E.
    + apply Nat.eqb_eq in E as ->. destruct (k []) eqn:Ek; [|done].
      intros [= ->]. exists [], []. repeat split; try done.
      by destruct hi; simpl; lia.
    + done.
  - destruct (if lo =? 0 then k (c :: s) else None) eqn:Es.
    + intros [= ->]. destruct (lo =? 0) eqn:E; [|done].
      apply Nat.eqb_eq in E as ->. exists [], (c :: s).
      repeat split; try done. by destruct hi; simpl; lia.
    + destruct (p c && more hi) eqn:E; [|done].
      apply andb_true_iff in E as [Hp Hm].
      intros (u & s' & -> & Hu & Hlo & Hhi & Hk)%IH.
      exists (c :: u), s'. repeat split; try done.
      * by constructor.
      * simpl. lia.
      * destruct hi as [[|h]|]; simpl in *; try done. lia.
Qed.

Lemma matches_suffix r s s' g g' :
  matches r s s' g g' → ∃ u, s = u ++ s'.
Proof.
  revert s s' g g'. induction r as [|p|r1 IH1 r2 IH2|r1 IH1 r2 IH2|? ? ? ?|n r IH];
    intros s s' g g'; simpl.
  - intros [-> _]. by exists [].
  - intros (c & -> & _). by exists [c].
  - intros (s1 & g1 & (u & ->)%IH1 & (v & ->)%IH2). exists (u ++ v).
    by rewrite app_assoc.
  - intros [H|H]; eauto.
  - intros (u & -> & _). by exists u.
  - intros (u & g1 & -> & _). by exists u.
Qed.

Lemma exec_sound {A} r s g (k : pystr → groups → option A) x :
  exec r s g k = Some x →
  ∃ s' g', matches r s s' g g' ∧ k s' g' = Some x.
Proof.
  revert s g k. induction r as [|p|r1 IH1 r2 IH2|r1 IH1 r2 IH2|gr lo hi p|n r IH];
    intros s g k; simpl.
  - intros Hk. by exists s, g.
  - destruct s as [|c s]; [done|]. destruct (p c) eqn:Hp; [|done].
    intros Hk. exists s, g. split; [|done]. by exists c.
  - intros (s1 & g1 & H1 & (s2 & g2 & H2 & Hk)%IH2)%IH1.
    exists s2, g2. split; [|done]. by exists s1, g1.
  - destruct (exec r1 s g k) eqn:E1.
    + intros [= ->]. apply IH1 in E1 as (s' & g' & H & Hk).
      exists s', g'. by split; [left|].
    + intros (s' & g' & H & Hk)%IH2. exists s', g'. by split; [right|].
  - destruct gr.
    + intros (u & s' & -> & Hu & Hlo & Hhi & Hk)%rep_greedy_sound.
      exists s', g. split; [|done]. by exists u.
    + intros (u & s' & -> & Hu & Hlo & Hhi & Hk)%rep_lazy_sound.
      exists s', g. split; [|done]. by exists u.
  - intros (s' & g' & H & Hk)%IH.
    destruct (matches_suffix _ _ _ _ _ H) as (u & ->).
    exists s', ((n, u) :: g'). split.
    + by exists u, g'.
    + rewrite length_app, Nat.add_sub, take_app_length in Hk. exact Hk.
Qed.

Lemma search_sound r s g :
  search r s = Some g → ∃ u s0 s', s = u ++ s0 ∧ matches r s0 s' [] g.
Proof.
  induction s as [|c s IH]; simpl.
  - destruct (exec r [] [] _) eqn:E; [|done]. intros [= ->].
    apply exec_sound in E as (s' & g' & H & [= ->]). by exists [], [], s'.
  - destruct (exec r (c :: s) [] _) eqn:E.
    + intros [= ->]. apply exec_sound in E as (s' & g' & H & [= ->]).
      by exists [], (c :: s), s'.
    + intros (u & s0 & s' & -> & H)%IH. by exists (c :: u), s0, s'.
Qed.

(** A pattern leaves the groups it does not hold as they were. *)
Lemma matches_sets r s s' g g' n :
  matches r s s' g g' → n ∉ sets r → group n g' = group n g.
Proof.
  revert s s' g g'. induction r as [|p|r1 IH1 r2 IH2|r1 IH1 r2 IH2|? ? ? ?|i r IH];
    intros s s' g g'; simpl.
  - by intros [_ ->].
  - by intros (c & _ & _ & ->).
  - intros (s1 & g1 & H1 & H2) Hn. apply not_elem_of_app in Hn as [Hn1 Hn2].
    rewrite (IH2 _ _ _ _ H2 Hn2). by apply (IH1 _ _ _ _ H1).
  - intros [H|H] Hn; apply not_elem_of_app in Hn as [Hn1 Hn2]; eauto.
  - by intros (u & _ & _ & _ & _ & ->).
  - intros (u & g1 & -> & H & ->) Hn. apply not_elem_of_cons in Hn as [Hne Hn].
    simpl. destruct (i =? n) eqn:E; [by apply Nat.eqb_eq in E|].
    by apply (IH _ _ _ _ H).
Qed.

Lemma matches_seq_cons r rs s s' g g' :
  matches (seq (r :: rs)) s s' g g' →
  ∃ s1 g1, matches r s s1 g g1 ∧ matches (seq rs) s1 s' g1 g'.
Proof. done. Qed.

Lemma infix_refl s : infix s s.
Proof. exists [], []. by rewrite app_nil_r. Qed.

Lemma infix_trans a b c : infix a b → infix b c → infix a c.
Proof.
  intros (u & v & ->) (u' & v' & ->). exists (u' ++ u), (v ++ v').
  by rewrite <- !app_assoc.
Qed.

Lemma infix_length a b : infix a b → length a ≤ length b.
Proof. intros (u & v & ->). rewrite !length_app. lia. Qed.

Lemma infix_suffix a u b : infix a b → infix a (u ++ b).
Proof. intros (x & y & ->). exists (u ++ x), y. by rewrite <- app_assoc. Qed.

Lemma infix_prefix a b v : infix a b → infix a (b ++ v).
Proof. intros (x & y & ->). exists x, (y ++ v). by rewrite <- !app_assoc. Qed.

End ReFacts.

(** ** The metadata line *)

Module Metadata.
Import Str Re Matches Cleaner Parser ReFacts.

Local Open Scope Z_scope.

Lemma decimal_range c v : decimal c = Some v → 0 ≤ v ≤ 9.
Proof.
  unfold decimal. destruct (find _ decimal_zeros) as [z|] eqn:E; [|done].
  apply find_some in E as [_ E]. intros [= <-].
  apply andb_true_iff in E as [E1 E2]. apply N.leb_le in E1.
  apply N.ltb_lt in E2. lia.
Qed.

Lemma int_value_nonneg s : 0 ≤ int_value s.
Proof.
  unfold int_value.
  assert (∀ n, 0 ≤ n →
            0 ≤ foldl (λ n c, 10 * n + default 0 (decimal c)) n s) as H;
    [|by apply H].
  induction s as [|c s IH]; intros n Hn; simpl; [done|].
  apply IH. destruct (decimal c) as [v|] eqn:E; simpl; [|lia].
  apply decimal_range in E. lia.
Qed.

Lemma int_nonneg s v : int s = Ok v → 0 ≤ v.
Proof.
  unfold int. destruct (_ && _); [|done]. intros [= <-].
  apply int_value_nonneg.
Qed.

Lemma int_encodes s : int s ≠ UnicodeEncodeError.
Proof. unfold int. by destruct (_ && _). Qed.

Lemma int_raises s :
  digits s → s ≠ [] → int s = ValueError →
  (int_max_str_digits < length s)%nat.
Proof.
  intros Hd Hs. unfold int.
  assert (forallb digit s = true) as ->.
  { clear Hs. induction Hd as [|c s Hc _ IH]; simpl; [done|]. by rewrite Hc. }
  assert (negb (is_empty s) = true) as -> by (by destruct s).
  cbn [andb].
  destruct (length s <=? int_max_str_digits)%nat eqn:E; [done|].
  by apply Nat.leb_gt in E.
Qed.

Lemma parse_loc_from_range pats meta a b :
  parse_loc_from pats meta = Ok (Some (a, b)) → 0 ≤ a ≤ b.
Proof.
  induction pats as [|pat pats IH]; simpl; [done|].
  destruct (search pat meta) as [m|]; [|done].
  destruct (int (group_or_empty 1 m)) as [start| |] eqn:E1; simpl; [|done..].
  apply int_nonneg in E1.
  assert (∀ end_, 0 ≤ end_ →
            Ok (Some (if end_ <? start then (end_, start) else (start, end_)))
            = Ok (Some (a, b)) → 0 ≤ a ≤ b) as Hfin.
  { intros e He. destruct (e <? start) eqn:E; intros [= <- <-]; lia. }
  destruct (group 2 m) as [[|c g2]|]; simpl; try by apply Hfin.
  destruct (int (c :: g2)) as [e| |] eqn:E2; simpl; [|done..].
  apply int_nonneg in E2. by apply Hfin.
Qed.

(** X22: a location that [parse_loc] returns is a range of numbers that
    are not negative, the lower one first. *)
Theorem parse_loc_range (meta : pystr) (a b : Z) :
  parse_loc meta = Ok (Some (a, b)) → 0 ≤ a ≤ b.
Proof. apply parse_loc_from_range. Qed.

Lemma parse_loc_range_witness :
  parse_loc (py "- Your Highlight on Location 105-98") = Ok (Some (98, 105))
  ∧ 0 ≤ 98 ≤ 105.
Proof.
  assert (parse_loc (py "- Your Highlight on Location 105-98")
          = Ok (Some (98, 105))) as H by (by vm_compute).
  split; [exact H|].
  exact (parse_loc_range (py "- Your Highlight on Location 105-98") 98 105 H).
Defined.

Lemma matches_groupless r s s' g g' :
  sets r = [] → matches r s s' g g' → g' = g.
Proof.
  revert s s' g g'. induction r as [|p|r1 IH1 r2 IH2|r1 IH1 r2 IH2|? ? ? ?|i r IH];
    intros s s' g g'; simpl; try done.
  - by intros _ [_ ->].
  - by intros _ (c & _ & _ & ->).
  - intros [E1 E2]%app_eq_nil (s1 & g1 & H1 & H2).
    apply (IH1 _ _ _ _ E1) in H1 as ->. by apply (IH2 _ _ _ _ E2) in H2.
  - intros [E1 E2]%app_eq_nil [H|H]; eauto.
  - by intros _ (u & _ & _ & _ & _ & ->).
Qed.

Lemma number_in_wider s s' t : number_in s t → infix s s' → number_in s' t.
Proof.
  intros (Hd & Hn & Hi) Hs. repeat split; try done. by eapply infix_trans.
Qed.

Lemma seq_groupless rs r s s' g g' :
  Forall (λ r, sets r = []) rs →
  matches (seq (rs ++ [r])) s s' g g' →
  ∃ s1, infix s1 s ∧ matches r s1 s' g g'.
Proof.
  intros Hrs. revert s. induction Hrs as [|r0 rs Hr0 _ IH]; intros s.
  - intros (s1 & g1 & H & -> & ->). exists s. split; [apply infix_refl|done].
  - intros (s1 & g1 & H1 & H)%matches_seq_cons.
    apply (matches_groupless _ _ _ _ _ Hr0) in H1 as Hg. subst g1.
    apply matches_suffix in H1 as (u & ->).
    apply IH in H as (s2 & Hi & H). exists s2. split; [|done].
    by apply infix_suffix.
Qed.

Lemma span_groups s s' g g' :
  matches span s s' g g' →
  (∃ t, group 1 g' = Some t ∧ number_in s t)
  ∧ (group 2 g' = group 2 g ∨ ∃ t, group 2 g' = Some t ∧ number_in s t).
Proof.
  intros (s1 & g1 & (u & g0 & -> & (u' & Hu' & Hd & Hlen & _ & ->) & ->) & H).
  apply app_inv_tail in Hu' as <-.
  assert (number_in (u ++ s1) u) as Hu.
  { repeat split; [done|by destruct u; [simpl in Hlen; lia|]|].
    exists [], s1. done. }
  destruct H as [(s2 & g2 & (c & -> & _ & ->)
                  & (v & g3 & -> & (v' & Hv' & Hdv & Hlv & _ & ->) & ->))
                |[-> ->]].
  - apply app_inv_tail in Hv' as <-. split.
    + exists u. by split.
    + right. exists v. split; [done|].
      repeat split; [done|by destruct v; [simpl in Hlv; lia|]|].
      exists (u ++ [c]), s'. by rewrite <- !app_assoc.
  - split; [|by left]. exists u. by split.
Qed.

Lemma loc_pattern_groups pat meta m :
  pat ∈ LOC_PATTERNS → search pat meta = Some m →
  (∃ t, group 1 m = Some t ∧ number_in meta t)
  ∧ (group 2 m = None ∨ ∃ t, group 2 m = Some t ∧ number_in meta t).
Proof.
  intros Hpat (u & s0 & s' & -> & H)%search_sound.
  assert (∃ rs, Forall (λ r, sets r = []) rs ∧ pat = seq (rs ++ [span]))
    as (rs & Hrs & ->).
  { unfold LOC_PATTERNS in Hpat.
    repeat apply elem_of_cons in Hpat as [->|Hpat];
      [eexists [_; _; _]|eexists [_; _; _; _]|eexists [_; _]
      |by apply elem_of_nil in Hpat];
      (split; [|reflexivity]); repeat constructor. }
  apply (seq_groupless _ _ _ _ _ _ Hrs) in H as (s1 & Hi & H).
  apply span_groups in H as [(t & Ht & Hn) H2].
  assert (infix s1 (u ++ s0)) as Hw by (by apply infix_suffix).
  split.
  - exists t. split; [done|]. by eapply number_in_wider.
  - destruct H2 as [H2|(t2 & Ht2 & Hn2)]; [by left|].
    right. exists t2. split; [done|]. by eapply number_in_wider.
Qed.

Lemma parse_loc_from_raises pats meta :
  Forall (λ pat, pat ∈ LOC_PATTERNS) pats →
  parse_loc_from pats meta = ValueError →
  ∃ t, number_in meta t ∧ (int_max_str_digits < length t)%nat.
Proof.
  induction 1 as [|pat pats Hpat _ IH]; simpl; [done|].
  destruct (search pat meta) as [m|] eqn:Em; [|done]. clear IH.
  destruct (loc_pattern_groups _ _ _ Hpat Em) as [(t & Ht & Hn) H2].
  unfold group_or_empty. rewrite Ht. simpl.
  destruct (int t) as [start| |] eqn:E1; simpl; [| |done].
  - destruct H2 as [->|(t2 & -> & Hn2)]; [done|].
    destruct t2 as [|c t2]; [done|].
    destruct (int (c :: t2)) as [e| |] eqn:E2; simpl; [done| |done].
    intros _. exists (c :: t2). split; [done|].
    destruct Hn2 as (Hd & Hne & _). by apply int_raises.
  - intros _. exists t. split; [done|].
    destruct Hn as (Hd & Hne & _). by apply int_raises.
Qed.

Lemma parse_loc_from_encodes pats meta :
  parse_loc_from pats meta ≠ UnicodeEncodeError.
Proof.
  induction pats as [|pat pats IH]; simpl; [done|].
  destruct (search pat meta) as [m|]; [|done].
  destruct (int (group_or_empty 1 m)) as [start| |] eqn:E1; simpl;
    [|done|by apply int_encodes in E1].
  destruct (group 2 m) as [[|c g2]|]; simpl; try done.
  destruct (int (c :: g2)) as [e| |] eqn:E2; simpl;
    [done|done|by apply int_encodes in E2].
Qed.

(** X23: [parse_loc] raises only on a metadata line that holds more than
    4300 decimal digits in a row. *)
Theorem parse_loc_raises (meta : pystr) :
  parse_loc meta = ValueError →
  ∃ t, infix t meta ∧ digits t ∧ (int_max_str_digits < length t)%nat.
Proof.
  intros H. apply parse_loc_from_raises in H as (t & (Hd & _ & Hi) & Hlen).
  - by exists t.
  - by apply Forall_forall.
Qed.

Lemma parse_loc_raises_witness :
  parse_loc (py "loc. " ++ replicate 4301 49%N) = ValueError
  ∧ ∃ t, infix t (py "loc. " ++ replicate 4301 49%N) ∧ digits t
         ∧ (int_max_str_digits < length t)%nat.
Proof.
  assert (parse_loc (py "loc. " ++ replicate 4301 49%N) = ValueError) as H
    by (by vm_compute).
  split; [exact H|].
  exact (parse_loc_raises (py "loc. " ++ replicate 4301 49%N) H).
Defined.

End Metadata.

(** ** Entries from blocks *)

Module Entries.
Import Str Re Matches Cleaner Spec Parser ReFacts Metadata.

Local Open Scope Z_scope.

Lemma ts_pattern_group pat meta m :
  pat ∈ TS_PATTERNS → search pat meta = Some m →
  ∃ t, group 1 m = Some t ∧ Forall (λ c, c ≠ 10%N) t ∧ infix t meta.
Proof.
  intros Hpat (u & s0 & s' & -> & H)%search_sound.
  assert (∃ rs, Forall (λ r, sets r = []) rs
                ∧ pat = seq (rs ++ [Grp 1 (plus dot)])) as (rs & Hrs & ->).
  { unfold TS_PATTERNS in Hpat.
    repeat apply elem_of_cons in Hpat as [->|Hpat];
      [eexists [_; _]|eexists [_; _]|by apply elem_of_nil in Hpat];
      (split; [|reflexivity]); repeat constructor. }
  apply (seq_groupless _ _ _ _ _ _ Hrs) in H as (s1 & Hi & H).
  destruct H as (t & g1 & -> & (t' & Ht' & Hd & _ & _ & ->) & ->).
  apply app_inv_tail in Ht' as <-. exists t. split; [done|]. split.
  - eapply Forall_impl; [exact Hd|]. intros c Hc ->. done.
  - apply infix_suffix. eapply infix_trans; [|exact Hi]. by exists [], s'.
Qed.

Lemma infix_strip s : infix (strip s) s.
Proof. destruct (StrFacts.strip_split s) as (u & v & H & _). by exists u, v. Qed.

Lemma infix_chars (P : N → Prop) a b : infix a b → Forall P b → Forall P a.
Proof.
  intros (u & v & ->) H. apply Forall_app in H as [_ H].
  by apply Forall_app in H as [H _].
Qed.

Lemma parse_timestamp_from_text pats meta ts :
  Forall (λ pat, pat ∈ TS_PATTERNS) pats →
  parse_timestamp_from pats meta = Some ts →
  strip ts = ts ∧ infix ts meta ∧ Forall (λ c, c ≠ 10%N) ts.
Proof.
  induction 1 as [|pat pats Hpat _ IH]; simpl; [done|].
  destruct (search pat meta) as [m|] eqn:Em; [|done]. intros [= <-].
  destruct (ts_pattern_group _ _ _ Hpat Em) as (t & Ht & Hd & Hi).
  unfold group_or_empty. rewrite Ht. simpl. split; [apply StrFacts.strip_idem|].
  split.
  - eapply infix_trans; [apply infix_strip|done].
  - eapply infix_chars; [apply infix_strip|done].
Qed.

(** X24: the timestamp text that [parse_timestamp] returns is trimmed,
    holds no line feed and stands in the metadata line as it is. *)
Theorem parse_timestamp_text (meta ts : pystr) :
  parse_timestamp meta = Some ts →
  strip ts = ts ∧ infix ts meta ∧ 10%N ∉ ts.
Proof.
  intros H. apply parse_timestamp_from_text in H as (H1 & H2 & H3).
  - repeat split; try done. intros Hin.
    by apply (proj1 (Forall_forall _ _) H3) in Hin.
  - by apply Forall_forall.
Qed.

Lemma parse_timestamp_text_witness :
  parse_timestamp (py "- Your Note on Location 7 | Added on  Monday, 3 May ")
  = Some (py "Monday, 3 May")
  ∧ strip (py "Monday, 3 May") = py "Monday, 3 May"
  ∧ infix (py "Monday, 3 May")
          (py "- Your Note on Location 7 | Added on  Monday, 3 May ")
  ∧ 10%N ∉ py "Monday, 3 May".
Proof.
  assert (parse_timestamp
            (py "- Your Note on Location 7 | Added on  Monday, 3 May ")
          = Some (py "Monday, 3 May")) as H by (by vm_compute).
  split; [exact H|].
  exact (parse_timestamp_text _ _ H).
Defined.

Lemma type_pattern_group pat meta m :
  pat ∈ TYPE_PATTERNS → search pat meta = Some m →
  ∃ t, group 1 m = Some t ∧ infix t meta.
Proof.
  intros Hpat (u & s0 & s' & -> & H)%search_sound.
  assert (∃ rs r, Forall (λ r, sets r = []) rs
                  ∧ pat = seq (rs ++ [Grp 1 r])) as (rs & r & Hrs & ->).
  { unfold TYPE_PATTERNS in Hpat.
    repeat apply elem_of_cons in Hpat as [->|Hpat];
      [eexists [_; _], _|eexists [_; _; _], _|by apply elem_of_nil in Hpat];
      (split; [|reflexivity]); repeat constructor. }
  apply (seq_groupless _ _ _ _ _ _ Hrs) in H as (s1 & Hi & H).
  destruct H as (t & g1 & -> & _ & ->). exists t. split; [done|].
  apply infix_suffix. eapply infix_trans; [|exact Hi]. by exists [], s'.
Qed.

Lemma parse_type_from_word pats meta :
  Forall (λ pat, pat ∈ TYPE_PATTERNS) pats →
  parse_type_from pats meta = unknown
  ∨ ∃ t, infix t meta ∧ lower t ∈ kind_words (parse_type_from pats meta).
Proof.
  induction 1 as [|pat pats Hpat _ IH]; simpl; [by left|].
  destruct (search pat meta) as [m|] eqn:Em; [|done].
  destruct (type_pattern_group _ _ _ Hpat Em) as (t & Ht & Hi).
  unfold group_or_empty. rewrite Ht. simpl. unfold eqb_str.
  repeat case_bool_decide; simpl; try done;
    right; exists t; (split; [done|]);
    match goal with
    | H : lower t = _ |- _ => rewrite H; simpl; by repeat constructor
    end.
Qed.

(** X25: [parse_type] reports a kind only for a metadata line that holds
    the word of that kind, in English in any case or in Chinese; every
    other line is of unknown kind. *)
Theorem parse_type_word (meta : pystr) :
  parse_type meta = unknown
  ∨ ∃ t, infix t meta ∧ lower t ∈ kind_words (parse_type meta).
Proof. apply parse_type_from_word. by apply Forall_forall. Qed.

(** *** Lines *)

Lemma contains_char s (c : N) : contains s [c] = true ↔ c ∈ s.
Proof.
  rewrite Splitter.contains_spec. split.
  - intros (u & v & ->). rewrite !elem_of_app, list_elem_of_singleton. tauto.
  - intros (u & v & ->)%list_elem_of_split. by exists u, v.
Qed.

Lemma lines_no_feed block :
  Forall (λ l, 10%N ∉ l) (split block [10%N]).
Proof.
  destruct (Splitter.split_spec block [10%N]) as [_ H]; [done|].
  apply Blocks.segments_ok_no_sep in H. eapply Forall_impl; [exact H|].
  intros l Hl Hin. apply contains_char in Hin. congruence.
Qed.

Lemma rstrip_feed l : 10%N ∉ l → rstrip_by (N.eqb 10) l = l.
Proof.
  intros Hl. apply StrFacts.rstrip_by_id. intros c Hc.
  destruct (N.eqb 10 c) eqn:E; [|done]. apply N.eqb_eq in E as <-.
  exfalso. apply Hl. apply last_Some in Hc as (l' & ->).
  apply elem_of_app. right. by left.
Qed.

Lemma lines_rstrip block :
  rstrip_by (N.eqb 10) <$> split block [10%N] = split block [10%N].
Proof.
  pose proof (lines_no_feed block) as H.
  induction H as [|l ls Hl _ IH]; [done|]. csimpl. by rewrite rstrip_feed, IH.
Qed.

Lemma lines_two block :
  10%N ∈ block ↔ ∃ l0 l1 rest, split block [10%N] = l0 :: l1 :: rest.
Proof.
  destruct (Splitter.split_spec block [10%N]) as [Hj Hok]; [done|]. split.
  - intros Hin. destruct (split block [10%N]) as [|l0 [|l1 rest]]; [done| |eauto].
    simpl in Hj, Hok. subst l0. apply contains_char in Hin. congruence.
  - intros (l0 & l1 & rest & E). rewrite E in Hj. rewrite <- Hj.
    rewrite Splitter.join_cons by done. rewrite !elem_of_app.
    right. left. by left.
Qed.

Lemma infix_join_elem sep p ps : p ∈ ps → infix p (join sep ps).
Proof.
  induction ps as [|q ps IH]; [by intros ?%elem_of_nil|].
  destruct ps as [|q' ps].
  - intros ->%list_elem_of_singleton. apply infix_refl.
  - rewrite Splitter.join_cons by done. intros [->|Hin]%elem_of_cons.
    + exists [], (sep ++ join sep (q' :: ps)). done.
    + apply infix_suffix, infix_suffix. by apply IH.
Qed.

Lemma infix_join_suffix sep pre ps : infix (join sep ps) (join sep (pre ++ ps)).
Proof.
  induction pre as [|q pre IH]; [apply infix_refl|].
  change ((q :: pre) ++ ps) with (q :: (pre ++ ps)).
  destruct (pre ++ ps) as [|x xs] eqn:E.
  - apply app_eq_nil in E as [-> ->]. by exists [], q.
  - rewrite Splitter.join_cons by done. by apply infix_suffix, infix_suffix.
Qed.

Lemma drop_blank_lines_suffix ls : ∃ pre, ls = pre ++ drop_blank_lines ls.
Proof.
  induction ls as [|l ls (pre & IH)]; [by exists []|]. simpl.
  destruct (is_empty (strip l)); [|by exists []].
  exists (l :: pre). by rewrite IH at 1.
Qed.

Lemma infix_feed a b : infix a b → 10%N ∉ b → 10%N ∉ a.
Proof.
  intros (u & v & ->) H Hin. apply H. rewrite !elem_of_app. tauto.
Qed.

Section host.
Variable mktime : Z → Z → Z → Z → Z → Z → option Z.

(** X26: [parse_entry] returns [None] exactly for a block without a line
    feed: a block of a single line is no entry, every other block is
    parsed, or makes the call raise. *)
Theorem parse_entry_none (block : pystr) (i : Z) :
  parse_entry mktime block i = Ok None ↔ 10%N ∉ block.
Proof.
  unfold parse_entry. rewrite lines_rstrip, lines_two. split.
  - intros H (l0 & l1 & rest & E). rewrite E in H.
    destruct (parse_loc (strip l1)); [|done..]. simpl in H.
    by destruct (md5_utf8 _).
  - intros H. destruct (split block [10%N]) as [|l0 [|l1 rest]]; try done.
    exfalso. apply H. eauto.
Qed.

Lemma parse_entry_inv (block : pystr) (i : Z) (e : Entry) :
  parse_entry mktime block i = Ok (Some e) →
  idx e = i
  ∧ (strip (title e) = title e ∧ strip (meta e) = meta e
     ∧ strip (body e) = body e)
  ∧ (infix (title e) block ∧ infix (meta e) block ∧ infix (body e) block)
  ∧ ((10%N ∉ title e) ∧ (10%N ∉ meta e))
  ∧ (norm e = normalize_for_compare (body e)
     ∧ clauses e = split_clauses (norm e))
  ∧ (match loc e with Some (a, b) => 0 ≤ a ≤ b | None => True end)
  ∧ (nonblank e = true ↔ body e ≠ []).
Proof.
  unfold parse_entry. rewrite lines_rstrip.
  pose proof (lines_no_feed block) as Hfeed.
  destruct (Splitter.split_spec block [10%N]) as [Hj _]; [done|].
  destruct (split block [10%N]) as [|l0 [|l1 rest]]; try done.
  destruct (parse_loc (strip l1)) as [l| |] eqn:El; [|done..]. simpl.
  destruct (md5_utf8 _) as [[]| |]; [|done..].
  intros [= <-]. simpl.
  apply Forall_cons in Hfeed as [H0 Hfeed].
  apply Forall_cons in Hfeed as [H1 _].
  assert (infix l0 block ∧ infix l1 block
          ∧ infix (join [10%N] rest) block) as (I0 & I1 & I2).
  { rewrite <- Hj. repeat split.
    - apply infix_join_elem. by left.
    - apply infix_join_elem. right. by left.
    - apply (infix_join_suffix [10%N] [l0; l1] rest). }
  assert (infix (strip_bom l0) l0) as J0.
  { unfold strip_bom. eapply infix_trans; [apply infix_strip|].
    destruct (StrFacts.lstrip_by_split (N.eqb BOM) l0) as (u & Hu & _).
    exists u, []. by rewrite app_nil_r. }
  split; [done|]. split.
  { unfold strip_bom. by rewrite !StrFacts.strip_idem. }
  split.
  { repeat split.
    - by eapply infix_trans.
    - eapply infix_trans; [apply infix_strip|done].
    - eapply infix_trans; [apply infix_strip|].
      eapply infix_trans; [|exact I2].
      destruct (drop_blank_lines_suffix rest) as (pre & Hpre).
      rewrite Hpre at 2. apply infix_join_suffix. }
  split.
  { split; [by eapply infix_feed|].
    eapply infix_feed; [apply infix_strip|done]. }
  split; [done|]. split.
  { destruct l as [[a b]|]; [|done]. by eapply parse_loc_from_range. }
  unfold nonblank. simpl. rewrite StrFacts.strip_idem.
  destruct (strip (join [10%N] (drop_blank_lines rest))); simpl; split; done.
Qed.

(** X27: an entry that [parse_entry] builds carries the index it was
    given; its title, metadata and body are trimmed pieces of the block,
    title and metadata without a line feed; its normalized body and its
    clauses are those of its body; its location is a range, the lower
    number first; and it is blank for [dedup_by_book] exactly when its
    body is empty. *)
Theorem parse_entry_fields (block : pystr) (i : Z) (e : Entry) :
  parse_entry mktime block i = Ok (Some e) →
  idx e = i
  ∧ (strip (title e) = title e ∧ strip (meta e) = meta e
     ∧ strip (body e) = body e)
  ∧ (infix (title e) block ∧ infix (meta e) block ∧ infix (body e) block)
  ∧ ((10%N ∉ title e) ∧ (10%N ∉ meta e))
  ∧ (norm e = normalize_for_compare (body e)
     ∧ clauses e = split_clauses (norm e))
  ∧ (match loc e with Some (a, b) => 0 ≤ a ≤ b | None => True end)
  ∧ (nonblank e = true ↔ body e ≠ []).
Proof. apply parse_entry_inv. Qed.

End host.

Lemma parse_entry_fields_witness :
  parse_entry (λ _ _ _ _ _ _, None)
    (py "Fables" ++ [10%N] ++ py "- Your Note on Location 9-7" ++ [10%N]
       ++ [10%N] ++ py "the moral") 4
  = Ok (Some (make_entry 4 (py "Fables") (py "- Your Note on Location 9-7")
                note (Some (7, 9)) None (py "the moral")))
  ∧ 4 = 4
  ∧ (strip (py "Fables") = py "Fables"
     ∧ strip (py "- Your Note on Location 9-7")
       = py "- Your Note on Location 9-7"
     ∧ strip (py "the moral") = py "the moral")
  ∧ (infix (py "Fables")
       (py "Fables" ++ [10%N] ++ py "- Your Note on Location 9-7" ++ [10%N]
          ++ [10%N] ++ py "the moral")
     ∧ infix (py "- Your Note on Location 9-7")
         (py "Fables" ++ [10%N] ++ py "- Your Note on Location 9-7"
            ++ [10%N] ++ [10%N] ++ py "the moral")
     ∧ infix (py "the moral")
         (py "Fables" ++ [10%N] ++ py "- Your Note on Location 9-7"
            ++ [10%N] ++ [10%N] ++ py "the moral"))
  ∧ ((10%N ∉ py "Fables") ∧ (10%N ∉ py "- Your Note on Location 9-7"))
  ∧ (normalize_for_compare (py "the moral")
     = normalize_for_compare (py "the moral")
     ∧ split_clauses (normalize_for_compare (py "the moral"))
       = split_clauses (normalize_for_compare (py "the moral")))
  ∧ 0 ≤ 7 ≤ 9
  ∧ (true = true ↔ py "the moral" ≠ []).
Proof.
  assert (parse_entry (λ _ _ _ _ _ _, None)
            (py "Fables" ++ [10%N] ++ py "- Your Note on Location 9-7"
               ++ [10%N] ++ [10%N] ++ py "the moral") 4
          = Ok (Some (make_entry 4 (py "Fables")
                        (py "- Your Note on Location 9-7") note
                        (Some (7, 9)) None (py "the moral")))) as H
    by (by vm_compute).
  split; [exact H|].
  exact (parse_entry_fields (λ _ _ _ _ _ _, None) _ _ _ H).
Defined.

End Entries.

(** ** From the input text to the output text *)

Module Pipeline.
Import Str Re Matches Cleaner Spec Invariants Parser ReFacts Metadata Entries.

Local Open Scope Z_scope.

Lemma infix_block content block :
  block ∈ split_entries content → infix block content.
Proof.
  intros [_ (p & Hp & ->)]%Clauses.omap_strip_elem.
  eapply infix_trans; [apply infix_strip|].
  destruct (Splitter.split_spec content SEPARATOR) as [Hj _]; [done|].
  rewrite <- Hj. by apply infix_join_elem.
Qed.

Lemma infix_elem a b (c : N) : infix a b → c ∈ a → c ∈ b.
Proof. intros (u & v & ->) H. rewrite !elem_of_app. tauto. Qed.

Lemma encode_raises text :
  encode text = UnicodeEncodeError → ∃ c, c ∈ text ∧ surrogate c = true.
Proof.
  unfold encode. destruct (existsb surrogate text) eqn:E; [|done]. intros _.
  apply existsb_exists in E as (c & Hc & Hs). exists c.
  by apply list_elem_of_In in Hc.
Qed.

Lemma encode_value text : encode text ≠ ValueError.
Proof. unfold encode. by destruct (existsb surrogate text). Qed.

Lemma sub_ws_runs_chars (P : N → Prop) repl b t :
  Forall P repl → Forall P t → Forall P (sub_ws_runs repl b t).
Proof.
  intros Hr Ht. revert b. induction Ht as [|c t Hc _ IH]; intros b; simpl;
    [done|].
  destruct (isspace c); [|by constructor].
  apply Forall_app. split; [by destruct b|done].
Qed.

Lemma rstrip_by_chars (P : N → Prop) p s :
  Forall P s → Forall P (rstrip_by p s).
Proof.
  destruct (StrFacts.rstrip_by_split p s) as (u & Hu & _). rewrite Hu at 1.
  by intros [H _]%Forall_app.
Qed.

(** The characters of a normalized body are those of the text, and the
    space and the line feed that the normalization puts in. *)
Lemma normalize_chars (P : N → Prop) text :
  P 10%N → P 32%N → Forall P text → Forall P (normalize_for_compare text).
Proof.
  intros H10 H32 Ht. unfold normalize_for_compare.
  destruct text as [|c0 text0]; [done|].
  set (t := strip _).
  assert (Forall P t) as Hs.
  { apply Clauses.strip_chars.
    apply Normalizer.replace_chars; [by repeat constructor|].
    apply Normalizer.replace_chars; [by repeat constructor|done]. }
  apply rstrip_by_chars.
  assert (Forall P (sub_ws_runs [32%N] false t)) as H1
    by (apply sub_ws_runs_chars; [by repeat constructor|done]).
  destruct (mostly_cjk _); [|done].
  by apply sub_ws_runs_chars.
Qed.

Lemma norm_chars text (c : N) :
  c ∈ normalize_for_compare text → c ∈ text ∨ surrogate c = false.
Proof.
  intros Hc.
  assert (Forall (λ c, c ∈ text ∨ surrogate c = false)
            (normalize_for_compare text)) as H.
  { apply normalize_chars; [by right|by right|].
    apply Forall_forall. intros x Hx. by left. }
  by apply (proj1 (Forall_forall _ _) H).
Qed.

Lemma dedup_book_nonblank tol m es :
  Forall (λ e, nonblank e = true) (dedup_book tol m es).
Proof.
  rewrite Dedup.dedup_book_buckets. rewrite !Forall_app.
  repeat split; apply Dedup.py_sort_Forall;
    (eapply Forall_impl; [apply Dedup.kept_bucket_selects|]);
    by intros e [[He _] _].
Qed.

Lemma write_item_nonblank e :
  nonblank e = true → write_item e = body e ++ [10; 10]%N.
Proof.
  unfold nonblank, write_item. by destruct (is_empty (body e)).
Qed.

Lemma dedup_book_subset tol m es :
  Forall (λ e, e ∈ es) (dedup_book tol m es).
Proof.
  rewrite Dedup.dedup_book_buckets. rewrite !Forall_app.
  repeat split; apply Dedup.py_sort_Forall;
    (eapply Forall_impl; [apply Dedup.kept_bucket_selects|]);
    by intros e [_ He].
Qed.

Lemma elem_of_concat {A} (x : A) (ls : list (list A)) :
  x ∈ concat ls → ∃ l, x ∈ l ∧ l ∈ ls.
Proof.
  induction ls as [|l ls IH]; simpl; [by intros ?%elem_of_nil|].
  intros [H|(l' & H & Hin)%IH]%elem_of_app.
  - exists l. split; [done|by left].
  - exists l'. split; [done|by right].
Qed.

Lemma books_titles (entries : list Entry) (t : pystr) :
  t ∈ books entries → ∃ e, e ∈ entries ∧ title e = t.
Proof.
  unfold books.
  assert (∀ seen,
            t ∈ foldl (λ seen e, if bool_decide (title e ∈ seen) then seen
                                 else seen ++ [title e]) seen entries →
            t ∈ seen ∨ ∃ e, e ∈ entries ∧ title e = t) as H.
  { induction entries as [|e entries IH]; intros seen; simpl; [by left|].
    intros [Hin|(x & Hx & Ht)]%IH.
    - destruct (bool_decide (title e ∈ seen)); [by left|].
      apply elem_of_app in Hin as [Hin|Hin%list_elem_of_singleton];
        [by left|].
      right. exists e. split; [by left|done].
    - right. exists x. split; [by right|done]. }
  intros [Hin%elem_of_nil|Hin]%H; done.
Qed.

(** A character that [save_md] writes after [dedup_by_book] stands in
    the title or in the body of an entry, or is no surrogate. *)
Lemma save_md_chars (entries : list Entry) tol m (c : N) :
  c ∈ save_md (items entries tol m) →
  (∃ e, e ∈ entries ∧ (c ∈ title e ∨ c ∈ body e)) ∨ surrogate c = false.
Proof.
  unfold save_md, items. rewrite <- list_fmap_compose.
  intros (chunk & Hc & (book & -> & Hbook)%list_elem_of_fmap)%elem_of_concat.
  unfold compose in Hc. cbn beta iota in Hc.
  apply elem_of_app in Hc as [Hc|Hc].
  { right. vm_compute in Hc.
    repeat (apply elem_of_cons in Hc as [->|Hc]; [done|]).
    by apply elem_of_nil in Hc. }
  apply elem_of_app in Hc as [Hc|Hc].
  { apply books_titles in Hbook as (e & He & <-). left. exists e. tauto. }
  apply elem_of_app in Hc as [Hc|Hc].
  { right. repeat (apply elem_of_cons in Hc as [->|Hc]; [done|]).
    by apply elem_of_nil in Hc. }
  apply elem_of_concat in Hc as (w & Hc & (e & -> & He)%list_elem_of_fmap).
  rewrite Dedup.dedup_by_book_lookup in He.
  destruct (entries_of book entries) as [|e0 es] eqn:E; simpl in He;
    [by apply elem_of_nil in He|].
  rewrite <- E in He.
  pose proof (proj1 (Forall_forall _ _) (dedup_book_nonblank tol m _) e He)
    as Hn.
  pose proof (proj1 (Forall_forall _ _) (dedup_book_subset tol m _) e He)
    as Hin.
  apply list_elem_of_filter in Hin as [_ Hin].
  rewrite (write_item_nonblank _ Hn) in Hc.
  apply elem_of_app in Hc as [Hc|Hc].
  - left. exists e. tauto.
  - right. repeat (apply elem_of_cons in Hc as [->|Hc]; [done|]).
    by apply elem_of_nil in Hc.
Qed.

Section host.
Variable mktime : Z → Z → Z → Z → Z → Z → option Z.

Lemma parse_entry_idx block i e :
  parse_entry mktime block i = Ok (Some e) → idx e = i.
Proof. by intros (H & _)%parse_entry_inv. Qed.

Lemma parse_entry_raises block i :
  parse_entry mktime block i = ValueError →
  ∃ t, infix t block ∧ digits t ∧ (int_max_str_digits < length t)%nat.
Proof.
  unfold parse_entry. rewrite lines_rstrip.
  destruct (Splitter.split_spec block [10%N]) as [Hj _]; [done|].
  destruct (split block [10%N]) as [|l0 [|l1 rest]]; try done.
  destruct (parse_loc (strip l1)) as [l| |] eqn:El; simpl.
  - destruct (md5_utf8 _) as [[]| |] eqn:Em;
      [done|by apply encode_value in Em|done].
  - intros _.
    apply parse_loc_from_raises in El as (t & (Hd & _ & Hi) & Hlen);
      [|by apply Forall_forall].
    exists t. repeat split; try done.
    eapply infix_trans; [exact Hi|].
    eapply infix_trans; [apply infix_strip|].
    rewrite <- Hj. apply infix_join_elem. right. by left.
  - done.
Qed.

Lemma parse_entry_encodes block i :
  parse_entry mktime block i = UnicodeEncodeError →
  ∃ c, c ∈ block ∧ surrogate c = true.
Proof.
  unfold parse_entry. rewrite lines_rstrip.
  destruct (Splitter.split_spec block [10%N]) as [Hj _]; [done|].
  destruct (split block [10%N]) as [|l0 [|l1 rest]]; try done.
  destruct (parse_loc (strip l1)) as [l| |] eqn:El; simpl;
    [|done|by apply parse_loc_from_encodes in El].
  destruct (md5_utf8 _) as [[]| |] eqn:Em; [done|done|]. intros _.
  apply encode_raises in Em as (c & Hc & Hs).
  apply norm_chars in Hc as [Hc|Hf]; [|congruence].
  exists c. split; [|done].
  assert (infix (strip (join [10%N] (drop_blank_lines rest))) block) as Hi.
  { eapply infix_trans; [apply infix_strip|].
    destruct (drop_blank_lines_suffix rest) as (pre & Hpre).
    eapply infix_trans; [apply (infix_join_suffix [10%N] pre)|].
    rewrite <- Hpre, <- Hj. apply (infix_join_suffix [10%N] [l0; l1] rest). }
  by eapply infix_elem.
Qed.

(** X28: [main] numbers the entries by the place of their block: the
    indices of the parsed entries increase strictly, so no two entries
    share one, each lies within the count of the blocks, and no block
    gives more than one entry. *)
Theorem parse_blocks_indices (i : Z) (blocks : list pystr)
    (parsed : list Entry) :
  parse_blocks mktime i blocks = Ok parsed →
  Pairwise (λ x y, idx x < idx y) parsed
  ∧ Forall (λ e, i ≤ idx e < i + Z.of_nat (length blocks)) parsed
  ∧ (length parsed ≤ length blocks)%nat.
Proof.
  revert i parsed. induction blocks as [|blk blocks IH]; intros i parsed.
  - by intros [= <-].
  - simpl. destruct (parse_entry mktime blk i) as [e| |] eqn:Ee; [|done..].
    simpl. destruct (parse_blocks mktime (i + 1) blocks) as [es| |] eqn:Es;
      [|done..].
    simpl. intros [= <-]. destruct (IH _ _ Es) as (Hp & Hr & Hl).
    assert (Forall (λ e, i ≤ idx e < i + Z.of_nat (length (blk :: blocks))) es)
      as Hr'.
    { eapply Forall_impl; [exact Hr|]. intros x Hx.
      cbv beta in Hx |- *. simpl length. lia. }
    destruct e as [e|]; [|by repeat split; [| |simpl; lia]].
    apply parse_entry_idx in Ee. repeat split.
    + eapply Forall_impl; [exact Hr|]. intros x Hx. cbv beta in Hx. lia.
    + done.
    + constructor; [|done]. cbv beta. simpl length. lia.
    + simpl. lia.
Qed.

Lemma parse_blocks_raises i blocks :
  parse_blocks mktime i blocks = ValueError →
  ∃ block t, block ∈ blocks ∧ infix t block ∧ digits t
             ∧ (int_max_str_digits < length t)%nat.
Proof.
  revert i. induction blocks as [|blk blocks IH]; intros i; [done|]. simpl.
  destruct (parse_entry mktime blk i) as [e| |] eqn:Ee; simpl; [| |done].
  - destruct (parse_blocks mktime (i + 1) blocks) as [es| |] eqn:Es;
      [done| |done].
    intros _. apply IH in Es as (block & t & Hin & H).
    exists block, t. split; [by right|done].
  - intros _. apply parse_entry_raises in Ee as (t & H).
    exists blk, t. split; [by left|done].
Qed.

Lemma parse_blocks_encodes i blocks :
  parse_blocks mktime i blocks = UnicodeEncodeError →
  ∃ block c, block ∈ blocks ∧ c ∈ block ∧ surrogate c = true.
Proof.
  revert i. induction blocks as [|blk blocks IH]; intros i; [done|]. simpl.
  destruct (parse_entry mktime blk i) as [e| |] eqn:Ee; simpl; [|done|].
  - destruct (parse_blocks mktime (i + 1) blocks) as [es| |] eqn:Es;
      [done|done|].
    intros _. apply IH in Es as (block & c & Hin & H).
    exists block, c. split; [by right|done].
  - intros _. apply parse_entry_encodes in Ee as (c & H).
    exists blk, c. split; [by left|done].
Qed.

(** The title and the body of a parsed entry are pieces of its block. *)
Lemma parse_blocks_pieces i blocks parsed :
  parse_blocks mktime i blocks = Ok parsed →
  Forall (λ e, ∃ block, block ∈ blocks ∧ infix (title e) block
                        ∧ infix (body e) block) parsed.
Proof.
  revert i parsed. induction blocks as [|blk blocks IH]; intros i parsed.
  - by intros [= <-].
  - simpl. destruct (parse_entry mktime blk i) as [e| |] eqn:Ee; [|done..].
    simpl. destruct (parse_blocks mktime (i + 1) blocks) as [es| |] eqn:Es;
      [|done..].
    simpl. intros [= <-].
    assert (Forall (λ e, ∃ block, block ∈ blk :: blocks
                                  ∧ infix (title e) block
                                  ∧ infix (body e) block) es) as Hes.
    { eapply Forall_impl; [exact (IH _ _ Es)|].
      intros x (block & Hin & H). exists block. split; [by right|done]. }
    destruct e as [e|]; [|done]. constructor; [|done].
    apply parse_entry_inv in Ee as (_ & _ & (Ht & _ & Hb) & _).
    exists blk. split; [by left|done].
Qed.

(** X29: [main] raises [ValueError] only on an input that holds more
    than 4300 decimal digits in a row, and [UnicodeEncodeError] only on
    an input that holds a surrogate; on every other input it writes its
    output. *)
Theorem main_raises (content : pystr) (time_tol clause_min_len : Z) :
  (main mktime content time_tol clause_min_len = ValueError →
   ∃ t, infix t content ∧ digits t ∧ (int_max_str_digits < length t)%nat)
  ∧ (main mktime content time_tol clause_min_len = UnicodeEncodeError →
     ∃ c, c ∈ content ∧ surrogate c = true).
Proof.
  unfold main.
  destruct (parse_blocks mktime 0 (split_entries content)) as [es| |] eqn:E;
    simpl.
  - split.
    + destruct (encode _) as [[]| |] eqn:Ec;
        [done|by apply encode_value in Ec|done].
    + destruct (encode _) as [[]| |] eqn:Ec; [done|done|]. intros _.
      apply encode_raises in Ec as (c & Hc & Hs).
      apply parse_blocks_pieces in E.
      apply save_md_chars in Hc as [(e & He & [Hc|Hc])|Hc]; [| |congruence].
      * apply (proj1 (Forall_forall _ _) E) in He as (block & Hin & Ht & _).
        exists c. split; [|done]. eapply infix_elem; [|exact Hc].
        eapply infix_trans; [exact Ht|]. by apply infix_block.
      * apply (proj1 (Forall_forall _ _) E) in He as (block & Hin & _ & Hb).
        exists c. split; [|done]. eapply infix_elem; [|exact Hc].
        eapply infix_trans; [exact Hb|]. by apply infix_block.
  - split; [|done]. intros _.
    apply parse_blocks_raises in E as (block & t & Hin & Hi & H).
    exists t. split; [|done]. eapply infix_trans; [exact Hi|].
    by apply infix_block.
  - split; [done|]. intros _.
    apply parse_blocks_encodes in E as (block & c & Hin & Hc & H).
    exists c. split; [|done]. eapply infix_elem; [|exact Hc].
    by apply infix_block.
Qed.

End host.

Lemma parse_blocks_indices_witness :
  parse_blocks (λ _ _ _ _ _ _, None) 0
    [py "Fables" ++ [10%N] ++ py "- Your Note on Location 7" ++ [10%N]
       ++ py "the moral";
     py "a stray line";
     py "Fables" ++ [10%N] ++ py "- Your Bookmark on Location 9"]
  = Ok [make_entry 0 (py "Fables") (py "- Your Note on Location 7") note
          (Some (7, 7)) None (py "the moral");
        make_entry 2 (py "Fables") (py "- Your Bookmark on Location 9")
          bookmark (Some (9, 9)) None []]
  ∧ Pairwise (λ x y, idx x < idx y)
      [make_entry 0 (py "Fables") (py "- Your Note on Location 7") note
         (Some (7, 7)) None (py "the moral");
       make_entry 2 (py "Fables") (py "- Your Bookmark on Location 9")
         bookmark (Some (9, 9)) None []]
  ∧ Forall (λ e, 0 ≤ idx e < 0 + Z.of_nat (length
              [py "Fables" ++ [10%N] ++ py "- Your Note on Location 7"
                 ++ [10%N] ++ py "the moral";
               py "a stray line";
               py "Fables" ++ [10%N] ++ py "- Your Bookmark on Location 9"]))
      [make_entry 0 (py "Fables") (py "- Your Note on Location 7") note
         (Some (7, 7)) None (py "the moral");
       make_entry 2 (py "Fables") (py "- Your Bookmark on Location 9")
         bookmark (Some (9, 9)) None []]
  ∧ (2 ≤ 3)%nat.
Proof.
  assert (parse_blocks (λ _ _ _ _ _ _, None) 0
            [py "Fables" ++ [10%N] ++ py "- Your Note on Location 7"
               ++ [10%N] ++ py "the moral";
             py "a stray line";
             py "Fables" ++ [10%N] ++ py "- Your Bookmark on Location 9"]
          = Ok [make_entry 0 (py "Fables") (py "- Your Note on Location 7")
                  note (Some (7, 7)) None (py "the moral");
                make_entry 2 (py "Fables")
                  (py "- Your Bookmark on Location 9") bookmark
                  (Some (9, 9)) None []]) as H by (by vm_compute).
  split; [exact H|].
  exact (parse_blocks_indices (λ _ _ _ _ _ _, None) 0 _ _ H).
Defined.

Lemma main_raises_witness :
  (main (λ _ _ _ _ _ _, None)
        (py "Fables" ++ [10%N] ++ py "loc. " ++ replicate 4301 49%N) 300 12
   = ValueError
   ∧ ∃ t, infix t (py "Fables" ++ [10%N] ++ py "loc. "
                   ++ replicate 4301 49%N)
          ∧ digits t ∧ (int_max_str_digits < length t)%nat)
  ∧ (main (λ _ _ _ _ _ _, None)
          (py "Fables" ++ [10%N] ++ py "- Your Note on Location 7" ++ [10%N]
             ++ py "the moral " ++ [55296%N]) 300 12
     = UnicodeEncodeError
     ∧ ∃ c, c ∈ py "Fables" ++ [10%N] ++ py "- Your Note on Location 7"
                 ++ [10%N] ++ py "the moral " ++ [55296%N]
            ∧ surrogate c = true).
Proof.
  assert (main (λ _ _ _ _ _ _, None)
            (py "Fables" ++ [10%N] ++ py "loc. " ++ replicate 4301 49%N)
            300 12 = ValueError) as H by (by vm_compute).
  assert (main (λ _ _ _ _ _ _, None)
            (py "Fables" ++ [10%N] ++ py "- Your Note on Location 7"
               ++ [10%N] ++ py "the moral " ++ [55296%N]) 300 12
          = UnicodeEncodeError) as H' by (by vm_compute).
  split.
  - split; [exact H|]. exact (proj1 (main_raises _ _ _ _) H).
  - split; [exact H'|]. exact (proj2 (main_raises _ _ _ _) H').
Defined.

(** *** The writer *)

(** X30: [save_md] never writes its placeholder line for an entry
    without body after [dedup_by_book]: the output is, document by
    document in the order of the dictionary, the heading and the bodies
    of the kept entries, each followed by an empty line. *)
Theorem save_md_bodies (entries : list Entry) (time_tol clause_min_len : Z) :
  save_md (items entries time_tol clause_min_len)
  = concat ((λ '(book, its),
              py "## " ++ book ++ [10; 10]%N
              ++ concat ((λ it, body it ++ [10; 10]%N) <$> its))
            <$> items entries time_tol clause_min_len).
Proof.
  unfold save_md, items. f_equal. rewrite <- !list_fmap_compose.
  apply list_fmap_ext. intros _ book _. unfold compose. cbn beta iota.
  do 4 f_equal. apply Forall_fmap_ext_1. rewrite Dedup.dedup_by_book_lookup.
  destruct (entries_of book entries) as [|e0 es] eqn:E; simpl; [done|].
  rewrite <- E. eapply Forall_impl; [apply dedup_book_nonblank|].
  intros x. apply write_item_nonblank.
Qed.

End Pipeline.
